(** * Hexflower: hex coordinates, ring traversal, sparse grids and the
      cluster builders, embedded from the Python sources.

    Python integers are unbounded, so every [int] is a [Z].  A raised
    exception is the [Err] branch of [result].  The random source is an
    abstract state threaded through every draw. *)

From Stdlib Require Import Ascii String.
From Stdlib Require Import ZArith List Lia Bool Permutation Arith Sorted.
Import ListNotations.

Open Scope Z_scope.

(** ** Exceptions and the error monad *)

(** The exception classes the core raises; the message text is not part
    of the model. *)
Inductive exn : Type :=
| ValueError
| RuntimeError
| IndexError.

Inductive result (A : Type) : Type :=
| Ok (a : A)
| Err (e : exn).

Arguments Ok {A} a.
Arguments Err {A} e.

Definition bind {A B : Type} (m : result A) (k : A -> result B) : result B :=
  match m with
  | Ok a => k a
  | Err e => Err e
  end.

Notation "x <- m ;; k" := (bind m (fun x => k))
  (at level 61, m at next level, right associativity).
Notation "' pat <- m ;; k" := (bind m (fun x => match x with pat => k end))
  (at level 61, pat pattern, m at next level, right associativity).

(** [for x in l: s = body(x, s)], stopping at the first exception. *)
Fixpoint for_each {A S : Type} (l : list A) (body : A -> S -> result S) (s : S)
  : result S :=
  match l with
  | [] => Ok s
  | x :: l' => s' <- body x s ;; for_each l' body s'
  end.

(** [[f(x) for x in l]] for a fallible [f]. *)
Fixpoint map_result {A B : Type} (f : A -> result B) (l : list A)
  : result (list B) :=
  match l with
  | [] => Ok []
  | x :: l' => y <- f x ;; ys <- map_result f l' ;; Ok (y :: ys)
  end.

(** Python's [range(lo, hi)]: empty when [hi <= lo]. *)
Definition range (lo hi : Z) : list Z :=
  map (fun i => lo + Z.of_nat i) (seq 0 (Z.to_nat (hi - lo))).

(** Python's [sorted(l, key=...)] for keys that are pairs of integers,
    compared as tuples.  The sort is stable, which fixes the result: each
    element is put behind the elements already placed whose key is not
    greater. *)
Definition key_ltb (a b : Z * Z) : bool :=
  (fst a <? fst b) || ((fst a =? fst b) && (snd a <? snd b)).

Fixpoint insert_by_key {A : Type} (key : A -> Z * Z) (x : A) (l : list A) : list A :=
  match l with
  | [] => [x]
  | y :: l' =>
      if key_ltb (key x) (key y) then x :: y :: l'
      else y :: insert_by_key key x l'
  end.

Definition sorted {A : Type} (key : A -> Z * Z) (l : list A) : list A :=
  fold_left (fun acc x => insert_by_key key x acc) l [].

(** Python's [t[i]] on a tuple: a negative index counts from the end,
    anything outside [-len .. len-1] raises [IndexError]. *)
Definition tuple_index {A : Type} (t : list A) (i : Z) : result A :=
  let n := Z.of_nat (length t) in
  let j := if i <? 0 then i + n else i in
  if (j <? 0) || (n <=? j) then Err IndexError
  else match nth_error t (Z.to_nat j) with
       | Some x => Ok x
       | None => Err IndexError
       end.

(** ** hex.py *)

Module Hex.

(** The dataclass carries [q] and [r]; [DIRS] is the same tuple on every
    instance, so it is a constant here. *)
Record t : Type := mk { q : Z; r : Z }.

Definition DIRS : list (Z * Z) :=
  [ (1, 0);    (* E *)
    (1, -1);   (* NE *)
    (0, -1);   (* NW *)
    (-1, 0);   (* W *)
    (-1, 1);   (* SW *)
    (0, 1) ].  (* SE *)

(** Structural equality of the frozen dataclass. *)
Definition eqb (a b : t) : bool := (q a =? q b) && (r a =? r b).

Definition eq_dec (a b : t) : {a = b} + {a <> b}.
Proof. decide equality; apply Z.eq_dec. Defined.

(** [h in keys] for a list or set of coordinates. *)
Definition mem (h : t) (keys : list t) : bool := existsb (eqb h) keys.

Definition neighbor (self : t) (direction_index : Z) : result t :=
  '(dq, dr) <- tuple_index DIRS direction_index ;;
  Ok (mk (q self + dq) (r self + dr)).

Definition neighbors (self : t) : result (list t) :=
  map_result (neighbor self) (range 0 6).

Definition add (self : t) (dq dr : Z) : t :=
  mk (q self + dq) (r self + dr).

Definition scale_dir (self : t) (direction_index k : Z) : result t :=
  '(dq, dr) <- tuple_index DIRS direction_index ;;
  Ok (mk (q self + dq * k) (r self + dr * k)).

Definition distance (self other : t) : Z :=
  let dq := q self - q other in
  let dr := r self - r other in
  Z.max (Z.max (Z.abs dq) (Z.abs dr))
        (Z.abs ((q self + r self) - (q other + r other))).

End Hex.

(** ** traversal.py *)

Module HexTraversal.

Definition ring (center : Hex.t) (radius : Z) : result (list Hex.t) :=
  if radius <? 0 then Err ValueError
  else if radius =? 0 then Ok [center]
  else
    h <- Hex.scale_dir center 4 radius ;;
    '(_, out) <-
      for_each (range 0 6)
        (fun side st =>
           for_each (range 0 radius)
             (fun _ '(h, out) =>
                h' <- Hex.neighbor h side ;;
                Ok (h', out ++ [h]))
             st)
        (h, []) ;;
    Ok out.

Definition spiral (center : Hex.t) (radius : Z) : result (list Hex.t) :=
  for_each (range 0 (radius + 1))
    (fun r out => l <- ring center r ;; Ok (out ++ l))
    [].

End HexTraversal.

(** ** grid.py *)

Definition Biome : Type := string.

Module HexGrid.

(** [_cells]: a Python dict keeps its keys in insertion order, and that
    order is what [keys()] and [items()] enumerate. *)
Definition t : Type := list (Hex.t * Biome).

Definition empty : t := [].

Definition len (self : t) : nat := length self.

Definition items (self : t) : list (Hex.t * Biome) := self.

Definition keys (self : t) : list Hex.t := map fst self.

Definition contains (self : t) (h : Hex.t) : bool := Hex.mem h (keys self).

Fixpoint get (self : t) (h : Hex.t) : option Biome :=
  match self with
  | [] => None
  | (k, v) :: rest => if Hex.eqb k h then Some v else get rest h
  end.

(** [_cells[h] = value]: an existing key keeps its position, a new key
    goes to the end. *)
Fixpoint set (self : t) (h : Hex.t) (value : Biome) : t :=
  match self with
  | [] => [(h, value)]
  | (k, v) :: rest =>
      if Hex.eqb k h then (k, value) :: rest else (k, v) :: set rest h value
  end.

Definition update (self other : t) : t :=
  fold_left (fun cells kv => set cells (fst kv) (snd kv)) other self.

Definition is_disjoint (self other : t) : bool :=
  forallb (fun k => negb (Hex.mem k (keys self))) (keys other).

Fixpoint touches_loop (hs other_keys : list Hex.t) : result bool :=
  match hs with
  | [] => Ok false
  | h :: hs' =>
      nbs <- Hex.neighbors h ;;
      if existsb (fun nb => Hex.mem nb other_keys) nbs then Ok true
      else touches_loop hs' other_keys
  end.

Definition touches (self other : t) : result bool :=
  touches_loop (keys self) (keys other).

Definition translate (self : t) (dq dr : Z) : t :=
  fold_left (fun out hv => set out (Hex.add (fst hv) dq dr) (snd hv))
            (items self) empty.

(** One record of the JSON export, [{"q": .., "r": .., "value": ..}]. *)
Record json_cell : Type := { json_q : Z; json_r : Z; json_value : Biome }.

Definition to_jsonable_list (self : t) : list json_cell :=
  map (fun hv => {| json_q := Hex.q (fst hv); json_r := Hex.r (fst hv);
                    json_value := snd hv |})
      (sorted (fun kv => (Hex.r (fst kv), Hex.q (fst kv))) (items self)).

End HexGrid.

(** [HexGrid] objects are passed by reference.  The store holds the
    [_cells] of every allocated grid, a reference is its position. *)
Module Store.

Definition t : Type := list HexGrid.t.
Definition ref : Type := nat.

(** [HexGrid()] *)
Definition new_grid (st : t) : ref * t := (length st, st ++ [HexGrid.empty]).

Definition read (st : t) (g : ref) : option HexGrid.t := nth_error st g.

(** [g.set(h, value)] *)
Fixpoint set (st : t) (g : ref) (h : Hex.t) (value : Biome) : t :=
  match st, g with
  | [], _ => []
  | cells :: st', O => HexGrid.set cells h value :: st'
  | cells :: st', S g' => cells :: set st' g' h value
  end.

(** [self.translate(dq, dr)]: [out] is a fresh object, so the items of
    [self] read at loop entry are the items seen all along. *)
Definition translate (st : t) (self : ref) (dq dr : Z) : option (ref * t) :=
  match read st self with
  | None => None
  | Some cells =>
      let (out, st) := new_grid st in
      Some (out,
            fold_left (fun st hv => set st out (Hex.add (fst hv) dq dr) (snd hv))
                      (HexGrid.items cells) st)
  end.

End Store.

(** ** tables.py *)

(** [random.Random] as the core uses it: [randint(a, b)] and the index
    draw behind [choice(seq)], each returning the advanced state. *)
Class RandomSource (R : Type) : Type := {
  randint : Z -> Z -> R -> Z * R;
  randbelow : nat -> R -> nat * R
}.

(** [rng.choice(seq)] is [seq[randbelow(len(seq))]]. *)
Definition choice {R : Type} `{RandomSource R} {A : Type}
    (seq : list A) (rng : R) : result (A * R) :=
  let (i, rng') := randbelow (length seq) rng in
  match nth_error seq i with
  | Some x => Ok (x, rng')
  | None => Err IndexError
  end.

Module BiomeTables.

Definition start_biome {R : Type} `{RandomSource R} (rng : R) : Biome * R :=
  let (x, rng') := randint 1 10 rng in
  (if (1 <=? x) && (x <=? 4) then "grassland"%string
   else if (5 <=? x) && (x <=? 6) then "forest"%string
   else if (7 <=? x) && (x <=? 8) then "hills"%string
   else if x =? 9 then "marsh"%string
   else "mountains"%string, rng').

Definition next_biome {R : Type} `{RandomSource R} (prev : Biome) (rng : R)
  : Biome * R :=
  let (x, rng') := randint 1 10 rng in
  (if (1 <=? x) && (x <=? 5) then prev
   else if x =? 6 then "grassland"%string
   else if x =? 7 then "forest"%string
   else if x =? 8 then "hills"%string
   else if x =? 9 then "marsh"%string
   else "mountains"%string, rng').

End BiomeTables.

(** ** generators.py *)

(** [x or default] on an optional string: [None] and the empty string are
    both falsy. *)
Definition or_default (x : option Biome) (default : Biome) : Biome :=
  match x with
  | None => default
  | Some EmptyString => default
  | Some s => s
  end.

Module SnowflakeHexflowerGenerator.

Definition _choose_inward_neighbor (target center : Hex.t) (grid : HexGrid.t)
  : result (option Hex.t) :=
  let dist_target := Hex.distance target center in
  nbs <- Hex.neighbors target ;;
  let inward_candidates :=
    filter (fun nb => HexGrid.contains grid nb
                      && (Hex.distance nb center =? dist_target - 1)) nbs in
  match inward_candidates with
  | c :: _ => Ok (Some c)
  | [] =>
      nbs' <- Hex.neighbors target ;;
      Ok (find (fun nb => HexGrid.contains grid nb) nbs')
  end.

Section Generate.
Context {R : Type} `{RandomSource R}.

(** The body of the inner loop of [generate], for one hex [h]. *)
Definition fill_hex (center h : Hex.t) (st : HexGrid.t * R)
  : result (HexGrid.t * R) :=
  let '(grid, rng) := st in
  prev_hex <- _choose_inward_neighbor h center grid ;;
  match prev_hex with
  | None =>
      let (b, rng') := BiomeTables.start_biome rng in
      Ok (HexGrid.set grid h b, rng')
  | Some p =>
      let prev_biome := or_default (HexGrid.get grid p) "grassland"%string in
      let (b, rng') := BiomeTables.next_biome prev_biome rng in
      Ok (HexGrid.set grid h b, rng')
  end.

Definition generate (center : Hex.t) (radius : Z) (rng : R)
  : result (HexGrid.t * R) :=
  if radius <? 0 then Err ValueError
  else
    let grid := HexGrid.empty in
    let (b, rng) := BiomeTables.start_biome rng in
    let grid := HexGrid.set grid center b in
    for_each (range 1 (radius + 1))
      (fun r st =>
         hs <- HexTraversal.ring center r ;;
         for_each hs (fill_hex center) st)
      (grid, rng).

End Generate.

End SnowflakeHexflowerGenerator.

(** Iteration over a Python [set] follows its hash table, not insertion
    order: all the code can rely on is that every element comes once. *)
Class SetOrder : Type := {
  set_iter : list Hex.t -> list Hex.t;
  set_iter_perm : forall l, Permutation (set_iter l) (nodup Hex.eq_dec l)
}.

Module ConnectedHexflowerBuilder.

Import SnowflakeHexflowerGenerator.

(** Lines 96-102 of [build_chain]: the frontier list, from the
    iteration of [super_set]. *)
Definition frontier_targets (super_set : list Hex.t) : result (list Hex.t) :=
  for_each super_set
    (fun h frontier =>
       nbs <- Hex.neighbors h ;;
       Ok (frontier ++ filter (fun nb => negb (Hex.mem nb super_set)) nbs))
    [].

Section BuildChain.
Context {R : Type} `{RandomSource R} `{SetOrder}.

(** The [for _try in range(max_tries)] loop: [continue] is the
    recursive call, [break] the return with [placed = True]. *)
Fixpoint place_loop (tries : nat) (super_map new : HexGrid.t)
    (new_keys frontier : list Hex.t) (rng : R)
  : result (bool * HexGrid.t * R) :=
  match tries with
  | O => Ok (false, super_map, rng)
  | S tries' =>
      '(target, rng) <- choice frontier rng ;;
      '(anchor, rng) <- choice new_keys rng ;;
      let dq := Hex.q target - Hex.q anchor in
      let dr := Hex.r target - Hex.r anchor in
      let moved := HexGrid.translate new dq dr in
      if negb (HexGrid.is_disjoint super_map moved)
      then place_loop tries' super_map new new_keys frontier rng
      else
        touching <- HexGrid.touches super_map moved ;;
        if negb touching
        then place_loop tries' super_map new new_keys frontier rng
        else Ok (true, HexGrid.update super_map moved, rng)
  end.

(** One pass of the [for _ in range(count - 1)] loop. *)
Definition place_cluster (radius max_tries : Z) (st : HexGrid.t * R)
  : result (HexGrid.t * R) :=
  let '(super_map, rng) := st in
  '(new, rng) <- generate (Hex.mk 0 0) radius rng ;;
  let new_keys := HexGrid.keys new in
  let super_set := set_iter (HexGrid.keys super_map) in
  frontier <- frontier_targets super_set ;;
  match frontier with
  | [] => Err RuntimeError
  | _ :: _ =>
      '(placed, super_map, rng) <-
        place_loop (Z.to_nat max_tries) super_map new new_keys frontier rng ;;
      if negb placed then Err RuntimeError else Ok (super_map, rng)
  end.

Definition build_chain (count radius max_tries : Z) (rng : R)
  : result (HexGrid.t * R) :=
  if count <? 1 then Err ValueError
  else
    '(first, rng) <- generate (Hex.mk 0 0) radius rng ;;
    let super_map := HexGrid.update HexGrid.empty first in
    for_each (range 0 (count - 1))
      (fun _ st => place_cluster radius max_tries st)
      (super_map, rng).

End BuildChain.

End ConnectedHexflowerBuilder.

Module ConcentricHexflowerOfHexflowersBuilder.

Import SnowflakeHexflowerGenerator.

(** The inner loop of [build]: [if out.get(h) is None: out.set(h, v)]. *)
Definition merge_first_wins (out snowflake : HexGrid.t) : HexGrid.t :=
  fold_left
    (fun out hv =>
       match HexGrid.get out (fst hv) with
       | None => HexGrid.set out (fst hv) (snd hv)
       | Some _ => out
       end)
    (HexGrid.items snowflake) out.

Section Build.
Context {R : Type} `{RandomSource R}.

Definition build (meta_radius snowflake_radius : Z) (rng : R)
  : result (HexGrid.t * R) :=
  if meta_radius <? 0 then Err ValueError
  else if snowflake_radius <? 0 then Err ValueError
  else
    let spacing := 2 * snowflake_radius in
    let out := HexGrid.empty in
    let meta_center := Hex.mk 0 0 in
    meta_positions <- HexTraversal.spiral meta_center meta_radius ;;
    for_each meta_positions
      (fun mh '(out, rng) =>
         let center := Hex.mk (Hex.q mh * spacing) (Hex.r mh * spacing) in
         '(snowflake, rng) <- generate center snowflake_radius rng ;;
         Ok (merge_first_wins out snowflake, rng))
      (out, rng).

End Build.

End ConcentricHexflowerOfHexflowersBuilder.

(** ** render_svg.py *)

Module SVGRenderer.

(** [s.replace(old, new)] for a one-character [old]. *)
Fixpoint replace (old : ascii) (new : string) (s : string) : string :=
  match s with
  | EmptyString => EmptyString
  | String c rest =>
      if Ascii.eqb c old then (new ++ replace old new rest)%string
      else String c (replace old new rest)
  end.

(** The double quote character. *)
Definition quot : ascii := "034"%char.

(** The local function [esc] of [render]: five replacements, the
    ampersand first. *)
Definition esc (s : string) : string :=
  replace "'"%char "&apos;"
    (replace quot "&quot;"
       (replace ">"%char "&gt;"
          (replace "<"%char "&lt;"
             (replace "&"%char "&amp;" s)))).

End SVGRenderer.

(** ** A concrete random source and set order, for running the code *)

(** A counter: [randint a b] walks through [a..b], [randbelow n] through
    [0..n-1]. *)
#[export] Instance counter_rng : RandomSource nat := {
  randint a b s := (a + Z.of_nat s mod (b - a + 1), S s);
  randbelow n s := (Nat.modulo s n, S s)
}.

#[export] Instance insertion_order : SetOrder := {
  set_iter l := nodup Hex.eq_dec l;
  set_iter_perm l := Permutation_refl _
}.

(** ** Closed forms and predicates the properties are stated with *)

(** The six neighbours, in the order of [DIRS]. *)
Definition neighbor_list (h : Hex.t) : list Hex.t :=
  [ Hex.mk (Hex.q h + 1) (Hex.r h + 0);
    Hex.mk (Hex.q h + 1) (Hex.r h + -1);
    Hex.mk (Hex.q h + 0) (Hex.r h + -1);
    Hex.mk (Hex.q h + -1) (Hex.r h + 0);
    Hex.mk (Hex.q h + -1) (Hex.r h + 1);
    Hex.mk (Hex.q h + 0) (Hex.r h + 1) ].

(** The vector a direction index selects, for in-range positions. *)
Definition unit_vector (i : nat) : Z * Z := nth i Hex.DIRS (0, 0).

(** [h] moved [k] steps along the vector [d]. *)
Definition shift (h : Hex.t) (d : Z * Z) (k : nat) : Hex.t :=
  Hex.mk (Hex.q h + fst d * Z.of_nat k) (Hex.r h + snd d * Z.of_nat k).

(** Closed form of the [k]-th hex of side [i] of the ring of radius [n]. *)
Definition ring_point (c : Hex.t) (n i k : nat) : Hex.t :=
  let n := Z.of_nat n in
  let k := Z.of_nat k in
  match i with
  | 0%nat => Hex.mk (Hex.q c - n + k) (Hex.r c + n)
  | 1%nat => Hex.mk (Hex.q c + k) (Hex.r c + n - k)
  | 2%nat => Hex.mk (Hex.q c + n) (Hex.r c - k)
  | 3%nat => Hex.mk (Hex.q c + n - k) (Hex.r c - n)
  | 4%nat => Hex.mk (Hex.q c - k) (Hex.r c - n + k)
  | _ => Hex.mk (Hex.q c - n) (Hex.r c + k)
  end.

Definition ring_at (c : Hex.t) (n j : nat) : Hex.t :=
  ring_point c n (j / n) (j mod n).

Definition ring_closed (c : Hex.t) (n : nat) : list Hex.t :=
  map (ring_at c n) (seq 0 (6 * n)).

Fixpoint spiral_list (c : Hex.t) (n : nat) : list Hex.t :=
  match n with
  | O => [c]
  | S n' => spiral_list c n' ++ ring_closed c n
  end.

(** The cells of [keys] that have [x] among their six neighbours. *)
Definition adjacent_cells (keys : list Hex.t) (x : Hex.t) : list Hex.t :=
  filter (fun h => Hex.mem x (neighbor_list h)) keys.

(** No key of [m] is a key of [s]. *)
Definition Disjoint (s m : HexGrid.t) : Prop :=
  forall h, In h (HexGrid.keys m) -> ~ In h (HexGrid.keys s).

(** Some coordinate of [m] has one of its six neighbours in [s]. *)
Definition Adjacent (s m : HexGrid.t) : Prop :=
  exists h i nb,
    In h (HexGrid.keys m) /\ 0 <= i < 6 /\ Hex.neighbor h i = Ok nb /\
    In nb (HexGrid.keys s).

(** A run of placements: each cluster is disjoint from and adjacent to
    the super-grid it is merged into. *)
Inductive chain_placed : HexGrid.t -> list HexGrid.t -> HexGrid.t -> Prop :=
| chain_done (s : HexGrid.t) : chain_placed s [] s
| chain_step (s m : HexGrid.t) (ms : list HexGrid.t) (s' : HexGrid.t) :
    Disjoint s m -> Adjacent s m ->
    chain_placed (HexGrid.update s m) ms s' ->
    chain_placed s (m :: ms) s'.

(** A cluster as the placement loop merges it: a cluster generated at
    the origin, moved by some offset. *)
Definition translated_cluster {R : Type} `{RandomSource R}
    (radius : Z) (m : HexGrid.t) : Prop :=
  exists (rng0 : R) new rng1 dq dr,
    SnowflakeHexflowerGenerator.generate (Hex.mk 0 0) radius rng0 = Ok (new, rng1) /\
    m = HexGrid.translate new dq dr.

(** The value a first-wins union of [clusters] holds at [h]: that of the
    earliest cluster with the key [h]. *)
Fixpoint first_value (clusters : list HexGrid.t) (h : Hex.t) : option Biome :=
  match clusters with
  | [] => None
  | g :: gs =>
      match HexGrid.get g h with
      | Some v => Some v
      | None => first_value gs h
      end
  end.

(** One cluster per centre, in order, each continuing the draws of the
    one before. *)
Fixpoint generate_all {R : Type} `{RandomSource R}
    (centers : list Hex.t) (radius : Z) (rng : R) : result (list HexGrid.t * R) :=
  match centers with
  | [] => Ok ([], rng)
  | c :: cs =>
      '(g, rng) <- SnowflakeHexflowerGenerator.generate c radius rng ;;
      '(gs, rng) <- generate_all cs radius rng ;;
      Ok (g :: gs, rng)
  end.

(** The centre of the cluster at meta-position [mh]. *)
Definition cluster_center (snowflake_radius : Z) (mh : Hex.t) : Hex.t :=
  Hex.mk (Hex.q mh * (2 * snowflake_radius)) (Hex.r mh * (2 * snowflake_radius)).

(** The cluster [generate] builds at the origin with radius 1 from the
    counter source in state 0, and a two-cell grid. *)
Definition radius1_cluster : HexGrid.t :=
  Eval vm_compute in
    match SnowflakeHexflowerGenerator.generate (Hex.mk 0 0) 1 0%nat with
    | Ok (g, _) => g
    | Err _ => []
    end.

Definition two_cells : HexGrid.t :=
  [(Hex.mk 0 0, "hills"%string); (Hex.mk 1 (-1), "marsh"%string)].

(** Tuple comparison on the sort keys, and the order it gives. *)
Definition key_lt (a b : Z * Z) : Prop :=
  fst a < fst b \/ (fst a = fst b /\ snd a < snd b).

Definition before {A : Type} (key : A -> Z * Z) (x y : A) : Prop :=
  key_lt (key x) (key y).

(** The five terrain names of the tables. *)
Definition is_biome (b : Biome) : Prop :=
  b = "grassland"%string \/ b = "forest"%string \/ b = "hills"%string
  \/ b = "marsh"%string \/ b = "mountains"%string.

(** The state of the random source after [n] draws of [randint(1, 10)]. *)
Fixpoint after_draws {R : Type} `{RandomSource R} (n : nat) (rng : R) : R :=
  match n with
  | O => rng
  | S n' => after_draws n' (snd (randint 1 10 rng))
  end.

(** [generate] with both fallbacks of the predecessor choice taken out:
    the predecessor is the first filled neighbour exactly one step closer
    to the centre, and a hex without one is an error. *)
Definition fill_hex_inward {R : Type} `{RandomSource R}
    (center h : Hex.t) (st : HexGrid.t * R) : result (HexGrid.t * R) :=
  let '(grid, rng) := st in
  nbs <- Hex.neighbors h ;;
  match find (fun nb => HexGrid.contains grid nb
                        && (Hex.distance nb center =? Hex.distance h center - 1)) nbs with
  | Some p =>
      let prev_biome := or_default (HexGrid.get grid p) "grassland"%string in
      let (b, rng') := BiomeTables.next_biome prev_biome rng in
      Ok (HexGrid.set grid h b, rng')
  | None => Err RuntimeError
  end.

Definition generate_inward {R : Type} `{RandomSource R}
    (center : Hex.t) (radius : Z) (rng : R) : result (HexGrid.t * R) :=
  if radius <? 0 then Err ValueError
  else
    let (b, rng) := BiomeTables.start_biome rng in
    let grid := HexGrid.set HexGrid.empty center b in
    for_each (range 1 (radius + 1))
      (fun r st =>
         hs <- HexTraversal.ring center r ;;
         for_each hs (fill_hex_inward center) st)
      (grid, rng).

(** Cells whose values are all terrain names. *)
Definition biome_cells (g : HexGrid.t) : Prop :=
  Forall (fun kv => is_biome (snd kv)) g.

(** Every cell of [g] moved by [(dq, dr)], and the same on the outcome of
    a run. *)
Definition move_cells (dq dr : Z) (g : HexGrid.t) : HexGrid.t :=
  map (fun hv => (Hex.add (fst hv) dq dr, snd hv)) g.

Definition move_state {R : Type} (dq dr : Z) (r : result (HexGrid.t * R))
  : result (HexGrid.t * R) :=
  match r with
  | Ok (g, rng) => Ok (move_cells dq dr g, rng)
  | Err e => Err e
  end.

(** The super-grid [build_chain] returns for two clusters of radius 1
    from the counter source in state 0. *)
Definition chain_of_two : HexGrid.t :=
  Eval vm_compute in
    match ConnectedHexflowerBuilder.build_chain 2 1 5 0%nat with
    | Ok (g, _) => g
    | Err _ => []
    end.

(** [a] and [b] are joined by a walk of unit steps that stays on the
    coordinates of [keys]. *)
Inductive linked (keys : list Hex.t) : Hex.t -> Hex.t -> Prop :=
| linked_here (a : Hex.t) : In a keys -> linked keys a a
| linked_step (a b c : Hex.t) :
    In a keys -> Hex.distance a b = 1 -> linked keys b c -> linked keys a c.

(** [(h, v)] is the cell that the earliest of [clusters] with the key
    [h] holds there. *)
Definition first_cell (clusters : list HexGrid.t) (h : Hex.t) (v : Biome) : Prop :=
  exists before g after,
    clusters = before ++ g :: after /\
    In (h, v) (HexGrid.items g) /\
    Forall (fun b => ~ In h (HexGrid.keys b)) before.

(** The indices of [frontier] that hold [x]: the draws of
    [randbelow (length frontier)] for which [choice] gives [x]. *)
Definition target_positions (frontier : list Hex.t) (x : Hex.t) : list nat :=
  filter (fun i => match nth_error frontier i with
                   | Some y => Hex.eqb y x
                   | None => false
                   end)
         (seq 0 (length frontier)).

(** * Properties *)

(** ** The error monad and loops *)

Lemma for_each_app {A S : Type} (l1 l2 : list A) (body : A -> S -> result S) (s : S) :
  for_each (l1 ++ l2) body s = (s' <- for_each l1 body s ;; for_each l2 body s').
Proof.
  revert s; induction l1 as [|x l1 IH]; intros s; simpl; [reflexivity|].
  destruct (body x s); simpl; auto.
Qed.

Lemma range_length (lo hi : Z) : length (range lo hi) = Z.to_nat (hi - lo).
Proof. unfold range. now rewrite length_map, length_seq. Qed.

Lemma range_snoc (lo hi : Z) :
  lo <= hi -> range lo (hi + 1) = range lo hi ++ [hi].
Proof.
  intros Hle. unfold range.
  replace (Z.to_nat (hi + 1 - lo)) with (Z.to_nat (hi - lo) + 1)%nat by lia.
  rewrite seq_app, map_app. simpl. do 2 f_equal. lia.
Qed.

Lemma range_empty (lo hi : Z) : hi <= lo -> range lo hi = [].
Proof.
  intros Hle. unfold range. replace (Z.to_nat (hi - lo)) with 0%nat by lia.
  reflexivity.
Qed.

Lemma in_range (lo hi x : Z) : In x (range lo hi) <-> lo <= x < hi.
Proof.
  unfold range. rewrite in_map_iff. split.
  - intros (i & <- & Hi). apply in_seq in Hi. lia.
  - intros Hx. exists (Z.to_nat (x - lo)). split; [lia|]. apply in_seq. lia.
Qed.

(** ** Coordinates *)

Lemma hex_eqb_eq (a b : Hex.t) : Hex.eqb a b = true <-> a = b.
Proof.
  destruct a as [qa ra], b as [qb rb]. unfold Hex.eqb; simpl.
  rewrite andb_true_iff, !Z.eqb_eq. split.
  - intros [-> ->]. reflexivity.
  - intros E. injection E as -> ->. auto.
Qed.

Lemma hex_eqb_refl (a : Hex.t) : Hex.eqb a a = true.
Proof. now apply hex_eqb_eq. Qed.

Lemma hex_eqb_neq (a b : Hex.t) : Hex.eqb a b = false <-> a <> b.
Proof.
  rewrite <- hex_eqb_eq. destruct (Hex.eqb a b); split; congruence.
Qed.

Lemma hex_mem_In (h : Hex.t) (l : list Hex.t) : Hex.mem h l = true <-> In h l.
Proof.
  unfold Hex.mem. rewrite existsb_exists. split.
  - intros (x & Hx & E). apply hex_eqb_eq in E. now subst.
  - intros Hin. exists h. split; [assumption | apply hex_eqb_refl].
Qed.

Lemma hex_mem_not_In (h : Hex.t) (l : list Hex.t) : Hex.mem h l = false <-> ~ In h l.
Proof.
  rewrite <- hex_mem_In. destruct (Hex.mem h l); split; congruence.
Qed.

Lemma neighbors_Ok (h : Hex.t) : Hex.neighbors h = Ok (neighbor_list h).
Proof. reflexivity. Qed.

Lemma in_neighbor_list (h x : Hex.t) :
  In x (neighbor_list h) <-> exists i, 0 <= i < 6 /\ Hex.neighbor h i = Ok x.
Proof.
  split.
  - intros Hin. simpl in Hin.
    destruct Hin as [<-|[<-|[<-|[<-|[<-|[<-|[]]]]]]];
      [exists 0|exists 1|exists 2|exists 3|exists 4|exists 5]; (split; [lia | reflexivity]).
  - intros (i & Hi & E).
    assert (Hc : i = 0 \/ i = 1 \/ i = 2 \/ i = 3 \/ i = 4 \/ i = 5) by lia.
    destruct Hc as [->|[->|[->|[->|[->| ->]]]]]; cbv in E; injection E as <-;
      simpl; destruct h; simpl; auto 10.
Qed.

(** Adjacency is symmetric: [x] is a neighbour of [h] iff [h] is one of [x]. *)
Lemma neighbor_list_sym (h x : Hex.t) :
  In x (neighbor_list h) <-> In h (neighbor_list x).
Proof.
  destruct h as [qh rh], x as [qx rx]. unfold neighbor_list; simpl.
  split; intros Hin;
    repeat (destruct Hin as [Hin|Hin]; [injection Hin as E1 E2|]); try contradiction;
    match goal with
    | |- _ => (do 0 right; left; f_equal; lia)
           || (do 1 right; left; f_equal; lia)
           || (do 2 right; left; f_equal; lia)
           || (do 3 right; left; f_equal; lia)
           || (do 4 right; left; f_equal; lia)
           || (do 5 right; left; f_equal; lia)
    end.
Qed.

Lemma neighbor_list_NoDup (h : Hex.t) : NoDup (neighbor_list h).
Proof.
  destruct h as [qh rh]. unfold neighbor_list; simpl.
  repeat (constructor;
          [ simpl; intros Hin;
            repeat (destruct Hin as [Hin|Hin]; [injection Hin; intros; lia|]);
            contradiction | ]).
  constructor.
Qed.

(** ** Ring traversal *)

Lemma hex_eq (a b : Hex.t) : Hex.q a = Hex.q b -> Hex.r a = Hex.r b -> a = b.
Proof. destruct a, b; simpl; intros -> ->; reflexivity. Qed.

Lemma seq_offset (a n : nat) : seq a n = map (Nat.add a) (seq 0 n).
Proof.
  revert a; induction n as [|n IH]; intros a; simpl; [reflexivity|].
  f_equal; [lia|]. rewrite (IH (S a)), <- (seq_shift n 0), map_map.
  apply map_ext. intros; lia.
Qed.

(** One side of the ring: [len l] appends, each followed by a step. *)
Lemma ring_side_loop (side : Z) (d : Z * Z) :
  tuple_index Hex.DIRS side = Ok d ->
  forall (l : list Z) (h : Hex.t) (out : list Hex.t),
    for_each l
      (fun (_ : Z) '(h, out) => h' <- Hex.neighbor h side ;; Ok (h', out ++ [h]))
      (h, out)
    = Ok (shift h d (length l), out ++ map (shift h d) (seq 0 (length l))).
Proof.
  intros Hd l. induction l as [|x l IH]; intros h out.
  - simpl. rewrite app_nil_r. f_equal. f_equal. apply hex_eq; unfold shift; simpl; lia.
  - cbn [for_each length]. unfold Hex.neighbor at 1. rewrite Hd.
    destruct d as [dq dr]. cbn [bind].
    rewrite IH. f_equal. f_equal.
    + apply hex_eq; unfold shift; cbn [Hex.q Hex.r fst snd]; lia.
    + rewrite <- app_assoc. f_equal. cbn [seq map app]. f_equal.
      * apply hex_eq; unfold shift; cbn [Hex.q Hex.r fst snd]; lia.
      * rewrite <- seq_shift, map_map. apply map_ext. intros k.
        apply hex_eq; unfold shift; cbn [Hex.q Hex.r fst snd]; lia.
Qed.

Lemma ring_at_side (c : Hex.t) (n i k : nat) :
  (k < n)%nat -> ring_at c n (i * n + k) = ring_point c n i k.
Proof.
  intros Hk. unfold ring_at. f_equal.
  - rewrite Nat.div_add_l by lia. rewrite Nat.div_small by lia. lia.
  - rewrite Nat.add_comm, Nat.Div0.mod_add. apply Nat.mod_small; lia.
Qed.

Lemma ring_closed_sides (c : Hex.t) (n : nat) :
  ring_closed c n =
  flat_map (fun i => map (ring_point c n i) (seq 0 n)) (seq 0 6).
Proof.
  unfold ring_closed.
  replace (6 * n)%nat with (n + (n + (n + (n + (n + n)))))%nat by lia.
  rewrite !seq_app, !map_app. cbn [seq flat_map]. rewrite app_nil_r.
  repeat match goal with
  | |- context [seq (0 + ?a) n] => change (0 + a)%nat with a
  end.
  rewrite (seq_offset n), (seq_offset (n + n)), (seq_offset (n + n + n)),
    (seq_offset (n + n + n + n)), (seq_offset (n + n + n + n + n)), !map_map.
  repeat (apply (f_equal2 (@app Hex.t)); [apply map_ext_in; intros k Hk; apply in_seq in Hk|]).
  6: apply map_ext_in; intros k Hk; apply in_seq in Hk.
  - rewrite <- (ring_at_side c n 0 k) by lia. f_equal.
  - rewrite <- (ring_at_side c n 1 k) by lia. f_equal; lia.
  - rewrite <- (ring_at_side c n 2 k) by lia. f_equal; lia.
  - rewrite <- (ring_at_side c n 3 k) by lia. f_equal; lia.
  - rewrite <- (ring_at_side c n 4 k) by lia. f_equal; lia.
  - rewrite <- (ring_at_side c n 5 k) by lia. f_equal; lia.
Qed.

Lemma ring_eq_closed (c : Hex.t) (radius : Z) :
  0 < radius ->
  HexTraversal.ring c radius = Ok (ring_closed c (Z.to_nat radius)).
Proof.
  intros Hpos. unfold HexTraversal.ring.
  destruct (Z.ltb_spec radius 0) as [?|_]; [lia|].
  destruct (Z.eqb_spec radius 0) as [?|_]; [lia|].
  change (Hex.scale_dir c 4 radius)
    with (Ok (Hex.mk (Hex.q c + -1 * radius) (Hex.r c + 1 * radius))).
  change (range 0 6) with [0; 1; 2; 3; 4; 5].
  cbn [bind for_each].
  rewrite (ring_side_loop 0 (1, 0) eq_refl). cbn [bind].
  rewrite (ring_side_loop 1 (1, -1) eq_refl). cbn [bind].
  rewrite (ring_side_loop 2 (0, -1) eq_refl). cbn [bind].
  rewrite (ring_side_loop 3 (-1, 0) eq_refl). cbn [bind].
  rewrite (ring_side_loop 4 (-1, 1) eq_refl). cbn [bind].
  rewrite (ring_side_loop 5 (0, 1) eq_refl). cbn [bind].
  rewrite range_length. replace (Z.to_nat (radius - 0)) with (Z.to_nat radius) by lia.
  set (n := Z.to_nat radius). assert (Hn : radius = Z.of_nat n) by lia.
  clearbody n. subst radius.
  f_equal. rewrite ring_closed_sides. cbn [flat_map seq app].
  rewrite app_nil_r, <- !app_assoc.
  repeat (apply (f_equal2 (@app Hex.t));
          [apply map_ext_in; intros k Hk; apply in_seq in Hk|]).
  6: apply map_ext_in; intros k Hk; apply in_seq in Hk.
  all: apply hex_eq; unfold shift, ring_point; cbn [Hex.q Hex.r fst snd]; lia.
Qed.

Lemma ring_point_distance (c : Hex.t) (n i k : nat) :
  (i < 6)%nat -> (k < n)%nat ->
  Hex.distance c (ring_point c n i k) = Z.of_nat n.
Proof.
  intros Hi Hk.
  do 6 (destruct i as [|i];
        [unfold Hex.distance, ring_point; cbn [Hex.q Hex.r]; lia|]).
  lia.
Qed.

Lemma ring_point_inj (c : Hex.t) (n i k i' k' : nat) :
  (i < 6)%nat -> (k < n)%nat -> (i' < 6)%nat -> (k' < n)%nat ->
  ring_point c n i k = ring_point c n i' k' -> i = i' /\ k = k'.
Proof.
  intros Hi Hk Hi' Hk' E.
  assert (Eq : Hex.q (ring_point c n i k) = Hex.q (ring_point c n i' k'))
    by (rewrite E; reflexivity).
  assert (Er : Hex.r (ring_point c n i k) = Hex.r (ring_point c n i' k'))
    by (rewrite E; reflexivity).
  clear E.
  do 6 (destruct i as [|i];
        [do 6 (destruct i' as [|i'];
               [cbv beta iota zeta delta [ring_point Hex.q Hex.r] in Eq, Er; lia|]);
         lia|]).
  lia.
Qed.

Lemma ring_index_bounds (n j : nat) :
  (j < 6 * n)%nat -> (j / n < 6)%nat /\ (j mod n < n)%nat /\ j = (j / n * n + j mod n)%nat.
Proof.
  intros Hj. assert (Hn : n <> 0%nat) by lia.
  split; [apply Nat.Div0.div_lt_upper_bound; lia|].
  split; [apply Nat.mod_upper_bound; assumption|].
  pose proof (Nat.div_mod_eq j n). lia.
Qed.

Lemma ring_at_inj (c : Hex.t) (n j j' : nat) :
  (j < 6 * n)%nat -> (j' < 6 * n)%nat -> ring_at c n j = ring_at c n j' -> j = j'.
Proof.
  intros Hj Hj' E.
  destruct (ring_index_bounds n j Hj) as (Hi & Hk & Ej).
  destruct (ring_index_bounds n j' Hj') as (Hi' & Hk' & Ej').
  unfold ring_at in E. apply ring_point_inj in E; try assumption.
  destruct E as [Ei Ek]. rewrite Ej, Ej', Ei, Ek. reflexivity.
Qed.

Lemma NoDup_map_on {A B : Type} (f : A -> B) (l : list A) :
  (forall x y, In x l -> In y l -> f x = f y -> x = y) ->
  NoDup l -> NoDup (map f l).
Proof.
  intros Hinj Hnd. induction Hnd as [|x l Hx Hnd IH]; simpl; constructor.
  - intros Hin. apply in_map_iff in Hin as (y & E & Hy).
    apply Hinj in E; [subst; contradiction|right; assumption|left; reflexivity].
  - apply IH. intros a b Ha Hb. apply Hinj; right; assumption.
Qed.

Lemma ring_closed_NoDup (c : Hex.t) (n : nat) : NoDup (ring_closed c n).
Proof.
  unfold ring_closed. apply NoDup_map_on; [|apply seq_NoDup].
  intros j j' Hj Hj'. apply in_seq in Hj, Hj'. apply ring_at_inj; lia.
Qed.

Lemma ring_closed_distance (c : Hex.t) (n : nat) (h : Hex.t) :
  In h (ring_closed c n) -> Hex.distance c h = Z.of_nat n.
Proof.
  unfold ring_closed. intros Hin. apply in_map_iff in Hin as (j & <- & Hj).
  apply in_seq in Hj.
  destruct (ring_index_bounds n j) as (Hi & Hk & _); [lia|].
  apply ring_point_distance; assumption.
Qed.

Lemma ring_closed_nth (c : Hex.t) (n j : nat) :
  (j < 6 * n)%nat -> nth_error (ring_closed c n) j = Some (ring_at c n j).
Proof.
  intros Hj. unfold ring_closed.
  rewrite nth_error_map, nth_error_seq.
  destruct (Nat.ltb_spec j (6 * n)); [reflexivity | lia].
Qed.

Lemma neighbor_dir (h : Hex.t) (i : Z) (d : Z * Z) :
  tuple_index Hex.DIRS i = Ok d ->
  Hex.neighbor h i = Ok (Hex.mk (Hex.q h + fst d) (Hex.r h + snd d)).
Proof. intros E. unfold Hex.neighbor. rewrite E. destruct d; reflexivity. Qed.

Ltac ring_step_case k n :=
  destruct (Nat.ltb_spec (S k) n); f_equal; apply hex_eq;
  unfold ring_point; cbn [Hex.q Hex.r fst snd]; lia.

(** Along side [j / n] the walk takes one step in the direction of that
    index, also across a corner. *)
Lemma ring_at_step (c : Hex.t) (n j : nat) :
  (S j < 6 * n)%nat ->
  Hex.neighbor (ring_at c n j) (Z.of_nat (j / n)) = Ok (ring_at c n (S j)).
Proof.
  intros Hj.
  destruct (ring_index_bounds n j) as (Hi & Hk & Ej); [lia|].
  set (i := (j / n)%nat) in *. set (k := (j mod n)%nat) in *.
  assert (Enext : ring_at c n (S j) =
                  if (S k <? n)%nat then ring_point c n i (S k)
                  else ring_point c n (S i) 0).
  { destruct (Nat.ltb_spec (S k) n) as [Hlt|Hge].
    - rewrite <- ring_at_side by assumption. f_equal. lia.
    - rewrite <- ring_at_side by lia. f_equal. lia. }
  assert (HSi : (S k < n)%nat \/ (S i < 6)%nat) by nia.
  rewrite Enext. unfold ring_at. fold i k. clearbody i k. clear Enext Ej.
  destruct i as [|[|[|[|[|[|i]]]]]]; [| | | | | |lia].
  - rewrite (neighbor_dir _ (Z.of_nat 0) (1, 0) eq_refl). ring_step_case k n.
  - rewrite (neighbor_dir _ (Z.of_nat 1) (1, -1) eq_refl). ring_step_case k n.
  - rewrite (neighbor_dir _ (Z.of_nat 2) (0, -1) eq_refl). ring_step_case k n.
  - rewrite (neighbor_dir _ (Z.of_nat 3) (-1, 0) eq_refl). ring_step_case k n.
  - rewrite (neighbor_dir _ (Z.of_nat 4) (-1, 1) eq_refl). ring_step_case k n.
  - rewrite (neighbor_dir _ (Z.of_nat 5) (0, 1) eq_refl). ring_step_case k n.
Qed.

Example ring_1 :
  HexTraversal.ring (Hex.mk 0 0) 1 =
  Ok [Hex.mk (-1) 1; Hex.mk 0 1; Hex.mk 1 0; Hex.mk 1 (-1); Hex.mk 0 (-1); Hex.mk (-1) 0].
Proof. reflexivity. Qed.

(** C1. For a non-negative radius, [ring c radius] returns a list of
    exactly [max 1 (6 * radius)] coordinates, each at hex distance
    [radius] from [c], pairwise distinct; it is [[c]] at radius 0, and for
    a radius of at least 1 it starts at [c] moved [radius] steps in
    direction 4 and each element follows its predecessor by one step in
    the direction whose index is the predecessor's side: position [j]
    lies on side [j / radius], so the walk is six straight sides of
    [radius] steps in directions 0, 1, ..., 5. *)
Theorem ring_shape (c : Hex.t) (radius : Z) :
  0 <= radius ->
  exists l,
    HexTraversal.ring c radius = Ok l /\
    length l = Z.to_nat (Z.max 1 (6 * radius)) /\
    (forall h, In h l -> Hex.distance c h = radius) /\
    NoDup l /\
    (radius = 0 -> l = [c]) /\
    (1 <= radius ->
     (exists s, Hex.scale_dir c 4 radius = Ok s /\ nth_error l 0 = Some s) /\
     (forall j, (S j < 6 * Z.to_nat radius)%nat ->
        exists p p',
          nth_error l j = Some p /\ nth_error l (S j) = Some p' /\
          Hex.neighbor p (Z.of_nat (j / Z.to_nat radius)) = Ok p')).
Proof.
  intros Hr. destruct (Z.eq_dec radius 0) as [->|Hnz].
  - exists [c]. repeat split; try reflexivity; try lia.
    + intros h [<-|[]]. unfold Hex.distance. lia.
    + repeat constructor. intros [].
  - exists (ring_closed c (Z.to_nat radius)).
    split; [apply ring_eq_closed; lia|].
    split; [unfold ring_closed; rewrite length_map, length_seq; lia|].
    split; [intros h Hin; apply ring_closed_distance in Hin; lia|].
    split; [apply ring_closed_NoDup|].
    split; [lia|]. intros _. split.
    + exists (Hex.mk (Hex.q c + -1 * radius) (Hex.r c + 1 * radius)).
      split; [reflexivity|].
      rewrite ring_closed_nth by lia. f_equal.
      unfold ring_at. rewrite Nat.Div0.mod_0_l, Nat.Div0.div_0_l.
      apply hex_eq; unfold ring_point; cbn [Hex.q Hex.r]; lia.
    + intros j Hj. exists (ring_at c (Z.to_nat radius) j), (ring_at c (Z.to_nat radius) (S j)).
      split; [apply ring_closed_nth; lia|].
      split; [apply ring_closed_nth; lia|].
      apply ring_at_step; assumption.
Qed.

Lemma ring_shape_witness :
  0 <= 2 /\
  exists l,
    HexTraversal.ring (Hex.mk 3 (-1)) 2 = Ok l /\
    length l = Z.to_nat (Z.max 1 (6 * 2)) /\
    (forall h, In h l -> Hex.distance (Hex.mk 3 (-1)) h = 2) /\
    NoDup l /\
    (2 = 0 -> l = [Hex.mk 3 (-1)]) /\
    (1 <= 2 ->
     (exists s, Hex.scale_dir (Hex.mk 3 (-1)) 4 2 = Ok s /\ nth_error l 0 = Some s) /\
     (forall j, (S j < 6 * Z.to_nat 2)%nat ->
        exists p p',
          nth_error l j = Some p /\ nth_error l (S j) = Some p' /\
          Hex.neighbor p (Z.of_nat (j / Z.to_nat 2)) = Ok p')).
Proof. split; [lia | apply (ring_shape (Hex.mk 3 (-1)) 2); lia]. Defined.

(** ** Coordinate algebra *)

Lemma distance_bounds (a b : Hex.t) :
  Z.abs (Hex.q a - Hex.q b) <= Hex.distance a b /\
  Z.abs (Hex.r a - Hex.r b) <= Hex.distance a b /\
  Z.abs ((Hex.q a + Hex.r a) - (Hex.q b + Hex.r b)) <= Hex.distance a b.
Proof. unfold Hex.distance. lia. Qed.

(** C8. The hex distance is symmetric, is zero exactly for equal
    coordinates, and satisfies the triangle inequality. *)
Theorem distance_metric (a b c : Hex.t) :
  Hex.distance a b = Hex.distance b a /\
  (Hex.distance a b = 0 <-> a = b) /\
  Hex.distance a c <= Hex.distance a b + Hex.distance b c.
Proof.
  split; [|split; [split|]].
  - unfold Hex.distance. lia.
  - intros Hz. apply hex_eq; unfold Hex.distance in Hz; lia.
  - intros ->. unfold Hex.distance. lia.
  - pose proof (distance_bounds a b) as (Hq1 & Hr1 & Hs1).
    pose proof (distance_bounds b c) as (Hq2 & Hr2 & Hs2).
    generalize dependent (Hex.distance a b). generalize dependent (Hex.distance b c).
    intros d2 Hq2 Hr2 Hs2 d1 Hq1 Hr1 Hs1.
    unfold Hex.distance. repeat apply Z.max_lub; lia.
Qed.

(** C7 (as amended). [neighbor] returns [h] offset by the unit vector at
    [direction_index] for an index in 0..5; for an index in -6..-1 it
    does not fail but counts from the end of the table, giving the
    vector at [direction_index + 6]; it fails with [IndexError] exactly
    for indices below -6 or above 5. *)
Theorem neighbor_index_domain (h : Hex.t) (direction_index : Z) :
  Hex.neighbor h direction_index =
  if (0 <=? direction_index) && (direction_index <=? 5) then
    let d := unit_vector (Z.to_nat direction_index) in
    Ok (Hex.mk (Hex.q h + fst d) (Hex.r h + snd d))
  else if (-6 <=? direction_index) && (direction_index <=? -1) then
    let d := unit_vector (Z.to_nat (direction_index + 6)) in
    Ok (Hex.mk (Hex.q h + fst d) (Hex.r h + snd d))
  else Err IndexError.
Proof.
  destruct (Z_lt_le_dec direction_index (-6)) as [Hlo|Hlo].
  - replace ((0 <=? direction_index) && (direction_index <=? 5)) with false by lia.
    replace ((-6 <=? direction_index) && (direction_index <=? -1)) with false by lia.
    unfold Hex.neighbor, tuple_index. cbn [length Hex.DIRS].
    destruct (Z.ltb_spec direction_index 0); [|lia].
    destruct (Z.ltb_spec (direction_index + Z.of_nat 6) 0); [reflexivity|lia].
  - destruct (Z_lt_le_dec 5 direction_index) as [Hhi|Hhi].
    + replace ((0 <=? direction_index) && (direction_index <=? 5)) with false by lia.
      replace ((-6 <=? direction_index) && (direction_index <=? -1)) with false by lia.
      unfold Hex.neighbor, tuple_index. cbn [length Hex.DIRS].
      destruct (Z.ltb_spec direction_index 0); [lia|].
      destruct (Z.ltb_spec direction_index 0); [lia|].
      destruct (Z.leb_spec (Z.of_nat 6) direction_index); [reflexivity|lia].
    + assert (Hc : direction_index = -6 \/ direction_index = -5 \/ direction_index = -4
                   \/ direction_index = -3 \/ direction_index = -2 \/ direction_index = -1
                   \/ direction_index = 0 \/ direction_index = 1 \/ direction_index = 2
                   \/ direction_index = 3 \/ direction_index = 4 \/ direction_index = 5)
        by lia.
      repeat (destruct Hc as [->|Hc]; [reflexivity|]). subst. reflexivity.
Qed.

Lemma neighbor_negative_index_succeeds :
  Hex.neighbor (Hex.mk 0 0) (-1) = Ok (Hex.mk 0 1) /\
  ~ (exists e, Hex.neighbor (Hex.mk 0 0) (-1) = Err e).
Proof.
  split; [reflexivity|]. intros (e & E). discriminate E.
Qed.

(** C6, at the input where the code departs from it: [spiral] with a
    negative radius raises nothing and returns the empty list, where
    [ring] on the same arguments raises [ValueError]. *)
Theorem spiral_negative_radius_not_rejected :
  HexTraversal.spiral (Hex.mk 0 0) (-1) = Ok [] /\
  HexTraversal.ring (Hex.mk 0 0) (-1) = Err ValueError.
Proof. split; reflexivity. Qed.

(** ** The grid container *)

Lemma grid_contains_In (g : HexGrid.t) (h : Hex.t) :
  HexGrid.contains g h = true <-> In h (HexGrid.keys g).
Proof. apply hex_mem_In. Qed.

Lemma grid_keys_set_new (g : HexGrid.t) (h : Hex.t) (v : Biome) :
  ~ In h (HexGrid.keys g) -> HexGrid.keys (HexGrid.set g h v) = HexGrid.keys g ++ [h].
Proof.
  induction g as [|[k w] g IH]; intros Hnin; [reflexivity|].
  cbn [HexGrid.set]. destruct (Hex.eqb k h) eqn:E.
  - apply hex_eqb_eq in E. subst. exfalso. apply Hnin. left. reflexivity.
  - change (k :: HexGrid.keys (HexGrid.set g h v) = k :: HexGrid.keys g ++ [h]).
    f_equal. apply IH. intros Hin. apply Hnin. right. exact Hin.
Qed.

Lemma grid_keys_set_old (g : HexGrid.t) (h : Hex.t) (v : Biome) :
  In h (HexGrid.keys g) -> HexGrid.keys (HexGrid.set g h v) = HexGrid.keys g.
Proof.
  induction g as [|[k w] g IH]; intros Hin; [destruct Hin|].
  cbn [HexGrid.set]. destruct (Hex.eqb k h) eqn:E; [reflexivity|].
  change (k :: HexGrid.keys (HexGrid.set g h v) = k :: HexGrid.keys g).
  f_equal. apply IH. destruct Hin as [Hk|Hin]; [|exact Hin].
  apply hex_eqb_neq in E. simpl in Hk. contradiction.
Qed.

Lemma grid_keys_set_In (g : HexGrid.t) (h x : Hex.t) (v : Biome) :
  In x (HexGrid.keys (HexGrid.set g h v)) <-> In x (HexGrid.keys g) \/ x = h.
Proof.
  destruct (in_dec Hex.eq_dec h (HexGrid.keys g)) as [Hin|Hnin].
  - rewrite grid_keys_set_old by assumption. intuition (subst; assumption).
  - rewrite grid_keys_set_new by assumption. rewrite in_app_iff. simpl. intuition.
Qed.

Lemma grid_get_set_same (g : HexGrid.t) (h : Hex.t) (v : Biome) :
  HexGrid.get (HexGrid.set g h v) h = Some v.
Proof.
  induction g as [|[k w] g IH]; cbn [HexGrid.set HexGrid.get].
  - now rewrite hex_eqb_refl.
  - destruct (Hex.eqb k h) eqn:E; cbn [HexGrid.get]; rewrite E; [reflexivity|exact IH].
Qed.

Lemma grid_get_set_other (g : HexGrid.t) (h h' : Hex.t) (v : Biome) :
  h <> h' -> HexGrid.get (HexGrid.set g h v) h' = HexGrid.get g h'.
Proof.
  intros Hne. induction g as [|[k w] g IH]; cbn [HexGrid.set HexGrid.get].
  - apply hex_eqb_neq in Hne. now rewrite Hne.
  - destruct (Hex.eqb k h) eqn:E; cbn [HexGrid.get].
    + apply hex_eqb_eq in E. subst k. apply hex_eqb_neq in Hne. now rewrite Hne.
    + destruct (Hex.eqb k h'); [reflexivity|exact IH].
Qed.

Lemma grid_get_None (g : HexGrid.t) (h : Hex.t) :
  HexGrid.get g h = None <-> ~ In h (HexGrid.keys g).
Proof.
  induction g as [|[k w] g IH]; cbn [HexGrid.get HexGrid.keys map fst].
  - intuition.
  - destruct (Hex.eqb k h) eqn:E.
    + apply hex_eqb_eq in E. subst. split; [discriminate|]. intros Hn. exfalso. apply Hn. now left.
    + apply hex_eqb_neq in E. rewrite IH. simpl. intuition.
Qed.

Lemma grid_get_In (g : HexGrid.t) (h : Hex.t) (v : Biome) :
  NoDup (HexGrid.keys g) -> (HexGrid.get g h = Some v <-> In (h, v) g).
Proof.
  induction g as [|[k w] g IH]; intros Hnd; cbn [HexGrid.get].
  - split; [discriminate|intros []].
  - inversion Hnd as [|? ? Hk Hnd']; subst. destruct (Hex.eqb k h) eqn:E.
    + apply hex_eqb_eq in E. subst k. split.
      * intros [= ->]. now left.
      * intros [[= ->]|Hin]; [reflexivity|].
        exfalso. apply Hk. change h with (fst (h, v)). now apply in_map.
    + apply hex_eqb_neq in E. rewrite (IH Hnd'). split; [now right|].
      intros [[= -> ->]|Hin]; [contradiction|assumption].
Qed.

Lemma grid_set_NoDup (g : HexGrid.t) (h : Hex.t) (v : Biome) :
  NoDup (HexGrid.keys g) -> NoDup (HexGrid.keys (HexGrid.set g h v)).
Proof.
  intros Hnd. destruct (in_dec Hex.eq_dec h (HexGrid.keys g)) as [Hin|Hnin].
  - now rewrite grid_keys_set_old.
  - rewrite grid_keys_set_new by assumption. apply NoDup_app; [assumption| |].
    + repeat constructor. intros [].
    + intros a Ha [<-|[]]. contradiction.
Qed.

(** ** Spiral *)

Lemma ring_zero (c : Hex.t) : HexTraversal.ring c 0 = Ok [c].
Proof. reflexivity. Qed.

Lemma spiral_eq_list (c : Hex.t) (n : nat) :
  HexTraversal.spiral c (Z.of_nat n) = Ok (spiral_list c n).
Proof.
  unfold HexTraversal.spiral. induction n as [|n IH].
  - reflexivity.
  - replace (Z.of_nat (S n) + 1) with ((Z.of_nat n + 1) + 1) by lia.
    rewrite range_snoc by lia. rewrite for_each_app, IH. cbn [bind for_each].
    rewrite ring_eq_closed by lia. cbn [bind].
    replace (Z.to_nat (Z.of_nat n + 1)) with (S n) by lia. reflexivity.
Qed.

Lemma spiral_list_distance (c : Hex.t) (n : nat) (h : Hex.t) :
  In h (spiral_list c n) -> 0 <= Hex.distance c h <= Z.of_nat n.
Proof.
  induction n as [|n IH]; cbn [spiral_list].
  - intros [<-|[]]. unfold Hex.distance. lia.
  - rewrite in_app_iff. intros [Hin|Hin].
    + apply IH in Hin. lia.
    + apply ring_closed_distance in Hin. lia.
Qed.

Lemma spiral_list_NoDup (c : Hex.t) (n : nat) : NoDup (spiral_list c n).
Proof.
  induction n as [|n IH]; cbn [spiral_list].
  - repeat constructor. intros [].
  - apply NoDup_app; [exact IH|apply ring_closed_NoDup|].
    intros a Ha Hb. apply spiral_list_distance in Ha.
    apply ring_closed_distance in Hb. lia.
Qed.

Lemma spiral_list_length (c : Hex.t) (n : nat) :
  Z.of_nat (length (spiral_list c n)) = 1 + 3 * Z.of_nat n * (Z.of_nat n + 1).
Proof.
  induction n as [|n IH]; cbn [spiral_list]; [reflexivity|].
  rewrite length_app, Nat2Z.inj_add, IH.
  unfold ring_closed. rewrite length_map, length_seq. lia.
Qed.

Lemma spiral_list_center (c : Hex.t) (n : nat) : In c (spiral_list c n).
Proof.
  induction n as [|n IH]; cbn [spiral_list]; [now left|].
  apply in_or_app. now left.
Qed.

(** ** The snowflake generator *)

Section GenerateProperties.
Context {R : Type} {RS : RandomSource R}.
Import SnowflakeHexflowerGenerator.

Lemma choose_inward_neighbor_total (target center : Hex.t) (grid : HexGrid.t) :
  exists o, _choose_inward_neighbor target center grid = Ok o.
Proof.
  unfold _choose_inward_neighbor. rewrite neighbors_Ok. cbn [bind].
  destruct (filter _ _); eauto.
Qed.

(** Each visit of the inner loop writes exactly the visited hex. *)
Lemma fill_hex_sets (center h : Hex.t) (grid : HexGrid.t) (rng : R) :
  exists b rng', fill_hex center h (grid, rng) = Ok (HexGrid.set grid h b, rng').
Proof.
  unfold fill_hex.
  destruct (choose_inward_neighbor_total h center grid) as (o & ->). cbn [bind].
  destruct o as [p|].
  - destruct (BiomeTables.next_biome _ rng) as [b rng']. eauto.
  - destruct (BiomeTables.start_biome rng) as [b rng']. eauto.
Qed.

Lemma fill_ring_keys (center : Hex.t) (hs : list Hex.t) :
  forall (grid : HexGrid.t) (rng : R),
    NoDup (HexGrid.keys grid ++ hs) ->
    exists grid' rng',
      for_each hs (fill_hex center) (grid, rng) = Ok (grid', rng') /\
      HexGrid.keys grid' = HexGrid.keys grid ++ hs.
Proof.
  induction hs as [|h hs IH]; intros grid rng Hnd.
  - exists grid, rng. rewrite app_nil_r. split; reflexivity.
  - cbn [for_each].
    destruct (fill_hex_sets center h grid rng) as (b & rng1 & ->). cbn [bind].
    assert (Hnew : ~ In h (HexGrid.keys grid)).
    { apply NoDup_remove_2 in Hnd. intros Hin. apply Hnd. apply in_or_app. now left. }
    destruct (IH (HexGrid.set grid h b) rng1) as (grid' & rng' & Hloop & Hkeys).
    { rewrite grid_keys_set_new by assumption. rewrite <- app_assoc. exact Hnd. }
    exists grid', rng'. split; [exact Hloop|].
    rewrite Hkeys, grid_keys_set_new by assumption. now rewrite <- app_assoc.
Qed.

Lemma fill_rings_keys (center : Hex.t) (grid0 : HexGrid.t) (rng0 : R) (n : nat) :
  HexGrid.keys grid0 = [center] ->
  exists grid rng,
    for_each (range 1 (Z.of_nat n + 1))
      (fun r st => hs <- HexTraversal.ring center r ;; for_each hs (fill_hex center) st)
      (grid0, rng0) = Ok (grid, rng) /\
    HexGrid.keys grid = spiral_list center n.
Proof.
  intros Hk0. induction n as [|n IH].
  - exists grid0, rng0. split; [reflexivity|exact Hk0].
  - destruct IH as (grid1 & rng1 & Hloop & Hkeys).
    replace (Z.of_nat (S n) + 1) with ((Z.of_nat n + 1) + 1) by lia.
    rewrite range_snoc by lia. rewrite for_each_app, Hloop. cbn [bind for_each].
    rewrite ring_eq_closed by lia. cbn [bind].
    replace (Z.to_nat (Z.of_nat n + 1)) with (S n) by lia.
    destruct (fill_ring_keys center (ring_closed center (S n)) grid1 rng1)
      as (grid2 & rng2 & Hfill & Hkeys2).
    { rewrite Hkeys. apply (spiral_list_NoDup center (S n)). }
    exists grid2, rng2. rewrite Hfill. split; [reflexivity|].
    rewrite Hkeys2, Hkeys. reflexivity.
Qed.

(** The keys of a generated cluster are the spiral around its centre,
    in spiral order, whatever the random source draws. *)
Lemma generate_keys (center : Hex.t) (radius : Z) (rng : R) :
  0 <= radius ->
  exists grid rng',
    generate center radius rng = Ok (grid, rng') /\
    HexGrid.keys grid = spiral_list center (Z.to_nat radius).
Proof.
  intros Hr. unfold generate.
  destruct (Z.ltb_spec radius 0) as [?|_]; [lia|].
  destruct (BiomeTables.start_biome rng) as [b rng0].
  pose proof (fill_rings_keys center (HexGrid.set HexGrid.empty center b) rng0
                (Z.to_nat radius) eq_refl) as Hfill.
  rewrite Z2Nat.id in Hfill by assumption. exact Hfill.
Qed.

Lemma generate_negative (center : Hex.t) (radius : Z) (rng : R) :
  radius < 0 -> generate center radius rng = Err ValueError.
Proof.
  intros Hr. unfold generate. destruct (Z.ltb_spec radius 0); [reflexivity|lia].
Qed.

(** C2. For a non-negative radius and any state of the random source,
    [generate center radius] returns a grid that has [center] as a key
    and exactly [1 + 3 * radius * (radius + 1)] cells. *)
Theorem generate_center_and_size (center : Hex.t) (radius : Z) (rng : R) :
  0 <= radius ->
  exists grid rng',
    generate center radius rng = Ok (grid, rng') /\
    HexGrid.contains grid center = true /\
    Z.of_nat (HexGrid.len grid) = 1 + 3 * radius * (radius + 1).
Proof.
  intros Hr. destruct (generate_keys center radius rng Hr) as (grid & rng' & Hgen & Hkeys).
  exists grid, rng'. split; [exact Hgen|]. split.
  - apply grid_contains_In. rewrite Hkeys. apply spiral_list_center.
  - unfold HexGrid.len.
    replace (length grid) with (length (HexGrid.keys grid))
      by (unfold HexGrid.keys; apply length_map).
    rewrite Hkeys, spiral_list_length. lia.
Qed.

End GenerateProperties.

Lemma generate_center_and_size_witness :
  0 <= 2 /\
  exists grid rng',
    SnowflakeHexflowerGenerator.generate (Hex.mk 1 (-2)) 2 5%nat = Ok (grid, rng') /\
    HexGrid.contains grid (Hex.mk 1 (-2)) = true /\
    Z.of_nat (HexGrid.len grid) = 1 + 3 * 2 * (2 + 1).
Proof.
  split; [lia | apply (generate_center_and_size (Hex.mk 1 (-2)) 2 5%nat); lia].
Defined.

(** ** Update and translation *)

Lemma grid_set_new_cell (g : HexGrid.t) (h : Hex.t) (v : Biome) :
  ~ In h (HexGrid.keys g) -> HexGrid.set g h v = g ++ [(h, v)].
Proof.
  induction g as [|[k w] g IH]; intros Hnin; [reflexivity|].
  cbn [HexGrid.set]. destruct (Hex.eqb k h) eqn:E.
  - apply hex_eqb_eq in E. subst. exfalso. apply Hnin. now left.
  - cbn [app]. f_equal. apply IH. intros Hin. apply Hnin. now right.
Qed.

Lemma grid_keys_app (g1 g2 : HexGrid.t) :
  HexGrid.keys (g1 ++ g2) = HexGrid.keys g1 ++ HexGrid.keys g2.
Proof. apply map_app. Qed.

(** Writing cells with fresh, pairwise distinct keys appends them in order. *)
Lemma grid_fold_set_fresh (f : Hex.t -> Hex.t) (l acc : HexGrid.t) :
  NoDup (HexGrid.keys acc ++ map f (HexGrid.keys l)) ->
  fold_left (fun out hv => HexGrid.set out (f (fst hv)) (snd hv)) l acc
  = acc ++ map (fun hv => (f (fst hv), snd hv)) l.
Proof.
  revert acc. induction l as [|[k v] l IH]; intros acc Hnd; cbn [fold_left map].
  - now rewrite app_nil_r.
  - cbn [HexGrid.keys map fst] in Hnd. cbn [fst snd].
    assert (Hnew : ~ In (f k) (HexGrid.keys acc)).
    { apply NoDup_remove_2 in Hnd. intros Hin. apply Hnd. apply in_or_app. now left. }
    rewrite grid_set_new_cell by assumption. rewrite IH.
    + now rewrite <- app_assoc.
    + rewrite grid_keys_app, <- app_assoc. exact Hnd.
Qed.

Lemma grid_update_disjoint (g1 g2 : HexGrid.t) :
  NoDup (HexGrid.keys g1 ++ HexGrid.keys g2) -> HexGrid.update g1 g2 = g1 ++ g2.
Proof.
  intros Hnd. unfold HexGrid.update.
  rewrite (grid_fold_set_fresh (fun h => h)).
  - f_equal. rewrite <- (map_id g2) at 2. apply map_ext. now intros [k v].
  - now rewrite map_id.
Qed.

Lemma grid_update_empty (g : HexGrid.t) :
  NoDup (HexGrid.keys g) -> HexGrid.update HexGrid.empty g = g.
Proof. intros Hnd. now rewrite grid_update_disjoint. Qed.

Lemma hex_add_inj (dq dr : Z) (a b : Hex.t) :
  Hex.add a dq dr = Hex.add b dq dr -> a = b.
Proof.
  unfold Hex.add. intros E. injection E as Eq Er. apply hex_eq; lia.
Qed.

Lemma grid_translate_map (g : HexGrid.t) (dq dr : Z) :
  NoDup (HexGrid.keys g) ->
  HexGrid.translate g dq dr = map (fun hv => (Hex.add (fst hv) dq dr, snd hv)) g.
Proof.
  intros Hnd. unfold HexGrid.translate, HexGrid.items.
  rewrite (grid_fold_set_fresh (fun h => Hex.add h dq dr)); [reflexivity|].
  cbn [HexGrid.empty HexGrid.keys map app].
  apply NoDup_map_on; [|exact Hnd]. intros x y _ _. apply hex_add_inj.
Qed.

Lemma grid_translate_keys (g : HexGrid.t) (dq dr : Z) :
  NoDup (HexGrid.keys g) ->
  HexGrid.keys (HexGrid.translate g dq dr) = map (fun h => Hex.add h dq dr) (HexGrid.keys g).
Proof.
  intros Hnd. rewrite grid_translate_map by assumption.
  unfold HexGrid.keys. rewrite !map_map. reflexivity.
Qed.

Lemma grid_translate_NoDup (g : HexGrid.t) (dq dr : Z) :
  NoDup (HexGrid.keys g) -> NoDup (HexGrid.keys (HexGrid.translate g dq dr)).
Proof.
  intros Hnd. rewrite grid_translate_keys by assumption.
  apply NoDup_map_on; [|exact Hnd]. intros x y _ _. apply hex_add_inj.
Qed.

Lemma grid_translate_back (g : HexGrid.t) (dq dr : Z) :
  NoDup (HexGrid.keys g) ->
  HexGrid.translate (HexGrid.translate g dq dr) (- dq) (- dr) = g.
Proof.
  intros Hnd.
  rewrite (grid_translate_map (HexGrid.translate g dq dr))
    by (apply grid_translate_NoDup; assumption).
  rewrite grid_translate_map by assumption. rewrite map_map.
  rewrite <- (map_id g) at 2. apply map_ext. intros [[hq hr] v].
  unfold Hex.add; cbn [fst snd Hex.q Hex.r]. do 2 f_equal; lia.
Qed.

(** The store: a write through one reference leaves every other object. *)
Lemma store_set_read_same (st : Store.t) (g : Store.ref) (h : Hex.t) (v : Biome) :
  Store.read (Store.set st g h v) g
  = option_map (fun cells => HexGrid.set cells h v) (Store.read st g).
Proof.
  revert g. induction st as [|c st IH]; intros [|g]; cbn; try reflexivity. apply IH.
Qed.

Lemma store_set_read_other (st : Store.t) (g g' : Store.ref) (h : Hex.t) (v : Biome) :
  g <> g' -> Store.read (Store.set st g h v) g' = Store.read st g'.
Proof.
  revert g g'. induction st as [|c st IH]; intros [|g] [|g'] Hne; cbn;
    try reflexivity; try congruence.
  apply IH. congruence.
Qed.

Lemma store_fold_set (out : Store.ref) (f : Hex.t -> Hex.t) (l : HexGrid.t) :
  forall (st : Store.t) (cells : HexGrid.t),
    Store.read st out = Some cells ->
    let st' := fold_left (fun st hv => Store.set st out (f (fst hv)) (snd hv)) l st in
    Store.read st' out
    = Some (fold_left (fun o hv => HexGrid.set o (f (fst hv)) (snd hv)) l cells) /\
    (forall g, g <> out -> Store.read st' g = Store.read st g).
Proof.
  induction l as [|[k v] l IH]; intros st cells Hread; cbn [fold_left].
  - split; [exact Hread|reflexivity].
  - destruct (IH (Store.set st out (f k) v) (HexGrid.set cells (f k) v)) as [Hout Hrest].
    { cbn [fst snd]. rewrite store_set_read_same, Hread. reflexivity. }
    split; [exact Hout|].
    intros g Hg. cbn zeta in Hrest. rewrite Hrest by assumption.
    cbn [fst snd]. apply store_set_read_other. congruence.
Qed.

(** C10. For a grid [g] held at reference [self], [translate] allocates
    a new grid and leaves [g] itself as it was; the new grid has as many
    cells as [g], holds exactly the cell [((q + dq, r + dr), v)] for each
    cell [((q, r), v)] of [g], and translating it back by [(-dq, -dr)]
    gives the cells of [g] again. *)
Theorem translate_round_trip (st : Store.t) (self : Store.ref) (g : HexGrid.t)
    (dq dr : Z) :
  Store.read st self = Some g ->
  NoDup (HexGrid.keys g) ->
  exists out st',
    Store.translate st self dq dr = Some (out, st') /\
    out <> self /\
    Store.read st' self = Some g /\
    Store.read st' out = Some (HexGrid.translate g dq dr) /\
    HexGrid.len (HexGrid.translate g dq dr) = HexGrid.len g /\
    HexGrid.items (HexGrid.translate g dq dr)
    = map (fun hv => (Hex.mk (Hex.q (fst hv) + dq) (Hex.r (fst hv) + dr), snd hv))
          (HexGrid.items g) /\
    HexGrid.translate (HexGrid.translate g dq dr) (- dq) (- dr) = g.
Proof.
  intros Hread Hnd. unfold Store.translate. rewrite Hread. cbn [Store.new_grid].
  assert (Hlt : (self < length st)%nat).
  { apply nth_error_Some. unfold Store.read in Hread. congruence. }
  destruct (store_fold_set (length st) (fun h => Hex.add h dq dr) (HexGrid.items g)
              (st ++ [HexGrid.empty]) HexGrid.empty) as [Hout Hrest].
  { unfold Store.read. rewrite nth_error_app2 by lia. now rewrite Nat.sub_diag. }
  cbn zeta in Hout, Hrest.
  eexists _, _. split; [reflexivity|].
  split; [lia|].
  split.
  { rewrite Hrest by lia. unfold Store.read. rewrite nth_error_app1 by assumption.
    exact Hread. }
  split; [exact Hout|].
  split; [|split].
  - rewrite grid_translate_map by assumption. unfold HexGrid.len. apply length_map.
  - rewrite grid_translate_map by assumption. reflexivity.
  - apply grid_translate_back. assumption.
Qed.

Lemma translate_round_trip_witness :
  Store.read [two_cells] 0%nat = Some two_cells /\
  NoDup (HexGrid.keys two_cells) /\
  exists out st',
    Store.translate [two_cells] 0%nat 3 (-2) = Some (out, st') /\
    out <> 0%nat /\
    Store.read st' 0%nat = Some two_cells /\
    Store.read st' out = Some (HexGrid.translate two_cells 3 (-2)) /\
    HexGrid.len (HexGrid.translate two_cells 3 (-2)) = HexGrid.len two_cells /\
    HexGrid.items (HexGrid.translate two_cells 3 (-2))
    = map (fun hv => (Hex.mk (Hex.q (fst hv) + 3) (Hex.r (fst hv) + -2), snd hv))
          (HexGrid.items two_cells) /\
    HexGrid.translate (HexGrid.translate two_cells 3 (-2)) (- (3)) (- (-2)) = two_cells.
Proof.
  assert (Hnd : NoDup (HexGrid.keys two_cells)).
  { repeat constructor; simpl; intuition discriminate. }
  split; [reflexivity|]. split; [exact Hnd|].
  apply (translate_round_trip [two_cells] 0%nat two_cells 3 (-2)); [reflexivity | exact Hnd].
Defined.

(** ** The connected builder *)

Lemma is_disjoint_spec (s m : HexGrid.t) :
  HexGrid.is_disjoint s m = true <-> Disjoint s m.
Proof.
  unfold HexGrid.is_disjoint, Disjoint. rewrite forallb_forall. split.
  - intros Hall h Hin. apply Hall in Hin. apply negb_true_iff in Hin.
    now apply hex_mem_not_In.
  - intros Hall h Hin. apply negb_true_iff. apply hex_mem_not_In. now apply Hall.
Qed.

Lemma touches_loop_spec (hs other_keys : list Hex.t) :
  exists b,
    HexGrid.touches_loop hs other_keys = Ok b /\
    (b = true <->
     exists h nb, In h hs /\ In nb (neighbor_list h) /\ In nb other_keys).
Proof.
  induction hs as [|h hs IH]; cbn [HexGrid.touches_loop].
  - exists false. split; [reflexivity|]. split; [discriminate|].
    intros (h & nb & [] & _).
  - rewrite neighbors_Ok. cbn [bind].
    destruct (existsb (fun nb => Hex.mem nb other_keys) (neighbor_list h)) eqn:E.
    + exists true. split; [reflexivity|]. split; [|reflexivity]. intros _.
      apply existsb_exists in E as (nb & Hnb & Hmem). apply hex_mem_In in Hmem.
      exists h, nb. split; [now left|]. split; assumption.
    + destruct IH as (b & Hloop & Hb). exists b. split; [exact Hloop|].
      rewrite Hb. split.
      * intros (h' & nb & Hh' & Hnb & Hin). exists h', nb. split; [now right|]. split; assumption.
      * intros (h' & nb & [<-|Hh'] & Hnb & Hin).
        -- exfalso. assert (Ht : existsb (fun nb => Hex.mem nb other_keys) (neighbor_list h) = true).
           { apply existsb_exists. exists nb. split; [assumption|]. now apply hex_mem_In. }
           congruence.
        -- exists h', nb. split; [assumption|]. split; assumption.
Qed.

Lemma touches_true_Adjacent (s m : HexGrid.t) :
  HexGrid.touches s m = Ok true -> Adjacent s m.
Proof.
  unfold HexGrid.touches. intros Ht.
  destruct (touches_loop_spec (HexGrid.keys s) (HexGrid.keys m)) as (b & Hloop & Hb).
  rewrite Hloop in Ht. injection Ht as ->.
  destruct Hb as [Hb _]. destruct (Hb eq_refl) as (h & nb & Hh & Hnb & Hin).
  apply neighbor_list_sym in Hnb. apply in_neighbor_list in Hnb as (i & Hi & E).
  exists nb, i, h. repeat split; try assumption; lia.
Qed.

Lemma Adjacent_touches_true (s m : HexGrid.t) :
  Adjacent s m -> HexGrid.touches s m = Ok true.
Proof.
  intros (h & i & nb & Hh & Hi & E & Hnb). unfold HexGrid.touches.
  destruct (touches_loop_spec (HexGrid.keys s) (HexGrid.keys m)) as (b & Hloop & Hb).
  rewrite Hloop. f_equal. apply Hb. exists nb, h. split; [assumption|]. split; [|assumption].
  apply neighbor_list_sym. apply in_neighbor_list. exists i. split; assumption.
Qed.

Section BuildChainProperties.
Context {R : Type} {RS : RandomSource R} {SO : SetOrder}.
Import SnowflakeHexflowerGenerator ConnectedHexflowerBuilder.

(** The retry loop either gives up with the super-grid as it was, or
    merges a translate of [new] that passed both checks. *)
Lemma place_loop_result (tries : nat) (super_map new : HexGrid.t)
    (new_keys frontier : list Hex.t) :
  forall (rng : R) (placed : bool) (super_map' : HexGrid.t) (rng' : R),
    place_loop tries super_map new new_keys frontier rng
    = Ok (placed, super_map', rng') ->
    if placed then
      exists dq dr,
        let moved := HexGrid.translate new dq dr in
        HexGrid.is_disjoint super_map moved = true /\
        HexGrid.touches super_map moved = Ok true /\
        super_map' = HexGrid.update super_map moved
    else super_map' = super_map.
Proof.
  induction tries as [|tries IH]; intros rng placed super_map' rng' Hrun.
  - cbn in Hrun. injection Hrun as <- <- <-. reflexivity.
  - cbn [place_loop] in Hrun.
    destruct (choice frontier rng) as [[target rng1]|e]; [|discriminate Hrun].
    cbn [bind] in Hrun.
    destruct (choice new_keys rng1) as [[anchor rng2]|e]; [|discriminate Hrun].
    cbn [bind] in Hrun.
    set (dq := Hex.q target - Hex.q anchor) in *.
    set (dr := Hex.r target - Hex.r anchor) in *.
    destruct (HexGrid.is_disjoint super_map (HexGrid.translate new dq dr)) eqn:Hdis;
      cbn [negb] in Hrun; [|eapply IH; eassumption].
    destruct (HexGrid.touches super_map (HexGrid.translate new dq dr))
      as [touching|e] eqn:Htouch; [|discriminate Hrun].
    cbn [bind] in Hrun. destruct touching; cbn [negb] in Hrun;
      [|eapply IH; eassumption].
    injection Hrun as <- <- <-. exists dq, dr. cbn zeta. auto.
Qed.

(** One pass of the placement loop, when it returns. *)
Lemma place_cluster_result (radius max_tries : Z) (super_map : HexGrid.t) (rng : R)
    (super_map' : HexGrid.t) (rng' : R) :
  place_cluster radius max_tries (super_map, rng) = Ok (super_map', rng') ->
  exists new rng1 dq dr,
    generate (Hex.mk 0 0) radius rng = Ok (new, rng1) /\
    let moved := HexGrid.translate new dq dr in
    Disjoint super_map moved /\ Adjacent super_map moved /\
    super_map' = HexGrid.update super_map moved.
Proof.
  unfold place_cluster. intros Hrun.
  destruct (generate (Hex.mk 0 0) radius rng) as [[new rng1]|e]; [|discriminate Hrun].
  cbn [bind] in Hrun.
  destruct (frontier_targets _) as [frontier|e]; [|discriminate Hrun].
  cbn [bind] in Hrun. destruct frontier as [|f frontier]; [discriminate Hrun|].
  destruct (place_loop _ _ _ _ _ _) as [[[placed sm] rng2]|e] eqn:Hloop;
    [|discriminate Hrun].
  cbn [bind] in Hrun. destruct placed; cbn [negb] in Hrun; [|discriminate Hrun].
  injection Hrun as <- <-.
  apply place_loop_result in Hloop. destruct Hloop as (dq & dr & Hdis & Htouch & ->).
  exists new, rng1, dq, dr. split; [reflexivity|]. cbn zeta.
  split; [now apply is_disjoint_spec|]. split; [now apply touches_true_Adjacent|].
  reflexivity.
Qed.

Lemma place_clusters_chain (radius max_tries : Z) (l : list Z) :
  forall (super_map : HexGrid.t) (rng : R) (g : HexGrid.t) (rng' : R),
    for_each l (fun _ st => place_cluster radius max_tries st) (super_map, rng)
    = Ok (g, rng') ->
    exists clusters,
      length clusters = length l /\
      Forall (translated_cluster radius) clusters /\
      chain_placed super_map clusters g.
Proof.
  induction l as [|x l IH]; intros super_map rng g rng' Hrun.
  - cbn in Hrun. injection Hrun as <- <-. exists [].
    split; [reflexivity|]. split; constructor.
  - cbn [for_each] in Hrun.
    destruct (place_cluster radius max_tries (super_map, rng)) as [[sm rng1]|e] eqn:Hstep;
      [|discriminate Hrun].
    cbn [bind] in Hrun.
    apply place_cluster_result in Hstep
      as (new & rng0 & dq & dr & Hgen & Hdis & Hadj & ->).
    destruct (IH _ _ _ _ Hrun) as (clusters & Hlen & Hfrom & Hchain).
    exists (HexGrid.translate new dq dr :: clusters).
    split; [cbn; now rewrite Hlen|]. split; [|now constructor].
    constructor; [|exact Hfrom].
    exists rng, new, rng0, dq, dr. split; [exact Hgen|reflexivity].
Qed.

(** C3. In every run of [build_chain] with [count >= 2] that returns,
    the result is reached from the seed cluster by merging [count - 1]
    clusters one after another, each a generated cluster moved by some
    offset, each of them disjoint from the super-grid built so far and
    with a coordinate that has a neighbour in it, at the moment it is
    merged; whatever the random source. *)
Theorem build_chain_placement_invariant (count radius max_tries : Z) (rng : R)
    (g : HexGrid.t) (rng' : R) :
  2 <= count ->
  build_chain count radius max_tries rng = Ok (g, rng') ->
  exists seed rng1 clusters,
    generate (Hex.mk 0 0) radius rng = Ok (seed, rng1) /\
    length clusters = Z.to_nat (count - 1) /\
    Forall (translated_cluster radius) clusters /\
    chain_placed seed clusters g.
Proof.
  intros Hcount Hrun. unfold build_chain in Hrun.
  destruct (Z.ltb_spec count 1) as [?|_]; [lia|].
  destruct (Z_lt_le_dec radius 0) as [Hneg|Hr].
  { rewrite generate_negative in Hrun by assumption. discriminate Hrun. }
  destruct (generate_keys (Hex.mk 0 0) radius rng Hr) as (seed & rng1 & Hgen & Hkeys).
  rewrite Hgen in Hrun. cbn [bind] in Hrun.
  rewrite grid_update_empty in Hrun
    by (rewrite Hkeys; apply spiral_list_NoDup).
  apply place_clusters_chain in Hrun as (clusters & Hlen & Hfrom & Hchain).
  exists seed, rng1, clusters. split; [exact Hgen|].
  split; [|split; [exact Hfrom|exact Hchain]].
  rewrite Hlen, range_length. f_equal. lia.
Qed.

(** C9. With [count = 1], [build_chain] returns what [generate] at the
    origin returns from the same state of the random source: the same
    cells and the same state afterwards, so no further draw is made and
    no placement is tried; at radius 1 that grid has 7 cells. *)
Theorem build_chain_single_is_generate (radius max_tries : Z) (rng : R) :
  0 <= radius ->
  exists grid rng',
    generate (Hex.mk 0 0) radius rng = Ok (grid, rng') /\
    build_chain 1 radius max_tries rng = Ok (grid, rng') /\
    (radius = 1 -> HexGrid.len grid = 7%nat).
Proof.
  intros Hr.
  destruct (generate_keys (Hex.mk 0 0) radius rng Hr) as (grid & rng' & Hgen & Hkeys).
  exists grid, rng'. split; [exact Hgen|]. split.
  - unfold build_chain. cbn [Z.ltb Z.compare Pos.compare]. rewrite Hgen. cbn [bind].
    rewrite grid_update_empty by (rewrite Hkeys; apply spiral_list_NoDup).
    reflexivity.
  - intros ->. unfold HexGrid.len.
    replace (length grid) with (length (HexGrid.keys grid))
      by (unfold HexGrid.keys; apply length_map).
    rewrite Hkeys. reflexivity.
Qed.

End BuildChainProperties.

Lemma build_chain_placement_invariant_witness :
  2 <= 2 /\
  exists g rng',
    ConnectedHexflowerBuilder.build_chain 2 1 5 0%nat = Ok (g, rng') /\
    exists seed rng1 clusters,
      SnowflakeHexflowerGenerator.generate (Hex.mk 0 0) 1 0%nat = Ok (seed, rng1) /\
      length clusters = Z.to_nat (2 - 1) /\
      Forall (translated_cluster (R := nat) 1) clusters /\
      chain_placed seed clusters g.
Proof.
  split; [lia|]. eexists. eexists. split; [vm_compute; reflexivity|].
  apply (build_chain_placement_invariant 2 1 5 0%nat _ 18%nat); [lia | vm_compute; reflexivity].
Defined.

Lemma build_chain_single_is_generate_witness :
  0 <= 1 /\
  exists grid rng',
    SnowflakeHexflowerGenerator.generate (Hex.mk 0 0) 1 3%nat = Ok (grid, rng') /\
    ConnectedHexflowerBuilder.build_chain 1 1 5000 3%nat = Ok (grid, rng') /\
    (1 = 1 -> HexGrid.len grid = 7%nat).
Proof.
  split; [lia | apply (build_chain_single_is_generate 1 5000 3%nat); lia].
Defined.

(** ** The frontier *)

Lemma frontier_targets_flat_map (super_set : list Hex.t) :
  ConnectedHexflowerBuilder.frontier_targets super_set
  = Ok (flat_map
          (fun h => filter (fun nb => negb (Hex.mem nb super_set)) (neighbor_list h))
          super_set).
Proof.
  unfold ConnectedHexflowerBuilder.frontier_targets.
  assert (Hgen : forall l acc,
    for_each l
      (fun h frontier =>
         nbs <- Hex.neighbors h ;;
         Ok (frontier ++ filter (fun nb => negb (Hex.mem nb super_set)) nbs)) acc
    = Ok (acc ++ flat_map
            (fun h => filter (fun nb => negb (Hex.mem nb super_set)) (neighbor_list h)) l)).
  { induction l as [|h l IH]; intros acc; cbn [for_each flat_map].
    - now rewrite app_nil_r.
    - rewrite neighbors_Ok. cbn [bind]. rewrite IH. now rewrite <- app_assoc. }
  apply (Hgen super_set []).
Qed.

Lemma count_occ_filter_NoDup (p : Hex.t -> bool) (l : list Hex.t) (x : Hex.t) :
  NoDup l ->
  count_occ Hex.eq_dec (filter p l) x
  = if p x && Hex.mem x l then 1%nat else 0%nat.
Proof.
  intros Hnd. destruct (p x && Hex.mem x l) eqn:E.
  - apply andb_true_iff in E as [Hp Hm]. apply hex_mem_In in Hm.
    apply NoDup_count_occ'; [now apply NoDup_filter|].
    apply filter_In. split; assumption.
  - apply count_occ_not_In. rewrite filter_In. intros [Hin Hp].
    apply hex_mem_In in Hin. rewrite Hp, Hin in E. discriminate E.
Qed.

Lemma count_occ_frontier (super_set l : list Hex.t) (x : Hex.t) :
  count_occ Hex.eq_dec
    (flat_map (fun h => filter (fun nb => negb (Hex.mem nb super_set)) (neighbor_list h)) l)
    x
  = if Hex.mem x super_set then 0%nat else length (adjacent_cells l x).
Proof.
  induction l as [|h l IH]; cbn [flat_map].
  - cbn. now destruct (Hex.mem x super_set).
  - rewrite count_occ_app, IH.
    rewrite count_occ_filter_NoDup by apply neighbor_list_NoDup.
    unfold adjacent_cells. cbn [filter].
    destruct (Hex.mem x super_set); cbn [negb andb]; [reflexivity|].
    destruct (Hex.mem x (neighbor_list h)); reflexivity.
Qed.

Lemma adjacent_cells_length_perm (l l' : list Hex.t) (x : Hex.t) :
  Permutation l l' -> length (adjacent_cells l x) = length (adjacent_cells l' x).
Proof.
  intros Hp. unfold adjacent_cells. induction Hp; cbn [filter].
  - reflexivity.
  - destruct (Hex.mem x (neighbor_list x0)); cbn [length]; [f_equal|]; exact IHHp.
  - destruct (Hex.mem x (neighbor_list x0)), (Hex.mem x (neighbor_list y)); reflexivity.
  - congruence.
Qed.

Lemma radius1_cluster_NoDup : NoDup (HexGrid.keys radius1_cluster).
Proof.
  change (HexGrid.keys radius1_cluster) with (spiral_list (Hex.mk 0 0) 1).
  apply spiral_list_NoDup.
Qed.

(** The frontier of a radius-1 cluster, as [build_chain] computes it
    before the first placement, lists the coordinate (2, -1) twice. *)
Lemma frontier_repeats_coordinate :
  SnowflakeHexflowerGenerator.generate (Hex.mk 0 0) 1 0%nat = Ok (radius1_cluster, 7%nat) /\
  exists frontier,
    ConnectedHexflowerBuilder.frontier_targets (set_iter (HexGrid.keys radius1_cluster))
    = Ok frontier /\
    count_occ Hex.eq_dec frontier (Hex.mk 2 (-1)) = 2%nat /\
    ~ NoDup frontier.
Proof.
  split; [vm_compute; reflexivity|].
  eexists. split; [vm_compute; reflexivity|].
  split; [vm_compute; reflexivity|].
  intros Hnd. apply (NoDup_count_occ Hex.eq_dec) with (x := Hex.mk 2 (-1)) in Hnd.
  vm_compute in Hnd. lia.
Qed.

(** ** The concentric builder *)

Lemma merge_first_wins_get (snowflake : HexGrid.t) :
  forall (out : HexGrid.t) (h : Hex.t),
    HexGrid.get (ConcentricHexflowerOfHexflowersBuilder.merge_first_wins out snowflake) h
    = match HexGrid.get out h with
      | Some v => Some v
      | None => HexGrid.get snowflake h
      end.
Proof.
  unfold ConcentricHexflowerOfHexflowersBuilder.merge_first_wins, HexGrid.items.
  induction snowflake as [|[k v] s IH]; intros out h; cbn [fold_left fst snd].
  - cbn [HexGrid.get]. now destruct (HexGrid.get out h).
  - rewrite IH. cbn [HexGrid.get].
    destruct (HexGrid.get out k) as [w|] eqn:Ek.
    + destruct (Hex.eqb k h) eqn:E; [|reflexivity].
      apply hex_eqb_eq in E. subst k. now rewrite Ek.
    + destruct (Hex.eqb k h) eqn:E.
      * apply hex_eqb_eq in E. subst k. now rewrite grid_get_set_same, Ek.
      * apply hex_eqb_neq in E. now rewrite grid_get_set_other by assumption.
Qed.

(** A cell present in the output is kept by every later merge. *)
Lemma merge_first_wins_keeps (out snowflake : HexGrid.t) (h : Hex.t) (v : Biome) :
  HexGrid.get out h = Some v ->
  HexGrid.get (ConcentricHexflowerOfHexflowersBuilder.merge_first_wins out snowflake) h
  = Some v.
Proof. intros E. now rewrite merge_first_wins_get, E. Qed.

Section BuildProperties.
Context {R : Type} {RS : RandomSource R}.
Import SnowflakeHexflowerGenerator ConcentricHexflowerOfHexflowersBuilder.

Lemma build_loop_first_wins (snowflake_radius : Z) (positions : list Hex.t) :
  0 <= snowflake_radius ->
  forall (out : HexGrid.t) (rng : R),
  exists clusters out' rng',
    generate_all (map (cluster_center snowflake_radius) positions) snowflake_radius rng
    = Ok (clusters, rng') /\
    for_each positions
      (fun mh '(out, rng) =>
         let center := Hex.mk (Hex.q mh * (2 * snowflake_radius))
                              (Hex.r mh * (2 * snowflake_radius)) in
         '(snowflake, rng) <- generate center snowflake_radius rng ;;
         Ok (merge_first_wins out snowflake, rng))
      (out, rng) = Ok (out', rng') /\
    Forall2 (fun mh g =>
               HexGrid.keys g
               = spiral_list (cluster_center snowflake_radius mh)
                             (Z.to_nat snowflake_radius))
            positions clusters /\
    (forall h, HexGrid.get out' h
               = match HexGrid.get out h with
                 | Some v => Some v
                 | None => first_value clusters h
                 end).
Proof.
  intros Hr. induction positions as [|mh positions IH]; intros out rng.
  - exists [], out, rng. cbn. repeat split; [constructor|].
    intros h. now destruct (HexGrid.get out h).
  - cbn [map generate_all for_each].
    destruct (generate_keys (cluster_center snowflake_radius mh) snowflake_radius rng Hr)
      as (g & rng1 & Hgen & Hkeys).
    rewrite Hgen. cbn [bind].
    unfold cluster_center in Hgen at 1. cbn zeta. rewrite Hgen. cbn [bind].
    destruct (IH (merge_first_wins out g) rng1)
      as (clusters & out' & rng' & Hall & Hloop & Hcenters & Hget).
    rewrite Hall. cbn [bind].
    exists (g :: clusters), out', rng'.
    split; [reflexivity|]. split; [exact Hloop|]. split; [now constructor|].
    intros h. rewrite Hget, merge_first_wins_get. cbn [first_value].
    destruct (HexGrid.get out h); [reflexivity|].
    destruct (HexGrid.get g h); reflexivity.
Qed.

Lemma build_negative (meta_radius snowflake_radius : Z) (rng : R) :
  meta_radius < 0 \/ snowflake_radius < 0 ->
  build meta_radius snowflake_radius rng = Err ValueError.
Proof.
  intros Hneg. unfold build.
  destruct (Z.ltb_spec meta_radius 0); [reflexivity|].
  destruct (Z.ltb_spec snowflake_radius 0); [reflexivity|lia].
Qed.

End BuildProperties.

(** ** Argument checks *)

Lemma ring_negative (c : Hex.t) (radius : Z) :
  radius < 0 -> HexTraversal.ring c radius = Err ValueError.
Proof.
  intros Hr. unfold HexTraversal.ring. destruct (Z.ltb_spec radius 0); [reflexivity|lia].
Qed.

(** [spiral] has no check of its own: below zero the range of rings is
    empty and so is the result. *)
Lemma spiral_negative (c : Hex.t) (radius : Z) :
  radius < 0 -> HexTraversal.spiral c radius = Ok [].
Proof.
  intros Hr. unfold HexTraversal.spiral. rewrite range_empty by lia. reflexivity.
Qed.

Lemma build_chain_count_rejected {R : Type} {RS : RandomSource R} {SO : SetOrder}
    (count radius max_tries : Z) (rng : R) :
  count < 1 ->
  ConnectedHexflowerBuilder.build_chain count radius max_tries rng = Err ValueError.
Proof.
  intros Hc. unfold ConnectedHexflowerBuilder.build_chain.
  destruct (Z.ltb_spec count 1); [reflexivity|lia].
Qed.

(** * Further properties of the code *)

(** ** hex.py: neighbours, directions, translation *)

Lemma neighbor_list_distance (h x : Hex.t) :
  In x (neighbor_list h) <-> Hex.distance h x = 1.
Proof.
  destruct h as [qh rh], x as [qx rx]. split.
  - unfold neighbor_list; cbn [Hex.q Hex.r]. intros Hin.
    repeat (destruct Hin as [Hin|Hin];
            [injection Hin; intros; unfold Hex.distance; cbn [Hex.q Hex.r]; lia|]).
    destruct Hin.
  - unfold Hex.distance; cbn [Hex.q Hex.r]. intros Hd.
    assert (Hc : (qx = qh + 1 /\ rx = rh + 0) \/ (qx = qh + 1 /\ rx = rh + -1)
                 \/ (qx = qh + 0 /\ rx = rh + -1) \/ (qx = qh + -1 /\ rx = rh + 0)
                 \/ (qx = qh + -1 /\ rx = rh + 1) \/ (qx = qh + 0 /\ rx = rh + 1)) by lia.
    unfold neighbor_list; cbn [Hex.q Hex.r].
    destruct Hc as [[-> ->]|[[-> ->]|[[-> ->]|[[-> ->]|[[-> ->]|[-> ->]]]]]];
      simpl; auto 10.
Qed.

(** [neighbors()] never fails and returns six pairwise distinct
    coordinates: exactly the coordinates at hex distance 1. *)
Theorem neighbors_are_unit_ring (h : Hex.t) :
  exists nbs,
    Hex.neighbors h = Ok nbs /\
    length nbs = 6%nat /\
    NoDup nbs /\
    forall x, In x nbs <-> Hex.distance h x = 1.
Proof.
  exists (neighbor_list h). split; [apply neighbors_Ok|].
  split; [reflexivity|]. split; [apply neighbor_list_NoDup|].
  intros x. apply neighbor_list_distance.
Qed.

(** Direction [i + 3] (mod 6) undoes direction [i]. *)
Theorem neighbor_opposite_direction (h x : Hex.t) (i : Z) :
  0 <= i < 6 ->
  Hex.neighbor h i = Ok x ->
  Hex.neighbor x ((i + 3) mod 6) = Ok h.
Proof.
  intros Hi E.
  assert (Hc : i = 0 \/ i = 1 \/ i = 2 \/ i = 3 \/ i = 4 \/ i = 5) by lia.
  destruct h as [qh rh].
  destruct Hc as [->|[->|[->|[->|[->| ->]]]]].
  - rewrite (neighbor_dir _ 0 (1, 0) eq_refl) in E. injection E as <-.
    rewrite (neighbor_dir _ ((0 + 3) mod 6) (-1, 0) eq_refl).
    f_equal; apply hex_eq; cbn [Hex.q Hex.r fst snd]; lia.
  - rewrite (neighbor_dir _ 1 (1, -1) eq_refl) in E. injection E as <-.
    rewrite (neighbor_dir _ ((1 + 3) mod 6) (-1, 1) eq_refl).
    f_equal; apply hex_eq; cbn [Hex.q Hex.r fst snd]; lia.
  - rewrite (neighbor_dir _ 2 (0, -1) eq_refl) in E. injection E as <-.
    rewrite (neighbor_dir _ ((2 + 3) mod 6) (0, 1) eq_refl).
    f_equal; apply hex_eq; cbn [Hex.q Hex.r fst snd]; lia.
  - rewrite (neighbor_dir _ 3 (-1, 0) eq_refl) in E. injection E as <-.
    rewrite (neighbor_dir _ ((3 + 3) mod 6) (1, 0) eq_refl).
    f_equal; apply hex_eq; cbn [Hex.q Hex.r fst snd]; lia.
  - rewrite (neighbor_dir _ 4 (-1, 1) eq_refl) in E. injection E as <-.
    rewrite (neighbor_dir _ ((4 + 3) mod 6) (1, -1) eq_refl).
    f_equal; apply hex_eq; cbn [Hex.q Hex.r fst snd]; lia.
  - rewrite (neighbor_dir _ 5 (0, 1) eq_refl) in E. injection E as <-.
    rewrite (neighbor_dir _ ((5 + 3) mod 6) (0, -1) eq_refl).
    f_equal; apply hex_eq; cbn [Hex.q Hex.r fst snd]; lia.
Qed.

Lemma neighbor_opposite_direction_witness :
  0 <= 1 < 6 /\
  Hex.neighbor (Hex.mk 2 5) 1 = Ok (Hex.mk 3 4) /\
  Hex.neighbor (Hex.mk 3 4) ((1 + 3) mod 6) = Ok (Hex.mk 2 5).
Proof.
  split; [lia|]. split; [reflexivity|].
  apply (neighbor_opposite_direction (Hex.mk 2 5) (Hex.mk 3 4) 1); [lia|reflexivity].
Defined.

Lemma tuple_index_DIRS (i : Z) :
  -6 <= i < 6 ->
  exists d, tuple_index Hex.DIRS i = Ok d /\
            Z.max (Z.max (Z.abs (fst d)) (Z.abs (snd d))) (Z.abs (fst d + snd d)) = 1.
Proof.
  intros Hi.
  assert (Hc : i = -6 \/ i = -5 \/ i = -4 \/ i = -3 \/ i = -2 \/ i = -1
               \/ i = 0 \/ i = 1 \/ i = 2 \/ i = 3 \/ i = 4 \/ i = 5) by lia.
  repeat (destruct Hc as [->|Hc]; [eexists; split; [reflexivity|reflexivity]|]).
  subst. eexists; split; reflexivity.
Qed.

(** For every index the table accepts, [scale_dir] with [k] lands at
    distance [|k|]; zero steps stay in place, one step is [neighbor], and
    steps along one direction add up. *)
Theorem scale_dir_steps (h : Hex.t) (i k k' : Z) :
  -6 <= i < 6 ->
  exists p,
    Hex.scale_dir h i k = Ok p /\
    Hex.distance h p = Z.abs k /\
    Hex.scale_dir p i k' = Hex.scale_dir h i (k + k') /\
    Hex.scale_dir h i 0 = Ok h /\
    Hex.scale_dir h i 1 = Hex.neighbor h i.
Proof.
  intros Hi. destruct (tuple_index_DIRS i Hi) as ([dq dr] & Hd & Hunit).
  cbn [fst snd] in Hunit.
  unfold Hex.scale_dir, Hex.neighbor. rewrite Hd. cbn [bind].
  eexists. split; [reflexivity|]. destruct h as [qh rh]. cbn [Hex.q Hex.r].
  split; [unfold Hex.distance; cbn [Hex.q Hex.r]; nia|].
  split; [f_equal; apply hex_eq; cbn [Hex.q Hex.r]; lia|].
  split; f_equal; apply hex_eq; cbn [Hex.q Hex.r]; lia.
Qed.

Lemma scale_dir_steps_witness :
  -6 <= -2 < 6 /\
  exists p,
    Hex.scale_dir (Hex.mk 1 1) (-2) 3 = Ok p /\
    Hex.distance (Hex.mk 1 1) p = Z.abs 3 /\
    Hex.scale_dir p (-2) (-5) = Hex.scale_dir (Hex.mk 1 1) (-2) (3 + -5) /\
    Hex.scale_dir (Hex.mk 1 1) (-2) 0 = Ok (Hex.mk 1 1) /\
    Hex.scale_dir (Hex.mk 1 1) (-2) 1 = Hex.neighbor (Hex.mk 1 1) (-2).
Proof.
  split; [lia|]. apply (scale_dir_steps (Hex.mk 1 1) (-2) 3 (-5)). lia.
Defined.

(** [add] is a translation: it keeps every distance, moves a coordinate
    by the hex norm of the offset, and is undone by the opposite offset. *)
Theorem add_is_translation (a b : Hex.t) (dq dr : Z) :
  Hex.distance (Hex.add a dq dr) (Hex.add b dq dr) = Hex.distance a b /\
  Hex.distance a (Hex.add a dq dr)
  = Z.max (Z.max (Z.abs dq) (Z.abs dr)) (Z.abs (dq + dr)) /\
  Hex.add (Hex.add a dq dr) (- dq) (- dr) = a.
Proof.
  destruct a as [qa ra], b as [qb rb]. unfold Hex.distance, Hex.add; cbn [Hex.q Hex.r].
  split; [|split].
  - f_equal; [f_equal|]; f_equal; lia.
  - replace (qa - (qa + dq)) with (- dq) by lia.
    replace (ra - (ra + dr)) with (- dr) by lia.
    replace (qa + ra - (qa + dq + (ra + dr))) with (- (dq + dr)) by lia.
    now rewrite !Z.abs_opp.
  - f_equal; lia.
Qed.

(** ** traversal.py: rings and spirals as sets *)

Lemma ring_point_In (c : Hex.t) (n i k : nat) :
  (i < 6)%nat -> (k < n)%nat -> In (ring_point c n i k) (ring_closed c n).
Proof.
  intros Hi Hk. unfold ring_closed. apply in_map_iff.
  exists (i * n + k)%nat. split; [apply ring_at_side; assumption|].
  apply in_seq. nia.
Qed.

(** Every coordinate at distance [n] lies on one of the six sides. *)
Lemma ring_closed_complete (c x : Hex.t) (n : nat) :
  (0 < n)%nat -> Hex.distance c x = Z.of_nat n -> In x (ring_closed c n).
Proof.
  intros Hn Hd. destruct c as [qc rc], x as [qx rx].
  unfold Hex.distance in Hd; cbn [Hex.q Hex.r] in Hd.
  set (N := Z.of_nat n) in *.
  assert (Hb : - N <= qx - qc <= N /\ - N <= rx - rc <= N
               /\ - N <= qx - qc + (rx - rc) <= N) by lia.
  assert (Ha : qx - qc = N \/ qx - qc = - N \/ rx - rc = N \/ rx - rc = - N
               \/ qx - qc + (rx - rc) = N \/ qx - qc + (rx - rc) = - N) by lia.
  clear Hd.
  assert (Hc :
    (rx - rc = N /\ - N <= qx - qc < 0) \/
    (qx - qc + (rx - rc) = N /\ 0 <= qx - qc < N) \/
    (qx - qc = N /\ - N < rx - rc <= 0) \/
    (rx - rc = - N /\ 0 < qx - qc <= N) \/
    (qx - qc + (rx - rc) = - N /\ - N < qx - qc <= 0) \/
    (qx - qc = - N /\ 0 <= rx - rc < N)) by lia.
  destruct Hc as [[H1 H2]|[[H1 H2]|[[H1 H2]|[[H1 H2]|[[H1 H2]|[H1 H2]]]]]].
  - replace (Hex.mk qx rx) with (ring_point (Hex.mk qc rc) n 0 (Z.to_nat (qx - qc + N)))
      by (apply hex_eq; unfold ring_point; cbn [Hex.q Hex.r]; lia).
    apply ring_point_In; lia.
  - replace (Hex.mk qx rx) with (ring_point (Hex.mk qc rc) n 1 (Z.to_nat (qx - qc)))
      by (apply hex_eq; unfold ring_point; cbn [Hex.q Hex.r]; lia).
    apply ring_point_In; lia.
  - replace (Hex.mk qx rx) with (ring_point (Hex.mk qc rc) n 2 (Z.to_nat (rc - rx)))
      by (apply hex_eq; unfold ring_point; cbn [Hex.q Hex.r]; lia).
    apply ring_point_In; lia.
  - replace (Hex.mk qx rx) with (ring_point (Hex.mk qc rc) n 3 (Z.to_nat (N - (qx - qc))))
      by (apply hex_eq; unfold ring_point; cbn [Hex.q Hex.r]; lia).
    apply ring_point_In; lia.
  - replace (Hex.mk qx rx) with (ring_point (Hex.mk qc rc) n 4 (Z.to_nat (qc - qx)))
      by (apply hex_eq; unfold ring_point; cbn [Hex.q Hex.r]; lia).
    apply ring_point_In; lia.
  - replace (Hex.mk qx rx) with (ring_point (Hex.mk qc rc) n 5 (Z.to_nat (rx - rc)))
      by (apply hex_eq; unfold ring_point; cbn [Hex.q Hex.r]; lia).
    apply ring_point_In; lia.
Qed.

Lemma distance_zero_eq (a b : Hex.t) : Hex.distance a b = 0 -> a = b.
Proof. intros Hz. apply hex_eq; unfold Hex.distance in Hz; lia. Qed.

Lemma distance_self (a : Hex.t) : Hex.distance a a = 0.
Proof. unfold Hex.distance. lia. Qed.

Lemma distance_nonneg (a b : Hex.t) : 0 <= Hex.distance a b.
Proof. unfold Hex.distance. lia. Qed.

Lemma ring_closed_In_iff (c x : Hex.t) (n : nat) :
  (0 < n)%nat -> (In x (ring_closed c n) <-> Hex.distance c x = Z.of_nat n).
Proof.
  intros Hn. split; [apply ring_closed_distance|apply ring_closed_complete; assumption].
Qed.

Lemma spiral_list_In_iff (c x : Hex.t) (n : nat) :
  In x (spiral_list c n) <-> Hex.distance c x <= Z.of_nat n.
Proof.
  split; [intros Hin; apply spiral_list_distance in Hin; lia|].
  induction n as [|n IH]; intros Hd; cbn [spiral_list].
  - left. apply distance_zero_eq. pose proof (distance_nonneg c x). lia.
  - apply in_or_app. destruct (Z.eq_dec (Hex.distance c x) (Z.of_nat (S n))) as [E|E].
    + right. apply ring_closed_complete; [lia|exact E].
    + left. apply IH. lia.
Qed.

(** For a non-negative radius, [ring] lists exactly the coordinates at
    distance [radius] from the centre: none is missing. *)
Theorem ring_is_distance_ring (c x : Hex.t) (radius : Z) :
  0 <= radius ->
  exists l,
    HexTraversal.ring c radius = Ok l /\
    (In x l <-> Hex.distance c x = radius).
Proof.
  intros Hr. destruct (Z.eq_dec radius 0) as [->|Hnz].
  - exists [c]. split; [reflexivity|]. split.
    + intros [<-|[]]. apply distance_self.
    + intros Hd. left. now apply distance_zero_eq.
  - exists (ring_closed c (Z.to_nat radius)). split; [apply ring_eq_closed; lia|].
    rewrite ring_closed_In_iff by lia. rewrite Z2Nat.id by assumption. reflexivity.
Qed.

Lemma ring_is_distance_ring_witness :
  0 <= 3 /\
  exists l,
    HexTraversal.ring (Hex.mk 1 1) 3 = Ok l /\
    (In (Hex.mk 4 (-2)) l <-> Hex.distance (Hex.mk 1 1) (Hex.mk 4 (-2)) = 3).
Proof.
  split; [lia | apply (ring_is_distance_ring (Hex.mk 1 1) (Hex.mk 4 (-2)) 3); lia].
Defined.

(** For a non-negative radius, [spiral] starts with the centre, has
    [1 + 3 * radius * (radius + 1)] coordinates, none twice, and they are
    exactly the coordinates within distance [radius] of the centre. *)
Theorem spiral_is_disk (c : Hex.t) (radius : Z) :
  0 <= radius ->
  exists l,
    HexTraversal.spiral c radius = Ok l /\
    nth_error l 0 = Some c /\
    Z.of_nat (length l) = 1 + 3 * radius * (radius + 1) /\
    NoDup l /\
    (forall x, In x l <-> Hex.distance c x <= radius).
Proof.
  intros Hr. exists (spiral_list c (Z.to_nat radius)).
  pose proof (spiral_eq_list c (Z.to_nat radius)) as Hs.
  rewrite Z2Nat.id in Hs by assumption.
  split; [exact Hs|]. split.
  { clear Hs. induction (Z.to_nat radius) as [|n IH]; [reflexivity|].
    cbn [spiral_list]. rewrite nth_error_app1; [exact IH|].
    apply nth_error_Some. rewrite IH. discriminate. }
  split; [rewrite spiral_list_length; lia|].
  split; [apply spiral_list_NoDup|].
  intros x. rewrite spiral_list_In_iff. rewrite Z2Nat.id by assumption. reflexivity.
Qed.

Lemma spiral_is_disk_witness :
  0 <= 2 /\
  exists l,
    HexTraversal.spiral (Hex.mk (-1) 4) 2 = Ok l /\
    nth_error l 0 = Some (Hex.mk (-1) 4) /\
    Z.of_nat (length l) = 1 + 3 * 2 * (2 + 1) /\
    NoDup l /\
    (forall x, In x l <-> Hex.distance (Hex.mk (-1) 4) x <= 2).
Proof.
  split; [lia | apply (spiral_is_disk (Hex.mk (-1) 4) 2); lia].
Defined.

(** One more ring extends a spiral at its end: the spiral of radius
    [radius + 1] is the spiral of radius [radius] followed by the ring of
    radius [radius + 1]. *)
Theorem spiral_extends_by_ring (c : Hex.t) (radius : Z) :
  0 <= radius ->
  exists inner outer,
    HexTraversal.spiral c radius = Ok inner /\
    HexTraversal.ring c (radius + 1) = Ok outer /\
    HexTraversal.spiral c (radius + 1) = Ok (inner ++ outer).
Proof.
  intros Hr.
  exists (spiral_list c (Z.to_nat radius)), (ring_closed c (S (Z.to_nat radius))).
  pose proof (spiral_eq_list c (Z.to_nat radius)) as Hs.
  pose proof (spiral_eq_list c (S (Z.to_nat radius))) as Hs'.
  rewrite Z2Nat.id in Hs by assumption.
  replace (Z.of_nat (S (Z.to_nat radius))) with (radius + 1) in Hs' by lia.
  split; [exact Hs|]. split; [|exact Hs'].
  rewrite ring_eq_closed by lia. do 2 f_equal. lia.
Qed.

Lemma spiral_extends_by_ring_witness :
  0 <= 1 /\
  exists inner outer,
    HexTraversal.spiral (Hex.mk 0 0) 1 = Ok inner /\
    HexTraversal.ring (Hex.mk 0 0) (1 + 1) = Ok outer /\
    HexTraversal.spiral (Hex.mk 0 0) (1 + 1) = Ok (inner ++ outer).
Proof.
  split; [lia | apply (spiral_extends_by_ring (Hex.mk 0 0) 1); lia].
Defined.

Lemma ring_closed_add (c : Hex.t) (dq dr : Z) (n : nat) :
  ring_closed (Hex.add c dq dr) n = map (fun h => Hex.add h dq dr) (ring_closed c n).
Proof.
  unfold ring_closed. rewrite map_map. apply map_ext. intros j.
  unfold ring_at, ring_point.
  destruct (j / n)%nat as [|[|[|[|[|i]]]]];
    apply hex_eq; unfold Hex.add; cbn [Hex.q Hex.r]; lia.
Qed.

Lemma spiral_list_add (c : Hex.t) (dq dr : Z) (n : nat) :
  spiral_list (Hex.add c dq dr) n = map (fun h => Hex.add h dq dr) (spiral_list c n).
Proof.
  induction n as [|n IH]; cbn [spiral_list]; [reflexivity|].
  now rewrite map_app, IH, ring_closed_add.
Qed.

Lemma ring_add (c : Hex.t) (dq dr radius : Z) :
  HexTraversal.ring (Hex.add c dq dr) radius
  = match HexTraversal.ring c radius with
    | Ok l => Ok (map (fun h => Hex.add h dq dr) l)
    | Err e => Err e
    end.
Proof.
  destruct (Z_lt_le_dec radius 0) as [Hneg|Hr].
  - now rewrite !ring_negative by assumption.
  - destruct (Z.eq_dec radius 0) as [->|Hnz]; [reflexivity|].
    rewrite !ring_eq_closed by lia. now rewrite ring_closed_add.
Qed.

Lemma spiral_add (c : Hex.t) (dq dr radius : Z) :
  HexTraversal.spiral (Hex.add c dq dr) radius
  = match HexTraversal.spiral c radius with
    | Ok l => Ok (map (fun h => Hex.add h dq dr) l)
    | Err e => Err e
    end.
Proof.
  destruct (Z_lt_le_dec radius 0) as [Hneg|Hr].
  - now rewrite !spiral_negative by assumption.
  - pose proof (spiral_eq_list c (Z.to_nat radius)) as Hs.
    pose proof (spiral_eq_list (Hex.add c dq dr) (Z.to_nat radius)) as Hs'.
    rewrite Z2Nat.id in Hs, Hs' by assumption.
    now rewrite Hs, Hs', spiral_list_add.
Qed.

(** Rings and spirals move with their centre: the traversal around a
    translated centre is the translated traversal, in the same order, and
    fails exactly when the original does. *)
Theorem traversal_translation (c : Hex.t) (dq dr radius : Z) :
  HexTraversal.ring (Hex.add c dq dr) radius
  = match HexTraversal.ring c radius with
    | Ok l => Ok (map (fun h => Hex.add h dq dr) l)
    | Err e => Err e
    end /\
  HexTraversal.spiral (Hex.add c dq dr) radius
  = match HexTraversal.spiral c radius with
    | Ok l => Ok (map (fun h => Hex.add h dq dr) l)
    | Err e => Err e
    end.
Proof. split; [apply ring_add|apply spiral_add]. Qed.

(** A ring of radius at least 1 is a closed walk: one step in direction
    5 from its last coordinate leads back to its first. *)
Theorem ring_closes (c : Hex.t) (radius : Z) :
  1 <= radius ->
  exists l first final,
    HexTraversal.ring c radius = Ok l /\
    nth_error l 0 = Some first /\
    nth_error l (6 * Z.to_nat radius - 1) = Some final /\
    Hex.neighbor final 5 = Ok first.
Proof.
  intros Hr. set (n := Z.to_nat radius).
  exists (ring_closed c n), (ring_at c n 0), (ring_at c n (6 * n - 1)).
  split; [apply ring_eq_closed; lia|].
  split; [apply ring_closed_nth; lia|].
  split; [apply ring_closed_nth; lia|].
  replace (6 * n - 1)%nat with (5 * n + (n - 1))%nat by lia.
  rewrite (ring_at_side c n 5 (n - 1)) by lia.
  change (ring_at c n 0) with (ring_at c n (0 * n + 0)).
  rewrite (ring_at_side c n 0 0) by lia.
  rewrite (neighbor_dir _ 5 (0, 1) eq_refl).
  f_equal; apply hex_eq; unfold ring_point; cbn [Hex.q Hex.r fst snd]; lia.
Qed.

Lemma ring_closes_witness :
  1 <= 2 /\
  exists l first final,
    HexTraversal.ring (Hex.mk 0 0) 2 = Ok l /\
    nth_error l 0 = Some first /\
    nth_error l (6 * Z.to_nat 2 - 1) = Some final /\
    Hex.neighbor final 5 = Ok first.
Proof.
  split; [lia | apply (ring_closes (Hex.mk 0 0) 2); lia].
Defined.

(** ** grid.py: writes, merges and the relations between grids *)

Lemma bool_eq_iff (a b : bool) : (a = true <-> b = true) -> a = b.
Proof.
  destruct a, b; intros [H1 H2]; try reflexivity.
  - symmetry. now apply H1.
  - now apply H2.
Qed.

Lemma grid_len_keys (g : HexGrid.t) : HexGrid.len g = length (HexGrid.keys g).
Proof. unfold HexGrid.len, HexGrid.keys. now rewrite length_map. Qed.

(** A write is read back, leaves every other key alone, adds a cell only
    for a new key (at the end of the enumeration, an existing key keeps
    its place), and keeps the keys unique. *)
Theorem set_then_get (g : HexGrid.t) (h : Hex.t) (v : Biome) :
  NoDup (HexGrid.keys g) ->
  HexGrid.get (HexGrid.set g h v) h = Some v /\
  (forall h', h' <> h -> HexGrid.get (HexGrid.set g h v) h' = HexGrid.get g h') /\
  HexGrid.keys (HexGrid.set g h v)
  = (if HexGrid.contains g h then HexGrid.keys g else HexGrid.keys g ++ [h]) /\
  HexGrid.len (HexGrid.set g h v)
  = (if HexGrid.contains g h then HexGrid.len g else S (HexGrid.len g)) /\
  NoDup (HexGrid.keys (HexGrid.set g h v)).
Proof.
  intros Hnd. split; [apply grid_get_set_same|].
  split; [intros h' Hne; apply grid_get_set_other; congruence|].
  assert (Hkeys : HexGrid.keys (HexGrid.set g h v)
                  = if HexGrid.contains g h then HexGrid.keys g else HexGrid.keys g ++ [h]).
  { destruct (HexGrid.contains g h) eqn:E.
    - apply grid_keys_set_old. now apply grid_contains_In.
    - apply grid_keys_set_new. intros Hin. apply grid_contains_In in Hin. congruence. }
  split; [exact Hkeys|]. split; [|now apply grid_set_NoDup].
  rewrite !grid_len_keys, Hkeys. destruct (HexGrid.contains g h); [reflexivity|].
  rewrite length_app. simpl. lia.
Qed.

Lemma set_then_get_witness :
  NoDup (HexGrid.keys two_cells) /\
  HexGrid.get (HexGrid.set two_cells (Hex.mk 1 (-1)) "forest"%string) (Hex.mk 1 (-1))
  = Some "forest"%string /\
  (forall h', h' <> Hex.mk 1 (-1) ->
     HexGrid.get (HexGrid.set two_cells (Hex.mk 1 (-1)) "forest"%string) h'
     = HexGrid.get two_cells h') /\
  HexGrid.keys (HexGrid.set two_cells (Hex.mk 1 (-1)) "forest"%string)
  = (if HexGrid.contains two_cells (Hex.mk 1 (-1)) then HexGrid.keys two_cells
     else HexGrid.keys two_cells ++ [Hex.mk 1 (-1)]) /\
  HexGrid.len (HexGrid.set two_cells (Hex.mk 1 (-1)) "forest"%string)
  = (if HexGrid.contains two_cells (Hex.mk 1 (-1)) then HexGrid.len two_cells
     else S (HexGrid.len two_cells)) /\
  NoDup (HexGrid.keys (HexGrid.set two_cells (Hex.mk 1 (-1)) "forest"%string)).
Proof.
  assert (Hnd : NoDup (HexGrid.keys two_cells)).
  { repeat constructor; simpl; intuition discriminate. }
  split; [exact Hnd|].
  apply (set_then_get two_cells (Hex.mk 1 (-1)) "forest"%string Hnd).
Defined.

Lemma grid_update_get (o : HexGrid.t) :
  NoDup (HexGrid.keys o) ->
  forall (g : HexGrid.t) (h : Hex.t),
    HexGrid.get (HexGrid.update g o) h
    = match HexGrid.get o h with
      | Some v => Some v
      | None => HexGrid.get g h
      end.
Proof.
  unfold HexGrid.update.
  induction o as [|[k v] o IH]; intros Hnd g h; cbn [fold_left fst snd HexGrid.get].
  - reflexivity.
  - inversion Hnd as [|? ? Hk Hnd']; subst. rewrite (IH Hnd').
    destruct (Hex.eqb k h) eqn:E.
    + apply hex_eqb_eq in E. subst k.
      assert (Hnone : HexGrid.get o h = None) by (now apply grid_get_None).
      rewrite Hnone. apply grid_get_set_same.
    + apply hex_eqb_neq in E.
      destruct (HexGrid.get o h); [reflexivity|].
      now apply grid_get_set_other.
Qed.

Lemma grid_update_keys_In (o g : HexGrid.t) (x : Hex.t) :
  In x (HexGrid.keys (HexGrid.update g o))
  <-> In x (HexGrid.keys g) \/ In x (HexGrid.keys o).
Proof.
  unfold HexGrid.update. revert g.
  induction o as [|[k v] o IH]; intros g; cbn [fold_left fst snd].
  - simpl. intuition.
  - rewrite IH, grid_keys_set_In. simpl. intuition (subst; auto).
Qed.

Lemma grid_update_NoDup (o g : HexGrid.t) :
  NoDup (HexGrid.keys g) -> NoDup (HexGrid.keys (HexGrid.update g o)).
Proof.
  unfold HexGrid.update. revert g.
  induction o as [|[k v] o IH]; intros g Hnd; cbn [fold_left fst snd];
    [exact Hnd|].
  apply IH. now apply grid_set_NoDup.
Qed.

Lemma grid_update_len (o : HexGrid.t) :
  NoDup (HexGrid.keys o) ->
  forall g : HexGrid.t,
    HexGrid.len (HexGrid.update g o)
    = (HexGrid.len g
       + length (filter (fun k => negb (HexGrid.contains g k)) (HexGrid.keys o)))%nat.
Proof.
  unfold HexGrid.update.
  induction o as [|[k v] o IH]; intros Hnd g; cbn [fold_left fst snd].
  - simpl. lia.
  - inversion Hnd as [|? ? Hk Hnd']; subst. rewrite (IH Hnd').
    cbn [HexGrid.keys map fst filter].
    assert (Hfilter :
      filter (fun k0 => negb (HexGrid.contains (HexGrid.set g k v) k0)) (HexGrid.keys o)
      = filter (fun k0 => negb (HexGrid.contains g k0)) (HexGrid.keys o)).
    { apply filter_ext_in. intros x Hx. f_equal. apply bool_eq_iff.
      rewrite !grid_contains_In, grid_keys_set_In.
      split; [intros [Hin| ->]; [exact Hin|contradiction]|now left]. }
    fold (HexGrid.keys o). rewrite Hfilter. rewrite !grid_len_keys.
    destruct (HexGrid.contains g k) eqn:E; cbn [negb length].
    + rewrite grid_keys_set_old by (now apply grid_contains_In). lia.
    + rewrite grid_keys_set_new
        by (intros Hin; apply grid_contains_In in Hin; congruence).
      rewrite length_app. simpl. lia.
Qed.

(** [update] lets the other grid win: afterwards a key reads the value
    of [other] if [other] has it and its old value if not; the keys are
    those of both grids, still unique, and the size grows by the number
    of keys of [other] that were new. *)
Theorem update_overwrites (g other : HexGrid.t) :
  NoDup (HexGrid.keys g) ->
  NoDup (HexGrid.keys other) ->
  (forall h,
     HexGrid.get (HexGrid.update g other) h
     = match HexGrid.get other h with
       | Some v => Some v
       | None => HexGrid.get g h
       end) /\
  (forall h,
     In h (HexGrid.keys (HexGrid.update g other))
     <-> In h (HexGrid.keys g) \/ In h (HexGrid.keys other)) /\
  NoDup (HexGrid.keys (HexGrid.update g other)) /\
  HexGrid.len (HexGrid.update g other)
  = (HexGrid.len g
     + length (filter (fun k => negb (HexGrid.contains g k)) (HexGrid.keys other)))%nat.
Proof.
  intros Hg Ho. split; [intros h; now apply grid_update_get|].
  split; [intros h; apply grid_update_keys_In|].
  split; [now apply grid_update_NoDup|now apply grid_update_len].
Qed.

Lemma update_overwrites_witness :
  NoDup (HexGrid.keys radius1_cluster) /\
  NoDup (HexGrid.keys two_cells) /\
  (forall h,
     HexGrid.get (HexGrid.update radius1_cluster two_cells) h
     = match HexGrid.get two_cells h with
       | Some v => Some v
       | None => HexGrid.get radius1_cluster h
       end) /\
  (forall h,
     In h (HexGrid.keys (HexGrid.update radius1_cluster two_cells))
     <-> In h (HexGrid.keys radius1_cluster) \/ In h (HexGrid.keys two_cells)) /\
  NoDup (HexGrid.keys (HexGrid.update radius1_cluster two_cells)) /\
  HexGrid.len (HexGrid.update radius1_cluster two_cells)
  = (HexGrid.len radius1_cluster
     + length (filter (fun k => negb (HexGrid.contains radius1_cluster k))
                      (HexGrid.keys two_cells)))%nat.
Proof.
  assert (Hnd : NoDup (HexGrid.keys two_cells)).
  { repeat constructor; simpl; intuition discriminate. }
  split; [exact radius1_cluster_NoDup|]. split; [exact Hnd|].
  apply (update_overwrites radius1_cluster two_cells radius1_cluster_NoDup Hnd).
Defined.

Lemma touches_true_iff (a b : HexGrid.t) :
  HexGrid.touches a b = Ok true
  <-> exists h nb, In h (HexGrid.keys a) /\ In nb (neighbor_list h) /\ In nb (HexGrid.keys b).
Proof.
  unfold HexGrid.touches.
  destruct (touches_loop_spec (HexGrid.keys a) (HexGrid.keys b)) as (t & Ht & Hspec).
  rewrite Ht. rewrite <- Hspec. split; [intros [= ->]; reflexivity|intros ->; reflexivity].
Qed.

Lemma touches_total (a b : HexGrid.t) :
  exists t, HexGrid.touches a b = Ok t.
Proof.
  unfold HexGrid.touches.
  destruct (touches_loop_spec (HexGrid.keys a) (HexGrid.keys b)) as (t & Ht & _).
  now exists t.
Qed.

Lemma touches_eq_of_iff (a b a' b' : HexGrid.t) :
  (HexGrid.touches a b = Ok true <-> HexGrid.touches a' b' = Ok true) ->
  HexGrid.touches a b = HexGrid.touches a' b'.
Proof.
  intros Hiff.
  destruct (touches_total a b) as (t & Ht), (touches_total a' b') as (t' & Ht').
  rewrite Ht, Ht' in *. f_equal. apply bool_eq_iff.
  split; intros ->; [destruct Hiff as [H1 _]|destruct Hiff as [_ H1]];
    specialize (H1 eq_refl); congruence.
Qed.

(** Both grid relations are symmetric, although each is computed from
    one side: [is_disjoint] holds exactly when no coordinate is a key of
    both grids, and [touches], which never fails, exactly when some key
    of one grid has a neighbour among the keys of the other. *)
Theorem grid_relations_symmetric (a b : HexGrid.t) :
  HexGrid.is_disjoint a b = HexGrid.is_disjoint b a /\
  (HexGrid.is_disjoint a b = true
   <-> forall h, ~ (In h (HexGrid.keys a) /\ In h (HexGrid.keys b))) /\
  HexGrid.touches a b = HexGrid.touches b a /\
  (exists t, HexGrid.touches a b = Ok t) /\
  (HexGrid.touches a b = Ok true
   <-> exists h nb,
         In h (HexGrid.keys a) /\ In nb (HexGrid.keys b) /\ Hex.distance h nb = 1).
Proof.
  assert (Hdis : forall x y,
            HexGrid.is_disjoint x y = true
            <-> forall h, ~ (In h (HexGrid.keys x) /\ In h (HexGrid.keys y))).
  { intros x y. rewrite is_disjoint_spec. unfold Disjoint. split.
    - intros Hd h [Hx Hy]. exact (Hd h Hy Hx).
    - intros Hd h Hy Hx. exact (Hd h (conj Hx Hy)). }
  split.
  { apply bool_eq_iff. rewrite !Hdis. split; intros Hd h [H1 H2]; exact (Hd h (conj H2 H1)). }
  split; [apply Hdis|]. split.
  { apply touches_eq_of_iff. rewrite !touches_true_iff. split.
    - intros (h & nb & Hh & Hnb & Hin). exists nb, h.
      split; [exact Hin|]. split; [now apply neighbor_list_sym|exact Hh].
    - intros (h & nb & Hh & Hnb & Hin). exists nb, h.
      split; [exact Hin|]. split; [now apply neighbor_list_sym|exact Hh]. }
  split; [apply touches_total|].
  rewrite touches_true_iff. split.
  - intros (h & nb & Hh & Hnb & Hin). exists h, nb.
    split; [exact Hh|]. split; [exact Hin|]. now apply neighbor_list_distance.
  - intros (h & nb & Hh & Hin & Hd). exists h, nb.
    split; [exact Hh|]. split; [|exact Hin]. now apply neighbor_list_distance.
Qed.

Lemma neighbor_list_add (h : Hex.t) (dq dr : Z) :
  neighbor_list (Hex.add h dq dr) = map (fun x => Hex.add x dq dr) (neighbor_list h).
Proof.
  destruct h as [qh rh]. unfold neighbor_list, Hex.add; cbn [Hex.q Hex.r map].
  repeat (f_equal; try (apply hex_eq; cbn [Hex.q Hex.r]; lia)).
Qed.

Lemma in_map_add (dq dr : Z) (x : Hex.t) (l : list Hex.t) :
  In (Hex.add x dq dr) (map (fun h => Hex.add h dq dr) l) <-> In x l.
Proof.
  rewrite in_map_iff. split.
  - intros (y & E & Hy). apply hex_add_inj in E. now subst.
  - intros Hin. now exists x.
Qed.

(** Moving two grids by the same offset changes neither whether they
    are disjoint nor whether they touch. *)
Theorem translate_keeps_relations (a b : HexGrid.t) (dq dr : Z) :
  NoDup (HexGrid.keys a) ->
  NoDup (HexGrid.keys b) ->
  HexGrid.is_disjoint (HexGrid.translate a dq dr) (HexGrid.translate b dq dr)
  = HexGrid.is_disjoint a b /\
  HexGrid.touches (HexGrid.translate a dq dr) (HexGrid.translate b dq dr)
  = HexGrid.touches a b.
Proof.
  intros Ha Hb. split.
  - apply bool_eq_iff. rewrite !is_disjoint_spec. unfold Disjoint.
    rewrite !grid_translate_keys by assumption. split.
    + intros Hd h Hin Hin'. apply (Hd (Hex.add h dq dr)); now apply in_map_add.
    + intros Hd h Hin Hin'. apply in_map_iff in Hin as (x & <- & Hx).
      apply in_map_add in Hin'. exact (Hd x Hx Hin').
  - apply touches_eq_of_iff. rewrite !touches_true_iff.
    rewrite !grid_translate_keys by assumption. split.
    + intros (h & nb & Hh & Hnb & Hin).
      apply in_map_iff in Hh as (h0 & <- & Hh0).
      apply in_map_iff in Hin as (nb0 & <- & Hnb0).
      rewrite neighbor_list_add in Hnb. apply in_map_add in Hnb.
      now exists h0, nb0.
    + intros (h & nb & Hh & Hnb & Hin).
      exists (Hex.add h dq dr), (Hex.add nb dq dr).
      split; [now apply in_map_add|]. split; [|now apply in_map_add].
      rewrite neighbor_list_add. now apply in_map_add.
Qed.

Lemma translate_keeps_relations_witness :
  NoDup (HexGrid.keys radius1_cluster) /\
  NoDup (HexGrid.keys two_cells) /\
  HexGrid.is_disjoint (HexGrid.translate radius1_cluster 4 (-7))
                      (HexGrid.translate two_cells 4 (-7))
  = HexGrid.is_disjoint radius1_cluster two_cells /\
  HexGrid.touches (HexGrid.translate radius1_cluster 4 (-7))
                  (HexGrid.translate two_cells 4 (-7))
  = HexGrid.touches radius1_cluster two_cells.
Proof.
  assert (Hnd : NoDup (HexGrid.keys two_cells)).
  { repeat constructor; simpl; intuition discriminate. }
  split; [exact radius1_cluster_NoDup|]. split; [exact Hnd|].
  apply (translate_keeps_relations radius1_cluster two_cells 4 (-7)
           radius1_cluster_NoDup Hnd).
Defined.

(** Translations compose by adding their offsets, the zero offset
    changes nothing, and a translated grid holds at [h + (dq, dr)] what
    the original holds at [h]. *)
Theorem translate_composes (g : HexGrid.t) (dq dr dq' dr' : Z) :
  NoDup (HexGrid.keys g) ->
  HexGrid.translate (HexGrid.translate g dq dr) dq' dr'
  = HexGrid.translate g (dq + dq') (dr + dr') /\
  HexGrid.translate g 0 0 = g /\
  (forall h, HexGrid.get (HexGrid.translate g dq dr) (Hex.add h dq dr)
             = HexGrid.get g h).
Proof.
  intros Hnd. split; [|split].
  - rewrite (grid_translate_map (HexGrid.translate g dq dr))
      by (now apply grid_translate_NoDup).
    rewrite !grid_translate_map by assumption. rewrite map_map.
    apply map_ext. intros [[hq hr] v]. unfold Hex.add; cbn [fst snd Hex.q Hex.r].
    do 2 f_equal; lia.
  - rewrite grid_translate_map by assumption. rewrite <- (map_id g) at 2.
    apply map_ext. intros [[hq hr] v]. unfold Hex.add; cbn [fst snd Hex.q Hex.r].
    do 2 f_equal; lia.
  - intros h. rewrite grid_translate_map by assumption. clear Hnd.
    induction g as [|[k v] g IH]; cbn [map HexGrid.get fst snd]; [reflexivity|].
    rewrite IH. replace (Hex.eqb (Hex.add k dq dr) (Hex.add h dq dr)) with (Hex.eqb k h);
      [reflexivity|].
    apply bool_eq_iff. rewrite !hex_eqb_eq. split; [now intros ->|apply hex_add_inj].
Qed.

Lemma translate_composes_witness :
  NoDup (HexGrid.keys radius1_cluster) /\
  HexGrid.translate (HexGrid.translate radius1_cluster 2 (-3)) 5 1
  = HexGrid.translate radius1_cluster (2 + 5) (-3 + 1) /\
  HexGrid.translate radius1_cluster 0 0 = radius1_cluster /\
  (forall h, HexGrid.get (HexGrid.translate radius1_cluster 2 (-3)) (Hex.add h 2 (-3))
             = HexGrid.get radius1_cluster h).
Proof.
  split; [exact radius1_cluster_NoDup|].
  apply (translate_composes radius1_cluster 2 (-3) 5 1 radius1_cluster_NoDup).
Defined.

(** ** grid.py: the sorted export *)

Lemma key_ltb_spec (a b : Z * Z) : key_ltb a b = true <-> key_lt a b.
Proof.
  unfold key_ltb, key_lt. rewrite orb_true_iff, andb_true_iff, !Z.ltb_lt, Z.eqb_eq.
  reflexivity.
Qed.

Lemma key_lt_total (a b : Z * Z) : a <> b -> key_lt a b \/ key_lt b a.
Proof.
  destruct a as [a1 a2], b as [b1 b2]. unfold key_lt; cbn [fst snd]. intros Hne.
  destruct (Z.eq_dec a1 b1) as [->|?]; [|lia].
  destruct (Z.eq_dec a2 b2) as [->|?]; [congruence|lia].
Qed.

Section SortedByKey.
Context {A : Type} (key : A -> Z * Z).

Lemma insert_by_key_In (x y : A) (l : list A) :
  In y (insert_by_key key x l) <-> y = x \/ In y l.
Proof.
  induction l as [|z l IH]; cbn [insert_by_key].
  - simpl. intuition.
  - destruct (key_ltb (key x) (key z)); simpl; [intuition|].
    rewrite IH. simpl. intuition.
Qed.

Lemma insert_by_key_length (x : A) (l : list A) :
  length (insert_by_key key x l) = S (length l).
Proof.
  induction l as [|z l IH]; cbn [insert_by_key]; [reflexivity|].
  destruct (key_ltb (key x) (key z)); cbn [length]; [reflexivity|now rewrite IH].
Qed.

Lemma insert_by_key_sorted (x : A) (l : list A) :
  StronglySorted (before key) l ->
  ~ In (key x) (map key l) ->
  StronglySorted (before key) (insert_by_key key x l).
Proof.
  intros Hs. induction Hs as [|z l Hs IH Hz]; intros Hnew; cbn [insert_by_key].
  - repeat constructor.
  - destruct (key_ltb (key x) (key z)) eqn:E.
    + apply key_ltb_spec in E. constructor; [now constructor|].
      constructor; [exact E|].
      rewrite Forall_forall in Hz |- *. intros y Hy. specialize (Hz y Hy).
      unfold before, key_lt in *. lia.
    + assert (Hzx : before key z x).
      { destruct (key_lt_total (key z) (key x)) as [H|H]; [|exact H|].
        - intros Heq. apply Hnew. left. exact Heq.
        - apply key_ltb_spec in H. congruence. }
      constructor.
      * apply IH. intros Hin. apply Hnew. right. exact Hin.
      * rewrite Forall_forall in Hz |- *. intros y Hy.
        apply insert_by_key_In in Hy as [->|Hy]; [exact Hzx|now apply Hz].
Qed.

Lemma sorted_fold (l : list A) :
  forall acc : list A,
    StronglySorted (before key) acc ->
    NoDup (map key (acc ++ l)) ->
    let out := fold_left (fun acc x => insert_by_key key x acc) l acc in
    StronglySorted (before key) out /\
    length out = (length acc + length l)%nat /\
    (forall y, In y out <-> In y acc \/ In y l).
Proof.
  induction l as [|x l IH]; intros acc Hs Hnd; cbn [fold_left].
  - cbn zeta. split; [exact Hs|]. split; [simpl; lia|]. simpl. intuition.
  - destruct (IH (insert_by_key key x acc)) as (Hs' & Hlen & Hin).
    + apply insert_by_key_sorted; [exact Hs|].
      rewrite map_app in Hnd. cbn [map] in Hnd. apply NoDup_remove_2 in Hnd.
      intros Hx. apply Hnd. apply in_or_app. now left.
    + rewrite map_app in Hnd |- *. cbn [map] in Hnd.
      assert (Hp : Permutation (key x :: map key acc)
                               (map key (insert_by_key key x acc))).
      { clear. induction acc as [|z acc IHa]; cbn [insert_by_key map]; [reflexivity|].
        destruct (key_ltb (key x) (key z)); cbn [map]; [reflexivity|].
        etransitivity; [apply perm_swap|]. constructor. exact IHa. }
      eapply Permutation_NoDup; [|exact Hnd].
      etransitivity; [apply Permutation_sym, Permutation_middle|].
      change (key x :: map key acc ++ map key l)
        with ((key x :: map key acc) ++ map key l).
      apply Permutation_app_tail. exact Hp.
    + cbn zeta in *. split; [exact Hs'|]. split.
      * rewrite Hlen, insert_by_key_length. simpl. lia.
      * intros y. rewrite Hin, insert_by_key_In. simpl. intuition.
Qed.

Lemma sorted_spec (l : list A) :
  NoDup (map key l) ->
  StronglySorted (before key) (sorted key l) /\
  length (sorted key l) = length l /\
  (forall y, In y (sorted key l) <-> In y l).
Proof.
  intros Hnd. unfold sorted.
  destruct (sorted_fold l [] (SSorted_nil _) Hnd) as (Hs & Hlen & Hin).
  cbn zeta in *. split; [exact Hs|]. split; [exact Hlen|].
  intros y. rewrite Hin. simpl. intuition.
Qed.

(** A list in strictly increasing key order is fixed by its elements. *)
Lemma strictly_sorted_unique (l1 l2 : list A) :
  StronglySorted (before key) l1 -> StronglySorted (before key) l2 ->
  (forall y, In y l1 <-> In y l2) -> l1 = l2.
Proof.
  assert (Hirr : forall y, ~ before key y y) by (intros y; unfold before, key_lt; lia).
  assert (Hasym : forall y z, before key y z -> before key z y -> False)
    by (intros y z; unfold before, key_lt; lia).
  intros Hs1. revert l2. induction Hs1 as [|a1 t1 Hs1 IH Ha1]; intros l2 Hs2 Hsame.
  - destruct l2 as [|a2 t2]; [reflexivity|].
    exfalso. apply (Hsame a2). now left.
  - destruct Hs2 as [|a2 t2 Hs2 Ha2].
    + exfalso. apply (Hsame a1). now left.
    + rewrite Forall_forall in Ha1, Ha2.
      assert (Heq : a1 = a2).
      { destruct (proj1 (Hsame a1) (or_introl eq_refl)) as [E|H1]; [now symmetry|].
        destruct (proj2 (Hsame a2) (or_introl eq_refl)) as [E|H2]; [exact E|].
        exfalso. exact (Hasym _ _ (Ha1 _ H2) (Ha2 _ H1)). }
      subst a2. f_equal. apply IH; [exact Hs2|].
      intros y. split; intros Hy.
      * destruct (proj1 (Hsame y) (or_intror Hy)) as [E|H]; [|exact H].
        subst y. exfalso. exact (Hirr _ (Ha1 _ Hy)).
      * destruct (proj2 (Hsame y) (or_intror Hy)) as [E|H]; [|exact H].
        subst y. exfalso. exact (Hirr _ (Ha2 _ Hy)).
Qed.

End SortedByKey.

Lemma StronglySorted_map {A B : Type} (f : A -> B) (R : B -> B -> Prop) (l : list A) :
  StronglySorted (fun x y => R (f x) (f y)) l -> StronglySorted R (map f l).
Proof.
  intros Hs. induction Hs as [|a l Hs IH Ha]; cbn [map]; constructor; [exact IH|].
  rewrite Forall_forall in Ha |- *. intros y Hy.
  apply in_map_iff in Hy as (x & <- & Hx). now apply Ha.
Qed.

Lemma grid_sort_keys_NoDup (g : HexGrid.t) :
  NoDup (HexGrid.keys g) ->
  NoDup (map (fun kv : Hex.t * Biome => (Hex.r (fst kv), Hex.q (fst kv))) g).
Proof.
  intros Hnd.
  replace (map (fun kv : Hex.t * Biome => (Hex.r (fst kv), Hex.q (fst kv))) g)
    with (map (fun h => (Hex.r h, Hex.q h)) (HexGrid.keys g))
    by (unfold HexGrid.keys; now rewrite map_map).
  apply NoDup_map_on; [|exact Hnd].
  intros x y _ _ E. injection E as Er Eq. now apply hex_eq.
Qed.

(** The JSON export lists every cell of the grid exactly once, as its
    [q], [r] and value, in strictly increasing order of [(r, q)]; it
    depends only on the cells, not on the order they were written in. *)
Theorem to_jsonable_list_sorted (g : HexGrid.t) :
  NoDup (HexGrid.keys g) ->
  length (HexGrid.to_jsonable_list g) = HexGrid.len g /\
  (forall q r v,
     In {| HexGrid.json_q := q; HexGrid.json_r := r; HexGrid.json_value := v |}
        (HexGrid.to_jsonable_list g)
     <-> HexGrid.get g (Hex.mk q r) = Some v) /\
  StronglySorted
    (fun a b => HexGrid.json_r a < HexGrid.json_r b
                \/ (HexGrid.json_r a = HexGrid.json_r b
                    /\ HexGrid.json_q a < HexGrid.json_q b))
    (HexGrid.to_jsonable_list g) /\
  (forall g', Permutation g g' ->
              HexGrid.to_jsonable_list g' = HexGrid.to_jsonable_list g).
Proof.
  intros Hnd. unfold HexGrid.to_jsonable_list, HexGrid.items.
  set (key := fun kv : Hex.t * Biome => (Hex.r (fst kv), Hex.q (fst kv))).
  destruct (sorted_spec key g (grid_sort_keys_NoDup g Hnd)) as (Hs & Hlen & Hin).
  split; [now rewrite length_map, Hlen|]. split; [|split].
  - intros q r v. rewrite grid_get_In by assumption. rewrite in_map_iff. split.
    + intros ([[hq hr] w] & E & Hy). cbn [fst snd Hex.q Hex.r] in E.
      injection E as -> -> ->. now apply Hin.
    + intros Hcell. exists (Hex.mk q r, v). split; [reflexivity|now apply Hin].
  - apply StronglySorted_map. exact Hs.
  - intros g' Hperm. f_equal.
    assert (Hnd' : NoDup (HexGrid.keys g')).
    { eapply Permutation_NoDup; [|exact Hnd]. unfold HexGrid.keys.
      now apply Permutation_map. }
    destruct (sorted_spec key g' (grid_sort_keys_NoDup g' Hnd')) as (Hs' & _ & Hin').
    apply (strictly_sorted_unique key); [exact Hs'|exact Hs|].
    intros y. rewrite Hin, Hin'. split; apply Permutation_in;
      [now apply Permutation_sym|exact Hperm].
Qed.

Lemma to_jsonable_list_sorted_witness :
  NoDup (HexGrid.keys radius1_cluster) /\
  length (HexGrid.to_jsonable_list radius1_cluster) = HexGrid.len radius1_cluster /\
  (forall q r v,
     In {| HexGrid.json_q := q; HexGrid.json_r := r; HexGrid.json_value := v |}
        (HexGrid.to_jsonable_list radius1_cluster)
     <-> HexGrid.get radius1_cluster (Hex.mk q r) = Some v) /\
  StronglySorted
    (fun a b => HexGrid.json_r a < HexGrid.json_r b
                \/ (HexGrid.json_r a = HexGrid.json_r b
                    /\ HexGrid.json_q a < HexGrid.json_q b))
    (HexGrid.to_jsonable_list radius1_cluster) /\
  (forall g', Permutation radius1_cluster g' ->
              HexGrid.to_jsonable_list g' = HexGrid.to_jsonable_list radius1_cluster).
Proof.
  split; [exact radius1_cluster_NoDup|].
  apply (to_jsonable_list_sorted radius1_cluster radius1_cluster_NoDup).
Defined.

(** ** generators.py: the predecessor choice and the fill *)

Lemma distance_sym (a b : Hex.t) : Hex.distance a b = Hex.distance b a.
Proof. unfold Hex.distance. lia. Qed.

Lemma find_filter {A : Type} (p : A -> bool) (l : list A) :
  find p l = match filter p l with c :: _ => Some c | [] => None end.
Proof.
  induction l as [|x l IH]; cbn [find filter]; [reflexivity|].
  destruct (p x); [reflexivity|exact IH].
Qed.

(** What [_choose_inward_neighbor] returns: never an error; [None]
    exactly when no neighbour of the target is filled; otherwise a filled
    neighbour of the target, and one that is exactly one step closer to
    the centre whenever any filled neighbour is. *)
Theorem choose_inward_neighbor_spec (target center : Hex.t) (grid : HexGrid.t) :
  exists o,
    SnowflakeHexflowerGenerator._choose_inward_neighbor target center grid = Ok o /\
    (o = None <->
     forall nb, Hex.distance target nb = 1 -> ~ In nb (HexGrid.keys grid)) /\
    (forall p, o = Some p ->
       In p (HexGrid.keys grid) /\ Hex.distance target p = 1 /\
       ((exists nb, In nb (HexGrid.keys grid) /\ Hex.distance target nb = 1 /\
                    Hex.distance nb center = Hex.distance target center - 1) ->
        Hex.distance p center = Hex.distance target center - 1)).
Proof.
  unfold SnowflakeHexflowerGenerator._choose_inward_neighbor.
  rewrite neighbors_Ok. cbn [bind].
  set (inward := fun nb => HexGrid.contains grid nb
                           && (Hex.distance nb center =? Hex.distance target center - 1)).
  destruct (filter inward (neighbor_list target)) as [|c cs] eqn:Hf.
  - (* no inward candidate: the first filled neighbour, if any *)
    destruct (find (fun nb => HexGrid.contains grid nb) (neighbor_list target))
      as [p|] eqn:Hfind.
    + exists (Some p). split; [reflexivity|]. split.
      * split; [discriminate|]. intros Hnone. exfalso.
        apply find_some in Hfind as [Hp Hin]. apply grid_contains_In in Hin.
        apply (Hnone p); [now apply neighbor_list_distance|exact Hin].
      * intros p' [= <-]. apply find_some in Hfind as [Hp Hin].
        apply grid_contains_In in Hin. split; [exact Hin|].
        split; [now apply neighbor_list_distance|].
        intros (nb & Hnb & Hd & Hcloser). exfalso.
        assert (Hx : In nb (filter inward (neighbor_list target))).
        { apply filter_In. split; [now apply neighbor_list_distance|].
          unfold inward. apply andb_true_iff. split.
          - now apply grid_contains_In.
          - now apply Z.eqb_eq. }
        rewrite Hf in Hx. destruct Hx.
    + exists None. split; [reflexivity|]. split; [|discriminate].
      split; [|reflexivity]. intros _ nb Hd Hin.
      apply neighbor_list_distance in Hd.
      pose proof (find_none _ _ Hfind nb Hd) as Hc. cbn beta in Hc.
      apply grid_contains_In in Hin. congruence.
  - exists (Some c). split; [reflexivity|].
    assert (Hc : In c (filter inward (neighbor_list target))) by (rewrite Hf; now left).
    apply filter_In in Hc as [Hnb Hc]. unfold inward in Hc.
    apply andb_true_iff in Hc as [Hin Hcloser].
    apply grid_contains_In in Hin. apply Z.eqb_eq in Hcloser.
    split.
    + split; [discriminate|]. intros Hnone. exfalso.
      apply (Hnone c); [now apply neighbor_list_distance|exact Hin].
    + intros p [= <-]. split; [exact Hin|].
      split; [now apply neighbor_list_distance|]. intros _. exact Hcloser.
Qed.

(** Every hex away from the centre has a neighbour one step closer. *)
Lemma inward_neighbor_exists (h c : Hex.t) :
  1 <= Hex.distance h c ->
  exists nb, In nb (neighbor_list h) /\ Hex.distance nb c = Hex.distance h c - 1.
Proof.
  destruct h as [qh rh], c as [qc rc]. unfold neighbor_list, Hex.distance.
  cbn [Hex.q Hex.r]. intros Hd.
  set (a := qh - qc) in *. set (b := rh - rc) in *.
  replace (qh + rh - (qc + rc)) with (a + b) in * by (unfold a, b; lia).
  destruct (Z_lt_le_dec 0 a) as [Ha|Ha].
  - destruct (Z_lt_le_dec b 0) as [Hb|Hb].
    + exists (Hex.mk (qh + -1) (rh + 1)). split; [simpl; auto 10|].
      cbn [Hex.q Hex.r]. replace (qh + -1 - qc) with (a - 1) by (unfold a; lia).
      replace (rh + 1 - rc) with (b + 1) by (unfold b; lia).
      replace (qh + -1 + (rh + 1) - (qc + rc)) with (a + b) by (unfold a, b; lia).
      clearbody a b. lia.
    + exists (Hex.mk (qh + -1) (rh + 0)). split; [simpl; auto 10|].
      cbn [Hex.q Hex.r]. replace (qh + -1 - qc) with (a - 1) by (unfold a; lia).
      replace (rh + 0 - rc) with b by (unfold b; lia).
      replace (qh + -1 + (rh + 0) - (qc + rc)) with (a + b - 1) by (unfold a, b; lia).
      clearbody a b. lia.
  - destruct (Z_lt_le_dec a 0) as [Ha'|Ha'].
    + destruct (Z_lt_le_dec 0 b) as [Hb|Hb].
      * exists (Hex.mk (qh + 1) (rh + -1)). split; [simpl; auto 10|].
        cbn [Hex.q Hex.r]. replace (qh + 1 - qc) with (a + 1) by (unfold a; lia).
        replace (rh + -1 - rc) with (b - 1) by (unfold b; lia).
        replace (qh + 1 + (rh + -1) - (qc + rc)) with (a + b) by (unfold a, b; lia).
        clearbody a b. lia.
      * exists (Hex.mk (qh + 1) (rh + 0)). split; [simpl; auto 10|].
        cbn [Hex.q Hex.r]. replace (qh + 1 - qc) with (a + 1) by (unfold a; lia).
        replace (rh + 0 - rc) with b by (unfold b; lia).
        replace (qh + 1 + (rh + 0) - (qc + rc)) with (a + b + 1) by (unfold a, b; lia).
        clearbody a b. lia.
    + assert (Ea : a = 0) by lia.
      destruct (Z_lt_le_dec 0 b) as [Hb|Hb].
      * exists (Hex.mk (qh + 0) (rh + -1)). split; [simpl; auto 10|].
        cbn [Hex.q Hex.r]. replace (qh + 0 - qc) with a by (unfold a; lia).
        replace (rh + -1 - rc) with (b - 1) by (unfold b; lia).
        replace (qh + 0 + (rh + -1) - (qc + rc)) with (a + b - 1) by (unfold a, b; lia).
        clearbody a b. lia.
      * exists (Hex.mk (qh + 0) (rh + 1)). split; [simpl; auto 10|].
        cbn [Hex.q Hex.r]. replace (qh + 0 - qc) with a by (unfold a; lia).
        replace (rh + 1 - rc) with (b + 1) by (unfold b; lia).
        replace (qh + 0 + (rh + 1) - (qc + rc)) with (a + b + 1) by (unfold a, b; lia).
        clearbody a b. lia.
Qed.

Lemma start_biome_is_biome {R : Type} {RS : RandomSource R} (rng : R) :
  is_biome (fst (BiomeTables.start_biome rng)).
Proof.
  unfold BiomeTables.start_biome, is_biome. destruct (randint 1 10 rng) as [x rng'].
  cbn [fst].
  destruct ((1 <=? x) && (x <=? 4)); [auto|].
  destruct ((5 <=? x) && (x <=? 6)); [auto|].
  destruct ((7 <=? x) && (x <=? 8)); [auto|].
  destruct (x =? 9); auto 10.
Qed.

Lemma next_biome_is_biome {R : Type} {RS : RandomSource R} (prev : Biome) (rng : R) :
  is_biome prev -> is_biome (fst (BiomeTables.next_biome prev rng)).
Proof.
  intros Hprev. unfold BiomeTables.next_biome. destruct (randint 1 10 rng) as [x rng'].
  cbn [fst]. unfold is_biome.
  destruct ((1 <=? x) && (x <=? 5)); [exact Hprev|].
  destruct (x =? 6); [auto|]. destruct (x =? 7); [auto|].
  destruct (x =? 8); [auto|]. destruct (x =? 9); auto 10.
Qed.

Lemma grid_get_Some_In (g : HexGrid.t) (h : Hex.t) (v : Biome) :
  HexGrid.get g h = Some v -> In (h, v) g.
Proof.
  induction g as [|[k w] g IH]; cbn [HexGrid.get]; [discriminate|].
  destruct (Hex.eqb k h) eqn:E.
  - apply hex_eqb_eq in E. subst k. intros [= ->]. now left.
  - intros Hget. right. now apply IH.
Qed.

Lemma biome_cells_set (g : HexGrid.t) (h : Hex.t) (v : Biome) :
  biome_cells g -> is_biome v -> biome_cells (HexGrid.set g h v).
Proof.
  unfold biome_cells. intros Hg Hv.
  induction g as [|[k w] g IH]; cbn [HexGrid.set].
  - constructor; [exact Hv|constructor].
  - inversion Hg as [|? ? Hw Hg']; subst.
    destruct (Hex.eqb k h); constructor; auto.
Qed.

Lemma biome_cells_get (g : HexGrid.t) (h : Hex.t) (v : Biome) :
  biome_cells g -> HexGrid.get g h = Some v -> is_biome v.
Proof.
  unfold biome_cells. rewrite Forall_forall. intros Hg Hget.
  apply grid_get_Some_In in Hget. exact (Hg _ Hget).
Qed.

Lemma or_default_is_biome (g : HexGrid.t) (p : Hex.t) :
  biome_cells g -> is_biome (or_default (HexGrid.get g p) "grassland"%string).
Proof.
  intros Hg. destruct (HexGrid.get g p) as [s|] eqn:E; cbn [or_default];
    [|unfold is_biome; auto].
  pose proof (biome_cells_get g p s Hg E) as Hs.
  destruct s; [unfold is_biome; auto|exact Hs].
Qed.

Lemma biome_cells_fold_set {A : Type} (f : A -> Hex.t) (v : A -> Biome) (l : list A) :
  Forall (fun x => is_biome (v x)) l ->
  forall acc, biome_cells acc ->
              biome_cells (fold_left (fun out x => HexGrid.set out (f x) (v x)) l acc).
Proof.
  intros Hl. induction Hl as [|x l Hx Hl IH]; intros acc Hacc; cbn [fold_left];
    [exact Hacc|].
  apply IH. now apply biome_cells_set.
Qed.

Lemma biome_cells_translate (g : HexGrid.t) (dq dr : Z) :
  biome_cells g -> biome_cells (HexGrid.translate g dq dr).
Proof.
  intros Hg. unfold HexGrid.translate, HexGrid.items.
  apply (biome_cells_fold_set (fun hv => Hex.add (fst hv) dq dr) snd);
    [exact Hg|constructor].
Qed.

Lemma biome_cells_update (g o : HexGrid.t) :
  biome_cells g -> biome_cells o -> biome_cells (HexGrid.update g o).
Proof.
  intros Hg Ho. unfold HexGrid.update.
  now apply (biome_cells_fold_set fst snd).
Qed.

Section GenerateExtras.
Context {R : Type} {RS : RandomSource R}.
Import SnowflakeHexflowerGenerator.

Lemma fill_hex_step (center h : Hex.t) (grid : HexGrid.t) (rng : R) :
  exists b,
    fill_hex center h (grid, rng) = Ok (HexGrid.set grid h b, snd (randint 1 10 rng)) /\
    (biome_cells grid -> is_biome b).
Proof.
  unfold fill_hex.
  destruct (choose_inward_neighbor_total h center grid) as (o & ->). cbn [bind].
  destruct o as [p|].
  - pose proof (next_biome_is_biome
                  (or_default (HexGrid.get grid p) "grassland"%string) rng) as Hb.
    unfold BiomeTables.next_biome in *.
    destruct (randint 1 10 rng) as [x rng']. cbn [fst snd] in *.
    eexists. split; [reflexivity|]. intros Hg. apply Hb. now apply or_default_is_biome.
  - pose proof (start_biome_is_biome rng) as Hb.
    unfold BiomeTables.start_biome in *.
    destruct (randint 1 10 rng) as [x rng']. cbn [fst snd] in *.
    eexists. split; [reflexivity|]. intros _. exact Hb.
Qed.

Lemma fill_ring_step (center : Hex.t) (hs : list Hex.t) :
  forall (grid : HexGrid.t) (rng : R),
    exists grid',
      for_each hs (fill_hex center) (grid, rng)
      = Ok (grid', after_draws (length hs) rng) /\
      (biome_cells grid -> biome_cells grid').
Proof.
  induction hs as [|h hs IH]; intros grid rng; cbn [for_each length after_draws].
  - exists grid. split; [reflexivity|auto].
  - destruct (fill_hex_step center h grid rng) as (b & -> & Hb). cbn [bind].
    destruct (IH (HexGrid.set grid h b) (snd (randint 1 10 rng))) as (grid' & -> & Hg').
    exists grid'. split; [reflexivity|].
    intros Hg. apply Hg'. apply biome_cells_set; auto.
Qed.

Lemma after_draws_add (n m : nat) (rng : R) :
  after_draws (n + m) rng = after_draws m (after_draws n rng).
Proof.
  revert rng. induction n as [|n IH]; intros rng; cbn [Nat.add after_draws];
    [reflexivity|apply IH].
Qed.

Lemma fill_rings_step (center : Hex.t) (grid0 : HexGrid.t) (rng0 : R) (n : nat) :
  exists grid,
    for_each (range 1 (Z.of_nat n + 1))
      (fun r st => hs <- HexTraversal.ring center r ;; for_each hs (fill_hex center) st)
      (grid0, rng0)
    = Ok (grid, after_draws (length (spiral_list center n) - 1) rng0) /\
    (biome_cells grid0 -> biome_cells grid).
Proof.
  induction n as [|n IH].
  - exists grid0. split; [reflexivity|auto].
  - destruct IH as (grid1 & Hloop & Hb1).
    replace (Z.of_nat (S n) + 1) with ((Z.of_nat n + 1) + 1) by lia.
    rewrite range_snoc by lia. rewrite for_each_app, Hloop. cbn [bind for_each].
    rewrite ring_eq_closed by lia. cbn [bind].
    replace (Z.to_nat (Z.of_nat n + 1)) with (S n) by lia.
    destruct (fill_ring_step center (ring_closed center (S n)) grid1
                (after_draws (length (spiral_list center n) - 1) rng0))
      as (grid2 & -> & Hb2).
    exists grid2. split; [|auto].
    rewrite <- after_draws_add.
    replace (length (spiral_list center n) - 1 + length (ring_closed center (S n)))%nat
      with (length (spiral_list center (S n)) - 1)%nat; [reflexivity|].
    cbn [spiral_list]. rewrite length_app.
    assert (0 < length (spiral_list center n))%nat.
    { pose proof (spiral_list_length center n). lia. }
    lia.
Qed.

(** The keys of a generated cluster, in the order they were written,
    are the coordinates of [spiral center radius] in spiral order. *)
Theorem generate_keys_in_spiral_order (center : Hex.t) (radius : Z) (rng : R) :
  0 <= radius ->
  exists grid rng' l,
    generate center radius rng = Ok (grid, rng') /\
    HexTraversal.spiral center radius = Ok l /\
    HexGrid.keys grid = l.
Proof.
  intros Hr. destruct (generate_keys center radius rng Hr) as (grid & rng' & Hgen & Hkeys).
  exists grid, rng', (spiral_list center (Z.to_nat radius)).
  split; [exact Hgen|]. split; [|exact Hkeys].
  pose proof (spiral_eq_list center (Z.to_nat radius)) as Hs.
  now rewrite Z2Nat.id in Hs by assumption.
Qed.

(** Whatever numbers the random source returns, every value in a
    generated cluster is one of the five terrain names. *)
Theorem generate_values_are_biomes (center : Hex.t) (radius : Z) (rng : R)
    (grid : HexGrid.t) (rng' : R) (h : Hex.t) (v : Biome) :
  generate center radius rng = Ok (grid, rng') ->
  HexGrid.get grid h = Some v ->
  is_biome v.
Proof.
  unfold generate. intros Hgen Hget.
  destruct (Z.ltb_spec radius 0) as [?|Hr]; [discriminate Hgen|].
  pose proof (start_biome_is_biome rng) as Hb.
  destruct (BiomeTables.start_biome rng) as [b rng0]. cbn [fst] in Hb.
  destruct (fill_rings_step center (HexGrid.set HexGrid.empty center b) rng0
              (Z.to_nat radius)) as (g & Hloop & Hcells).
  rewrite Z2Nat.id in Hloop by assumption. rewrite Hloop in Hgen.
  injection Hgen as <- _.
  apply (biome_cells_get g h v); [|exact Hget].
  apply Hcells. apply biome_cells_set; [constructor|exact Hb].
Qed.

(** A cluster of radius [radius] costs one [randint(1, 10)] draw per
    hex and nothing else: [generate] leaves the random source in the
    state reached after [1 + 3 * radius * (radius + 1)] such draws. *)
Theorem generate_draw_count (center : Hex.t) (radius : Z) (rng : R) :
  0 <= radius ->
  exists grid,
    generate center radius rng
    = Ok (grid, after_draws (Z.to_nat (1 + 3 * radius * (radius + 1))) rng).
Proof.
  intros Hr. unfold generate.
  destruct (Z.ltb_spec radius 0) as [?|_]; [lia|].
  unfold BiomeTables.start_biome.
  destruct (randint 1 10 rng) as [x rng0] eqn:Hdraw.
  match goal with
  | |- context [HexGrid.set HexGrid.empty center ?b] =>
      destruct (fill_rings_step center (HexGrid.set HexGrid.empty center b) rng0
                  (Z.to_nat radius)) as (g & Hloop & _)
  end.
  rewrite Z2Nat.id in Hloop by assumption. exists g. rewrite Hloop. do 2 f_equal.
  pose proof (spiral_list_length center (Z.to_nat radius)) as Hlen.
  rewrite Z2Nat.id in Hlen by assumption.
  replace (Z.to_nat (1 + 3 * radius * (radius + 1)))
    with (S (length (spiral_list center (Z.to_nat radius)) - 1)) by lia.
  cbn [after_draws]. now rewrite Hdraw.
Qed.

End GenerateExtras.

Lemma generate_keys_in_spiral_order_witness :
  0 <= 2 /\
  exists grid rng' l,
    SnowflakeHexflowerGenerator.generate (Hex.mk 2 (-1)) 2 4%nat = Ok (grid, rng') /\
    HexTraversal.spiral (Hex.mk 2 (-1)) 2 = Ok l /\
    HexGrid.keys grid = l.
Proof.
  split; [lia | apply (generate_keys_in_spiral_order (Hex.mk 2 (-1)) 2 4%nat); lia].
Defined.

Lemma generate_values_are_biomes_witness :
  SnowflakeHexflowerGenerator.generate (Hex.mk 0 0) 1 0%nat = Ok (radius1_cluster, 7%nat) /\
  HexGrid.get radius1_cluster (Hex.mk (-1) 0) = Some "forest"%string /\
  is_biome "forest"%string.
Proof.
  split; [vm_compute; reflexivity|]. split; [reflexivity|].
  apply (generate_values_are_biomes (Hex.mk 0 0) 1 0%nat radius1_cluster 7%nat
           (Hex.mk (-1) 0) "forest"%string); [vm_compute; reflexivity|reflexivity].
Defined.

Lemma generate_draw_count_witness :
  0 <= 2 /\
  exists grid,
    SnowflakeHexflowerGenerator.generate (Hex.mk 0 0) 2 0%nat
    = Ok (grid, after_draws (Z.to_nat (1 + 3 * 2 * (2 + 1))) 0%nat).
Proof.
  split; [lia | apply (generate_draw_count (Hex.mk 0 0) 2 0%nat); lia].
Defined.

Section GenerateInward.
Context {R : Type} {RS : RandomSource R}.
Import SnowflakeHexflowerGenerator.

(** Once every coordinate closer to the centre than [h] is filled, the
    predecessor of [h] is an inward neighbour and no fallback is used. *)
Lemma fill_hex_inward_eq (center h : Hex.t) (grid : HexGrid.t) (rng : R) :
  1 <= Hex.distance center h ->
  (forall x, Hex.distance center x <= Hex.distance center h - 1 ->
             In x (HexGrid.keys grid)) ->
  fill_hex_inward center h (grid, rng) = fill_hex center h (grid, rng).
Proof.
  intros Hd Hcover. unfold fill_hex_inward, fill_hex, _choose_inward_neighbor.
  rewrite neighbors_Ok. cbn [bind]. rewrite find_filter.
  destruct (inward_neighbor_exists h center) as (nb & Hnb & Hcloser).
  { rewrite distance_sym. exact Hd. }
  set (inward := fun nb => HexGrid.contains grid nb
                           && (Hex.distance nb center =? Hex.distance h center - 1)).
  assert (Hin : In nb (filter inward (neighbor_list h))).
  { apply filter_In. split; [exact Hnb|]. unfold inward. apply andb_true_iff. split.
    - apply grid_contains_In. apply Hcover.
      rewrite (distance_sym center nb), (distance_sym center h). lia.
    - now apply Z.eqb_eq. }
  destruct (filter inward (neighbor_list h)) as [|c cs]; [destruct Hin|].
  reflexivity.
Qed.

Lemma fill_ring_inward_eq (center : Hex.t) (d : Z) (hs : list Hex.t) :
  1 <= d ->
  (forall h, In h hs -> Hex.distance center h = d) ->
  forall (grid : HexGrid.t) (rng : R),
    (forall x, Hex.distance center x <= d - 1 -> In x (HexGrid.keys grid)) ->
    for_each hs (fill_hex_inward center) (grid, rng)
    = for_each hs (fill_hex center) (grid, rng).
Proof.
  intros Hd. induction hs as [|h hs IH]; intros Hring grid rng Hcover; [reflexivity|].
  cbn [for_each]. rewrite fill_hex_inward_eq.
  - destruct (fill_hex_sets center h grid rng) as (b & rng1 & ->). cbn [bind].
    apply IH.
    + intros h' Hh'. apply Hring. now right.
    + intros x Hx. apply grid_keys_set_In. left. now apply Hcover.
  - rewrite (Hring h) by now left. exact Hd.
  - intros x Hx. apply Hcover. rewrite (Hring h) in Hx by now left. exact Hx.
Qed.

Lemma fill_rings_inward_eq (center : Hex.t) (grid0 : HexGrid.t) (rng0 : R) (n : nat) :
  HexGrid.keys grid0 = [center] ->
  for_each (range 1 (Z.of_nat n + 1))
    (fun r st => hs <- HexTraversal.ring center r ;; for_each hs (fill_hex_inward center) st)
    (grid0, rng0)
  = for_each (range 1 (Z.of_nat n + 1))
      (fun r st => hs <- HexTraversal.ring center r ;; for_each hs (fill_hex center) st)
      (grid0, rng0).
Proof.
  intros Hk0. induction n as [|n IH]; [reflexivity|].
  replace (Z.of_nat (S n) + 1) with ((Z.of_nat n + 1) + 1) by lia.
  rewrite range_snoc by lia. rewrite !for_each_app, IH.
  destruct (fill_rings_keys center grid0 rng0 n Hk0) as (grid1 & rng1 & -> & Hkeys).
  cbn [bind for_each]. rewrite ring_eq_closed by lia. cbn [bind].
  rewrite (fill_ring_inward_eq center (Z.of_nat n + 1)); [reflexivity|lia| |].
  - intros h Hh. apply ring_closed_distance in Hh. lia.
  - intros x Hx. rewrite Hkeys. apply spiral_list_In_iff. lia.
Qed.

(** The fallbacks of the predecessor choice are never used by
    [generate]: every hex other than the centre takes its terrain from
    [next_biome] applied to the terrain of the first filled neighbour
    that is exactly one step closer to the centre.  The variant of
    [generate] that allows nothing else, and fails otherwise, returns the
    same result from the same state of the random source. *)
Theorem generate_uses_inward_neighbor (center : Hex.t) (radius : Z) (rng : R) :
  generate_inward center radius rng = generate center radius rng.
Proof.
  unfold generate_inward, generate.
  destruct (Z.ltb_spec radius 0) as [?|Hr]; [reflexivity|].
  destruct (BiomeTables.start_biome rng) as [b rng0].
  pose proof (fill_rings_inward_eq center (HexGrid.set HexGrid.empty center b) rng0
                (Z.to_nat radius) eq_refl) as Heq.
  rewrite Z2Nat.id in Heq by assumption. exact Heq.
Qed.

End GenerateInward.

(** ** generators.py: a cluster does not depend on where it is centred *)

Lemma move_cells_keys (dq dr : Z) (g : HexGrid.t) :
  HexGrid.keys (move_cells dq dr g) = map (fun h => Hex.add h dq dr) (HexGrid.keys g).
Proof. unfold move_cells, HexGrid.keys. now rewrite !map_map. Qed.

Lemma hex_eqb_add (dq dr : Z) (a b : Hex.t) :
  Hex.eqb (Hex.add a dq dr) (Hex.add b dq dr) = Hex.eqb a b.
Proof.
  apply bool_eq_iff. rewrite !hex_eqb_eq. split; [apply hex_add_inj|now intros ->].
Qed.

Lemma move_cells_get (dq dr : Z) (g : HexGrid.t) (h : Hex.t) :
  HexGrid.get (move_cells dq dr g) (Hex.add h dq dr) = HexGrid.get g h.
Proof.
  induction g as [|[k v] g IH]; cbn [move_cells map HexGrid.get fst snd]; [reflexivity|].
  rewrite hex_eqb_add. fold (move_cells dq dr g). now rewrite IH.
Qed.

Lemma move_cells_contains (dq dr : Z) (g : HexGrid.t) (h : Hex.t) :
  HexGrid.contains (move_cells dq dr g) (Hex.add h dq dr) = HexGrid.contains g h.
Proof.
  apply bool_eq_iff. rewrite !grid_contains_In, move_cells_keys. apply in_map_add.
Qed.

Lemma move_cells_set (dq dr : Z) (g : HexGrid.t) (h : Hex.t) (v : Biome) :
  HexGrid.set (move_cells dq dr g) (Hex.add h dq dr) v
  = move_cells dq dr (HexGrid.set g h v).
Proof.
  induction g as [|[k w] g IH]; cbn [move_cells map HexGrid.set fst snd]; [reflexivity|].
  rewrite hex_eqb_add. destruct (Hex.eqb k h); cbn [map fst snd]; [reflexivity|].
  f_equal. exact IH.
Qed.

Lemma distance_add (a b : Hex.t) (dq dr : Z) :
  Hex.distance (Hex.add a dq dr) (Hex.add b dq dr) = Hex.distance a b.
Proof.
  destruct a as [qa ra], b as [qb rb]. unfold Hex.distance, Hex.add; cbn [Hex.q Hex.r].
  f_equal; [f_equal|]; f_equal; lia.
Qed.

Lemma filter_map_comm {A B : Type} (f : A -> B) (p : B -> bool) (l : list A) :
  filter p (map f l) = map f (filter (fun x => p (f x)) l).
Proof.
  induction l as [|x l IH]; cbn [map filter]; [reflexivity|].
  destruct (p (f x)); cbn [map]; now rewrite IH.
Qed.

Lemma find_map_comm {A B : Type} (f : A -> B) (p : B -> bool) (l : list A) :
  find p (map f l) = option_map f (find (fun x => p (f x)) l).
Proof.
  induction l as [|x l IH]; cbn [map find]; [reflexivity|].
  destruct (p (f x)); [reflexivity|exact IH].
Qed.

Lemma find_ext_eq {A : Type} (p q : A -> bool) (l : list A) :
  (forall x, p x = q x) -> find p l = find q l.
Proof.
  intros Hpq. induction l as [|x l IH]; cbn [find]; [reflexivity|].
  rewrite Hpq. destruct (q x); [reflexivity|exact IH].
Qed.

Lemma choose_inward_neighbor_add (dq dr : Z) (target center : Hex.t) (g : HexGrid.t) :
  SnowflakeHexflowerGenerator._choose_inward_neighbor
    (Hex.add target dq dr) (Hex.add center dq dr) (move_cells dq dr g)
  = match SnowflakeHexflowerGenerator._choose_inward_neighbor target center g with
    | Ok o => Ok (option_map (fun h => Hex.add h dq dr) o)
    | Err e => Err e
    end.
Proof.
  unfold SnowflakeHexflowerGenerator._choose_inward_neighbor.
  rewrite !neighbors_Ok. cbn [bind].
  rewrite neighbor_list_add, filter_map_comm, find_map_comm, distance_add.
  rewrite (filter_ext _ (fun nb => HexGrid.contains g nb
                                   && (Hex.distance nb center
                                       =? Hex.distance target center - 1)))
    by (intros nb; now rewrite move_cells_contains, distance_add).
  rewrite (find_ext_eq _ (fun nb => HexGrid.contains g nb))
    by (intros nb; apply move_cells_contains).
  destruct (filter _ (neighbor_list target)) as [|c cs]; cbn [map]; reflexivity.
Qed.

Section GenerateTranslation.
Context {R : Type} {RS : RandomSource R}.
Import SnowflakeHexflowerGenerator.

Lemma fill_hex_add (dq dr : Z) (center h : Hex.t) (g : HexGrid.t) (rng : R) :
  fill_hex (Hex.add center dq dr) (Hex.add h dq dr) (move_cells dq dr g, rng)
  = move_state dq dr (fill_hex center h (g, rng)).
Proof.
  unfold fill_hex. rewrite choose_inward_neighbor_add.
  destruct (_choose_inward_neighbor h center g) as [[p|]|e]; cbn [bind option_map move_state];
    [| |reflexivity].
  - rewrite move_cells_get.
    destruct (BiomeTables.next_biome _ rng) as [b rng'].
    cbn [move_state]. now rewrite move_cells_set.
  - destruct (BiomeTables.start_biome rng) as [b rng'].
    cbn [move_state]. now rewrite move_cells_set.
Qed.

Lemma fill_ring_add (dq dr : Z) (center : Hex.t) (hs : list Hex.t) :
  forall (g : HexGrid.t) (rng : R),
    for_each (map (fun h => Hex.add h dq dr) hs) (fill_hex (Hex.add center dq dr))
             (move_cells dq dr g, rng)
    = move_state dq dr (for_each hs (fill_hex center) (g, rng)).
Proof.
  induction hs as [|h hs IH]; intros g rng; cbn [map for_each]; [reflexivity|].
  rewrite fill_hex_add.
  destruct (fill_hex center h (g, rng)) as [[g1 rng1]|e]; cbn [move_state bind];
    [apply IH|reflexivity].
Qed.

Lemma fill_rings_add (dq dr : Z) (center : Hex.t) (rs : list Z) :
  forall (g : HexGrid.t) (rng : R),
    for_each rs
      (fun r st => hs <- HexTraversal.ring (Hex.add center dq dr) r ;;
                   for_each hs (fill_hex (Hex.add center dq dr)) st)
      (move_cells dq dr g, rng)
    = move_state dq dr
        (for_each rs
           (fun r st => hs <- HexTraversal.ring center r ;;
                        for_each hs (fill_hex center) st)
           (g, rng)).
Proof.
  induction rs as [|r rs IH]; intros g rng; cbn [for_each]; [reflexivity|].
  rewrite ring_add.
  destruct (HexTraversal.ring center r) as [hs|e]; cbn [bind move_state]; [|reflexivity].
  rewrite fill_ring_add.
  destruct (for_each hs (fill_hex center) (g, rng)) as [[g1 rng1]|e];
    cbn [move_state bind]; [apply IH|reflexivity].
Qed.

(** Generating around a translated centre gives the translated cluster:
    the same terrain on every hex, in the same order, from the same
    draws, so a cluster does not depend on where it is centred. *)
Theorem generate_translation (center : Hex.t) (radius dq dr : Z) (rng : R) :
  generate (Hex.add center dq dr) radius rng
  = match generate center radius rng with
    | Ok (g, rng') => Ok (HexGrid.translate g dq dr, rng')
    | Err e => Err e
    end.
Proof.
  destruct (Z_lt_le_dec radius 0) as [Hneg|Hr].
  { now rewrite !generate_negative by assumption. }
  destruct (generate_keys center radius rng Hr) as (g & rng' & Hgen & Hkeys).
  rewrite Hgen. rewrite grid_translate_map
    by (rewrite Hkeys; apply spiral_list_NoDup).
  fold (move_cells dq dr g).
  change (Ok (move_cells dq dr g, rng')) with (move_state dq dr (Ok (g, rng'))).
  rewrite <- Hgen. unfold generate.
  destruct (Z.ltb_spec radius 0) as [?|_]; [lia|].
  destruct (BiomeTables.start_biome rng) as [b rng0].
  change (HexGrid.set HexGrid.empty (Hex.add center dq dr) b)
    with (move_cells dq dr (HexGrid.set HexGrid.empty center b)).
  apply fill_rings_add.
Qed.

End GenerateTranslation.

(** ** generators.py: the connected builder *)

Lemma chain_placed_size (k : nat) (s : HexGrid.t) (ms : list HexGrid.t) (g : HexGrid.t) :
  chain_placed s ms g ->
  NoDup (HexGrid.keys s) ->
  Forall (fun m => NoDup (HexGrid.keys m) /\ HexGrid.len m = k) ms ->
  NoDup (HexGrid.keys g) /\ HexGrid.len g = (HexGrid.len s + length ms * k)%nat.
Proof.
  intros Hchain. induction Hchain as [s|s m ms s' Hdis Hadj Hchain IH]; intros Hs Hms.
  - split; [exact Hs|]. simpl. lia.
  - inversion Hms as [|? ? [Hm Hlen] Hms']; subst.
    assert (Hnd : NoDup (HexGrid.keys s ++ HexGrid.keys m)).
    { apply NoDup_app; [exact Hs|exact Hm|]. intros a Ha Hb. exact (Hdis a Hb Ha). }
    rewrite (grid_update_disjoint s m Hnd) in IH.
    destruct IH as [Hg Hlen']; [now rewrite grid_keys_app|exact Hms'|].
    split; [exact Hg|]. rewrite Hlen'. unfold HexGrid.len. rewrite length_app.
    cbn [length]. unfold HexGrid.len. lia.
Qed.

Lemma Ok_inj {A : Type} (a b : A) : Ok a = Ok b -> a = b.
Proof. congruence. Qed.

Lemma set_iter_In (SO : SetOrder) (l : list Hex.t) (x : Hex.t) :
  In x (set_iter l) <-> In x l.
Proof.
  rewrite <- (nodup_In Hex.eq_dec l x). split; apply Permutation_in;
    [apply set_iter_perm|apply Permutation_sym, set_iter_perm].
Qed.

(** A non-empty finite set of coordinates has a member of largest [q]. *)
Lemma max_q_exists (l : list Hex.t) :
  l <> [] -> exists h, In h l /\ forall x, In x l -> Hex.q x <= Hex.q h.
Proof.
  induction l as [|a l IH]; [congruence|]. intros _.
  destruct l as [|b l].
  - exists a. split; [now left|]. intros x [<-|[]]. lia.
  - destruct IH as (h & Hh & Hmax); [discriminate|].
    destruct (Z_le_gt_dec (Hex.q a) (Hex.q h)) as [Hle|Hgt].
    + exists h. split; [now right|]. intros x [<-|Hx]; [exact Hle|now apply Hmax].
    + exists a. split; [now left|]. intros x [<-|Hx]; [lia|].
      specialize (Hmax x Hx). lia.
Qed.

Section ChainExtras.
Context {R : Type} {RS : RandomSource R} {SO : SetOrder}.
Import SnowflakeHexflowerGenerator ConnectedHexflowerBuilder.

Lemma translated_cluster_shape (radius : Z) (m : HexGrid.t) :
  translated_cluster (R := R) radius m ->
  0 <= radius /\
  NoDup (HexGrid.keys m) /\
  HexGrid.len m = length (spiral_list (Hex.mk 0 0) (Z.to_nat radius)) /\
  exists dq dr,
    HexGrid.keys m = spiral_list (Hex.add (Hex.mk 0 0) dq dr) (Z.to_nat radius).
Proof.
  intros (rng0 & new & rng1 & dq & dr & Hgen & ->).
  destruct (Z_lt_le_dec radius 0) as [Hneg|Hr].
  { rewrite generate_negative in Hgen by assumption. discriminate Hgen. }
  destruct (generate_keys (Hex.mk 0 0) radius rng0 Hr) as (g & rng' & Hgen' & Hkeys).
  rewrite Hgen in Hgen'. injection Hgen' as <- <-.
  assert (Hnd : NoDup (HexGrid.keys new)) by (rewrite Hkeys; apply spiral_list_NoDup).
  split; [exact Hr|]. split; [now apply grid_translate_NoDup|]. split.
  - rewrite grid_len_keys, grid_translate_keys by assumption.
    now rewrite length_map, Hkeys.
  - exists dq, dr. rewrite grid_translate_keys by assumption.
    now rewrite Hkeys, spiral_list_add.
Qed.

(** A returning [build_chain] has made [count] clusters of
    [1 + 3 * radius * (radius + 1)] hexes each and lost none of them: the
    result has [count] times that many cells, under pairwise distinct
    keys. *)
Theorem build_chain_size (count radius max_tries : Z) (rng : R)
    (g : HexGrid.t) (rng' : R) :
  build_chain count radius max_tries rng = Ok (g, rng') ->
  1 <= count /\ 0 <= radius /\
  NoDup (HexGrid.keys g) /\
  Z.of_nat (HexGrid.len g) = count * (1 + 3 * radius * (radius + 1)).
Proof.
  unfold build_chain. intros Hrun.
  destruct (Z.ltb_spec count 1) as [?|Hc]; [discriminate Hrun|].
  destruct (Z_lt_le_dec radius 0) as [Hneg|Hr].
  { rewrite generate_negative in Hrun by assumption. discriminate Hrun. }
  destruct (generate_keys (Hex.mk 0 0) radius rng Hr) as (seed & rng1 & Hgen & Hkeys).
  rewrite Hgen in Hrun. cbn [bind] in Hrun.
  assert (Hseed : NoDup (HexGrid.keys seed)) by (rewrite Hkeys; apply spiral_list_NoDup).
  rewrite grid_update_empty in Hrun by assumption.
  apply place_clusters_chain in Hrun as (clusters & Hlen & Hfrom & Hchain).
  set (k := length (spiral_list (Hex.mk 0 0) (Z.to_nat radius))).
  destruct (chain_placed_size k seed clusters g Hchain Hseed) as [Hnd Hsize].
  { eapply Forall_impl; [|exact Hfrom]. intros m Hm.
    apply translated_cluster_shape in Hm as (_ & Hm & Hl & _). now split. }
  split; [exact Hc|]. split; [exact Hr|]. split; [exact Hnd|].
  rewrite Hsize, Hlen, range_length, grid_len_keys, Hkeys. fold k.
  pose proof (spiral_list_length (Hex.mk 0 0) (Z.to_nat radius)) as Hk. fold k in Hk.
  rewrite Z2Nat.id in Hk by assumption. nia.
Qed.

(** Without a retry budget no second cluster can be placed: for
    [count >= 2] and [max_tries <= 0] a valid radius ends in
    [RuntimeError], whatever the random source. *)
Theorem build_chain_without_tries (count radius max_tries : Z) (rng : R) :
  2 <= count -> 0 <= radius -> max_tries <= 0 ->
  build_chain count radius max_tries rng = Err RuntimeError.
Proof.
  intros Hc Hr Ht. unfold build_chain.
  destruct (Z.ltb_spec count 1) as [?|_]; [lia|].
  destruct (generate_keys (Hex.mk 0 0) radius rng Hr) as (seed & rng1 & -> & _).
  cbn [bind].
  replace (range 0 (count - 1)) with (0 :: range 1 (count - 1)).
  2: { unfold range. replace (Z.to_nat (count - 1 - 0)) with (S (Z.to_nat (count - 1 - 1)))
         by lia.
       cbn [seq map]. f_equal. rewrite <- seq_shift, map_map. apply map_ext. intros; lia. }
  cbn [for_each]. unfold place_cluster at 1.
  destruct (generate_keys (Hex.mk 0 0) radius rng1 Hr) as (new & rng2 & -> & _).
  cbn [bind]. rewrite frontier_targets_flat_map. cbn [bind].
  destruct (flat_map _ _) as [|f fs]; [reflexivity|].
  replace (Z.to_nat max_tries) with 0%nat by lia. reflexivity.
Qed.

(** The frontier of a non-empty super-grid is never empty, so the
    "no frontier" error of [build_chain] cannot occur: beside the cell of
    largest [q] there is always a free coordinate. *)
Theorem frontier_never_empty (super_map : HexGrid.t) :
  super_map <> [] ->
  exists target rest,
    frontier_targets (set_iter (HexGrid.keys super_map)) = Ok (target :: rest).
Proof.
  intros Hne. rewrite frontier_targets_flat_map.
  destruct (max_q_exists (HexGrid.keys super_map)) as (h & Hh & Hmax).
  { destruct super_map; [congruence|discriminate]. }
  set (east := Hex.mk (Hex.q h + 1) (Hex.r h + 0)).
  assert (Hin : In east
    (flat_map (fun h0 => filter (fun nb => negb (Hex.mem nb (set_iter (HexGrid.keys super_map))))
                                (neighbor_list h0))
              (set_iter (HexGrid.keys super_map)))).
  { apply in_flat_map. exists h. split; [now apply set_iter_In|].
    apply filter_In. split; [now left|].
    apply negb_true_iff, hex_mem_not_In. rewrite set_iter_In. intros Hin.
    specialize (Hmax east Hin). unfold east in Hmax. cbn [Hex.q] in Hmax. lia. }
  destruct (flat_map _ _) as [|t rest]; [destruct Hin|].
  now exists t, rest.
Qed.

(** The touch check after the overlap check never rejects: moving the
    new cluster so that one of its cells lands on a frontier coordinate
    always makes it touch the super-grid. *)
Theorem frontier_placement_touches (super_map new : HexGrid.t)
    (frontier : list Hex.t) (target anchor : Hex.t) :
  NoDup (HexGrid.keys new) ->
  frontier_targets (set_iter (HexGrid.keys super_map)) = Ok frontier ->
  In target frontier ->
  In anchor (HexGrid.keys new) ->
  HexGrid.touches super_map
    (HexGrid.translate new (Hex.q target - Hex.q anchor) (Hex.r target - Hex.r anchor))
  = Ok true.
Proof.
  intros Hnd Hf Ht Ha. rewrite frontier_targets_flat_map in Hf.
  apply Ok_inj in Hf. subst frontier.
  destruct (proj1 (in_flat_map _ _ _) Ht) as (h & Hh & Hx). apply set_iter_In in Hh.
  destruct (proj1 (filter_In _ _ _) Hx) as [Hnb _].
  apply touches_true_iff. exists h, target. split; [exact Hh|]. split; [exact Hnb|].
  rewrite grid_translate_keys by assumption. apply in_map_iff.
  exists anchor. split; [|exact Ha].
  apply hex_eq; unfold Hex.add; cbn [Hex.q Hex.r]; lia.
Qed.

End ChainExtras.

Lemma build_chain_size_witness :
  ConnectedHexflowerBuilder.build_chain 2 1 5 0%nat = Ok (chain_of_two, 18%nat) /\
  1 <= 2 /\ 0 <= 1 /\
  NoDup (HexGrid.keys chain_of_two) /\
  Z.of_nat (HexGrid.len chain_of_two) = 2 * (1 + 3 * 1 * (1 + 1)).
Proof.
  split; [vm_compute; reflexivity|].
  apply (build_chain_size 2 1 5 0%nat chain_of_two 18%nat). vm_compute. reflexivity.
Defined.

Lemma build_chain_without_tries_witness :
  2 <= 3 /\ 0 <= 1 /\ 0 <= 0 /\
  ConnectedHexflowerBuilder.build_chain 3 1 0 0%nat = Err RuntimeError.
Proof.
  split; [lia|]. split; [lia|]. split; [lia|].
  apply (build_chain_without_tries 3 1 0 0%nat); lia.
Defined.

Lemma frontier_never_empty_witness :
  two_cells <> [] /\
  exists target rest,
    ConnectedHexflowerBuilder.frontier_targets (set_iter (HexGrid.keys two_cells))
    = Ok (target :: rest).
Proof.
  split; [discriminate|]. apply (frontier_never_empty two_cells). discriminate.
Defined.

Lemma frontier_placement_touches_witness :
  NoDup (HexGrid.keys two_cells) /\
  (exists frontier,
     ConnectedHexflowerBuilder.frontier_targets (set_iter (HexGrid.keys radius1_cluster))
     = Ok frontier /\
     In (Hex.mk 2 (-1)) frontier) /\
  In (Hex.mk 1 (-1)) (HexGrid.keys two_cells) /\
  HexGrid.touches radius1_cluster
    (HexGrid.translate two_cells (Hex.q (Hex.mk 2 (-1)) - Hex.q (Hex.mk 1 (-1)))
                                 (Hex.r (Hex.mk 2 (-1)) - Hex.r (Hex.mk 1 (-1))))
  = Ok true.
Proof.
  assert (Hnd : NoDup (HexGrid.keys two_cells)).
  { repeat constructor; simpl; intuition discriminate. }
  assert (Ha : In (Hex.mk 1 (-1)) (HexGrid.keys two_cells)) by (simpl; auto).
  assert (Hf : ConnectedHexflowerBuilder.frontier_targets
                 (set_iter (HexGrid.keys radius1_cluster))
               = Ok (flat_map
                       (fun h => filter (fun nb => negb (Hex.mem nb (set_iter (HexGrid.keys radius1_cluster))))
                                        (neighbor_list h))
                       (set_iter (HexGrid.keys radius1_cluster))))
    by apply frontier_targets_flat_map.
  assert (Ht : In (Hex.mk 2 (-1))
                  (flat_map
                     (fun h => filter (fun nb => negb (Hex.mem nb (set_iter (HexGrid.keys radius1_cluster))))
                                      (neighbor_list h))
                     (set_iter (HexGrid.keys radius1_cluster)))).
  { vm_compute. auto 20. }
  split; [exact Hnd|]. split; [eexists; split; [exact Hf|exact Ht]|].
  split; [exact Ha|].
  exact (frontier_placement_touches radius1_cluster two_cells _ (Hex.mk 2 (-1))
           (Hex.mk 1 (-1)) Hnd Hf Ht Ha).
Defined.

(** ** generators.py: the super-grid is in one piece *)

Lemma linked_In (keys : list Hex.t) (a b : Hex.t) :
  linked keys a b -> In a keys /\ In b keys.
Proof.
  intros Hl. induction Hl as [a Ha|a b c Ha Hd Hl [_ Hc]]; split; assumption.
Qed.

Lemma linked_trans (keys : list Hex.t) (a b c : Hex.t) :
  linked keys a b -> linked keys b c -> linked keys a c.
Proof.
  intros Hab Hbc. induction Hab as [a Ha|a x b Ha Hd Hxb IH]; [exact Hbc|].
  eapply linked_step; [exact Ha|exact Hd|]. now apply IH.
Qed.

Lemma linked_sym (keys : list Hex.t) (a b : Hex.t) :
  linked keys a b -> linked keys b a.
Proof.
  intros Hab. induction Hab as [a Ha|a x b Ha Hd Hxb IH]; [now constructor|].
  apply (linked_trans keys b x a); [exact IH|].
  apply (linked_step keys x a a).
  - now apply (linked_In keys x b).
  - now rewrite distance_sym.
  - now constructor.
Qed.

Lemma linked_incl (keys keys' : list Hex.t) (a b : Hex.t) :
  incl keys keys' -> linked keys a b -> linked keys' a b.
Proof.
  intros Hincl Hab. induction Hab as [a Ha|a x b Ha Hd Hxb IH].
  - constructor. now apply Hincl.
  - eapply linked_step; [now apply Hincl|exact Hd|exact IH].
Qed.

(** Inside a disk every coordinate walks inward to the centre. *)
Lemma disk_linked_to_center (c : Hex.t) (n : nat) :
  forall (k : nat) (x : Hex.t),
    Hex.distance c x = Z.of_nat k -> (k <= n)%nat ->
    linked (spiral_list c n) x c.
Proof.
  induction k as [|k IH]; intros x Hd Hk.
  - apply distance_zero_eq in Hd. subst x. constructor. apply spiral_list_center.
  - destruct (inward_neighbor_exists x c) as (nb & Hnb & Hcloser).
    { rewrite distance_sym. lia. }
    apply (linked_step _ x nb c).
    + apply spiral_list_In_iff. lia.
    + now apply neighbor_list_distance.
    + apply IH; [|lia]. rewrite distance_sym, Hcloser, (distance_sym x c). lia.
Qed.

Lemma disk_connected (c : Hex.t) (n : nat) (a b : Hex.t) :
  In a (spiral_list c n) -> In b (spiral_list c n) -> linked (spiral_list c n) a b.
Proof.
  intros Ha Hb. apply spiral_list_In_iff in Ha, Hb.
  pose proof (distance_nonneg c a) as Hna. pose proof (distance_nonneg c b) as Hnb.
  apply (linked_trans _ a c b).
  - apply (disk_linked_to_center c n (Z.to_nat (Hex.distance c a))); lia.
  - apply linked_sym.
    apply (disk_linked_to_center c n (Z.to_nat (Hex.distance c b))); lia.
Qed.

Lemma chain_placed_connected (s : HexGrid.t) (ms : list HexGrid.t) (g : HexGrid.t) :
  chain_placed s ms g ->
  (forall a b, In a (HexGrid.keys s) -> In b (HexGrid.keys s) ->
               linked (HexGrid.keys s) a b) ->
  Forall (fun m => forall a b, In a (HexGrid.keys m) -> In b (HexGrid.keys m) ->
                               linked (HexGrid.keys m) a b) ms ->
  forall a b, In a (HexGrid.keys g) -> In b (HexGrid.keys g) ->
              linked (HexGrid.keys g) a b.
Proof.
  intros Hchain. induction Hchain as [s|s m ms s' Hdis Hadj Hchain IH]; intros Hs Hms.
  - exact Hs.
  - inversion Hms as [|? ? Hm Hms']; subst. apply IH; [|exact Hms'].
    set (u := HexGrid.keys (HexGrid.update s m)).
    assert (Is : incl (HexGrid.keys s) u)
      by (intros x Hx; apply grid_update_keys_In; now left).
    assert (Im : incl (HexGrid.keys m) u)
      by (intros x Hx; apply grid_update_keys_In; now right).
    destruct Hadj as (h & i & nb & Hh & Hi & Hstep & Hnb).
    assert (Hd : Hex.distance h nb = 1).
    { apply neighbor_list_distance. apply in_neighbor_list. now exists i. }
    (* the bridge between the two parts *)
    assert (Hbridge : linked u nb h).
    { apply (linked_step u nb h h); [now apply Is| |constructor; now apply Im].
      now rewrite distance_sym. }
    intros a b Ha Hb.
    apply grid_update_keys_In in Ha, Hb.
    destruct Ha as [Ha|Ha], Hb as [Hb|Hb].
    + apply (linked_incl _ u _ _ Is). now apply Hs.
    + apply (linked_trans u a nb b); [apply (linked_incl _ u _ _ Is); now apply Hs|].
      apply (linked_trans u nb h b); [exact Hbridge|].
      apply (linked_incl _ u _ _ Im). now apply Hm.
    + apply (linked_trans u a h b); [apply (linked_incl _ u _ _ Im); now apply Hm|].
      apply (linked_trans u h nb b); [now apply linked_sym|].
      apply (linked_incl _ u _ _ Is). now apply Hs.
    + apply (linked_incl _ u _ _ Im). now apply Hm.
Qed.

Lemma for_each_invariant {A S : Type} (P : S -> Prop) (body : A -> S -> result S)
    (l : list A) :
  (forall x s s', body x s = Ok s' -> P s -> P s') ->
  forall s s', for_each l body s = Ok s' -> P s -> P s'.
Proof.
  intros Hbody. induction l as [|x l IH]; intros s s' Hrun Hs; cbn [for_each] in Hrun.
  - injection Hrun as <-. exact Hs.
  - destruct (body x s) as [s1|e] eqn:Hx; [|discriminate Hrun]. cbn [bind] in Hrun.
    apply (IH s1 s' Hrun). now apply (Hbody x s).
Qed.

Lemma merge_first_wins_fresh (snow out : HexGrid.t) :
  NoDup (HexGrid.keys out ++ HexGrid.keys snow) ->
  ConcentricHexflowerOfHexflowersBuilder.merge_first_wins out snow = out ++ snow.
Proof.
  unfold ConcentricHexflowerOfHexflowersBuilder.merge_first_wins, HexGrid.items.
  revert out. induction snow as [|[k v] snow IH]; intros out Hnd; cbn [fold_left fst snd].
  - now rewrite app_nil_r.
  - cbn [HexGrid.keys map fst] in Hnd.
    assert (Hnew : ~ In k (HexGrid.keys out)).
    { apply NoDup_remove_2 in Hnd. intros Hin. apply Hnd. apply in_or_app. now left. }
    rewrite (proj2 (grid_get_None out k) Hnew).
    rewrite grid_set_new_cell by assumption. rewrite IH.
    + now rewrite <- app_assoc.
    + rewrite grid_keys_app, <- app_assoc. exact Hnd.
Qed.

Lemma merge_first_wins_keys_In (snow out : HexGrid.t) (h : Hex.t) :
  In h (HexGrid.keys (ConcentricHexflowerOfHexflowersBuilder.merge_first_wins out snow))
  <-> In h (HexGrid.keys out) \/ In h (HexGrid.keys snow).
Proof.
  pose proof (merge_first_wins_get snow out h) as Hget.
  pose proof (grid_get_None
                (ConcentricHexflowerOfHexflowersBuilder.merge_first_wins out snow) h) as H1.
  pose proof (grid_get_None out h) as H2. pose proof (grid_get_None snow h) as H3.
  destruct (in_dec Hex.eq_dec h (HexGrid.keys out)) as [Ho|Ho];
    destruct (in_dec Hex.eq_dec h (HexGrid.keys snow)) as [Hs|Hs];
    destruct (HexGrid.get out h), (HexGrid.get snow h),
      (HexGrid.get (ConcentricHexflowerOfHexflowersBuilder.merge_first_wins out snow) h);
    try discriminate Hget;
    destruct (in_dec Hex.eq_dec h
                (HexGrid.keys
                   (ConcentricHexflowerOfHexflowersBuilder.merge_first_wins out snow)));
    intuition congruence.
Qed.

Lemma merge_first_wins_shape (snow out : HexGrid.t) :
  (NoDup (HexGrid.keys out) ->
   NoDup (HexGrid.keys (ConcentricHexflowerOfHexflowersBuilder.merge_first_wins out snow))) /\
  (HexGrid.len (ConcentricHexflowerOfHexflowersBuilder.merge_first_wins out snow)
   <= HexGrid.len out + HexGrid.len snow)%nat /\
  (biome_cells out -> biome_cells snow ->
   biome_cells (ConcentricHexflowerOfHexflowersBuilder.merge_first_wins out snow)).
Proof.
  unfold ConcentricHexflowerOfHexflowersBuilder.merge_first_wins, HexGrid.items.
  revert out. induction snow as [|[k v] snow IH]; intros out; cbn [fold_left fst snd].
  - split; [auto|]. split; [unfold HexGrid.len; simpl; lia|auto].
  - destruct (HexGrid.get out k) as [w|] eqn:E.
    + destruct (IH out) as (Hn & Hl & Hb). split; [exact Hn|].
      split; [unfold HexGrid.len in *; simpl; lia|].
      intros Ho Hs. inversion Hs; subst. now apply Hb.
    + destruct (IH (HexGrid.set out k v)) as (Hn & Hl & Hb).
      split; [intros Ho; apply Hn; now apply grid_set_NoDup|]. split.
      * apply grid_get_None in E.
        assert (Hs : HexGrid.len (HexGrid.set out k v) = S (HexGrid.len out)).
        { rewrite !grid_len_keys, grid_keys_set_new by assumption.
          rewrite length_app. simpl. lia. }
        rewrite Hs in Hl. unfold HexGrid.len in *. cbn [length]. lia.
      * intros Ho Hs. inversion Hs; subst. apply Hb; [|assumption].
        now apply biome_cells_set.
Qed.

Section BuilderExtras.
Context {R : Type} {RS : RandomSource R} {SO : SetOrder}.
Import SnowflakeHexflowerGenerator ConnectedHexflowerBuilder
       ConcentricHexflowerOfHexflowersBuilder.

Lemma generate_biome_cells (center : Hex.t) (radius : Z) (rng : R)
    (grid : HexGrid.t) (rng' : R) :
  generate center radius rng = Ok (grid, rng') -> biome_cells grid.
Proof.
  unfold generate. intros Hgen.
  destruct (Z.ltb_spec radius 0) as [?|Hr]; [discriminate Hgen|].
  pose proof (start_biome_is_biome rng) as Hb.
  destruct (BiomeTables.start_biome rng) as [b rng0]. cbn [fst] in Hb.
  destruct (fill_rings_step center (HexGrid.set HexGrid.empty center b) rng0
              (Z.to_nat radius)) as (g & Hloop & Hcells).
  rewrite Z2Nat.id in Hloop by assumption. rewrite Hloop in Hgen.
  apply Ok_inj in Hgen. injection Hgen as <- _.
  apply Hcells. apply biome_cells_set; [constructor|exact Hb].
Qed.

(** The super-grid a returning [build_chain] gives back is in one
    piece: any two of its hexes are joined by a walk over neighbouring
    hexes of the grid. *)
Theorem build_chain_connected (count radius max_tries : Z) (rng : R)
    (g : HexGrid.t) (rng' : R) (a b : Hex.t) :
  build_chain count radius max_tries rng = Ok (g, rng') ->
  In a (HexGrid.keys g) ->
  In b (HexGrid.keys g) ->
  linked (HexGrid.keys g) a b.
Proof.
  unfold build_chain. intros Hrun.
  destruct (Z.ltb_spec count 1) as [?|Hc]; [discriminate Hrun|].
  destruct (Z_lt_le_dec radius 0) as [Hneg|Hr].
  { rewrite generate_negative in Hrun by assumption. discriminate Hrun. }
  destruct (generate_keys (Hex.mk 0 0) radius rng Hr) as (seed & rng1 & Hgen & Hkeys).
  rewrite Hgen in Hrun. cbn [bind] in Hrun.
  rewrite grid_update_empty in Hrun by (rewrite Hkeys; apply spiral_list_NoDup).
  apply place_clusters_chain in Hrun as (clusters & _ & Hfrom & Hchain).
  apply (chain_placed_connected seed clusters g Hchain).
  - rewrite Hkeys. apply disk_connected.
  - eapply Forall_impl; [|exact Hfrom]. intros m Hm.
    apply translated_cluster_shape in Hm as (_ & _ & _ & dq & dr & ->).
    apply disk_connected.
Qed.

(** Every value in the grid returned by either builder is one of the
    five terrain names. *)
Theorem builders_values_are_biomes (count radius max_tries meta_radius : Z) (rng : R)
    (g : HexGrid.t) (rng' : R) (h : Hex.t) (v : Biome) :
  build_chain count radius max_tries rng = Ok (g, rng')
  \/ build meta_radius radius rng = Ok (g, rng') ->
  HexGrid.get g h = Some v ->
  is_biome v.
Proof.
  intros Hrun Hget. apply (biome_cells_get g h v); [|exact Hget]. clear Hget.
  destruct Hrun as [Hrun|Hrun].
  - unfold build_chain in Hrun.
    destruct (count <? 1); [discriminate Hrun|].
    destruct (generate (Hex.mk 0 0) radius rng) as [[seed rng1]|e] eqn:Hgen;
      [|discriminate Hrun].
    cbn [bind] in Hrun.
    apply (for_each_invariant (fun st : HexGrid.t * R => biome_cells (fst st)))
      in Hrun; [exact Hrun| |].
    + intros _ [s rng2] [s' rng3] Hstep Hs. cbn [fst] in *.
      apply place_cluster_result in Hstep as (new & rng4 & dq & dr & Hnew & _ & _ & ->).
      apply biome_cells_update; [exact Hs|]. apply biome_cells_translate.
      now apply generate_biome_cells in Hnew.
    + cbn [fst]. apply biome_cells_update; [constructor|].
      now apply generate_biome_cells in Hgen.
  - unfold build in Hrun.
    destruct (meta_radius <? 0); [discriminate Hrun|].
    destruct (radius <? 0); [discriminate Hrun|]. cbn zeta in Hrun.
    destruct (HexTraversal.spiral (Hex.mk 0 0) meta_radius) as [positions|e];
      [|discriminate Hrun].
    cbn [bind] in Hrun.
    apply (for_each_invariant (fun st : HexGrid.t * R => biome_cells (fst st)))
      in Hrun; [exact Hrun| |constructor].
    intros mh [out rng2] [out' rng3] Hstep Hs. cbn [fst] in *.
    destruct (generate _ radius rng2) as [[snow rng4]|e] eqn:Hgen; [|discriminate Hstep].
    cbn [bind] in Hstep. apply Ok_inj in Hstep. injection Hstep as <- _.
    apply merge_first_wins_shape; [exact Hs|]. now apply generate_biome_cells in Hgen.
Qed.

(** With [meta_radius = 0] the concentric builder is [generate] at the
    origin: the same cells in the same order from the same draws, and
    the same error for a negative radius. *)
Theorem build_single_is_generate (snowflake_radius : Z) (rng : R) :
  build 0 snowflake_radius rng = generate (Hex.mk 0 0) snowflake_radius rng.
Proof.
  destruct (Z_lt_le_dec snowflake_radius 0) as [Hneg|Hr].
  { rewrite build_negative by (right; assumption).
    now rewrite generate_negative by assumption. }
  unfold build. cbn [Z.ltb Z.compare].
  destruct (Z.ltb_spec snowflake_radius 0) as [?|_]; [lia|].
  cbn zeta. change (HexTraversal.spiral (Hex.mk 0 0) 0) with (Ok [Hex.mk 0 0]).
  cbn [bind for_each Hex.q Hex.r Z.mul].
  destruct (generate_keys (Hex.mk 0 0) snowflake_radius rng Hr) as (g & rng' & Hgen & Hkeys).
  rewrite Hgen. cbn [bind].
  rewrite merge_first_wins_fresh by (cbn [HexGrid.empty HexGrid.keys map app];
                                     fold (HexGrid.keys g); rewrite Hkeys;
                                     apply spiral_list_NoDup).
  reflexivity.
Qed.

Lemma build_loop_shape (snowflake_radius : Z) (positions : list Hex.t) :
  0 <= snowflake_radius ->
  forall (out : HexGrid.t) (rng : R),
  exists out' rng',
    for_each positions
      (fun mh '(out, rng) =>
         let center := Hex.mk (Hex.q mh * (2 * snowflake_radius))
                              (Hex.r mh * (2 * snowflake_radius)) in
         '(snowflake, rng) <- generate center snowflake_radius rng ;;
         Ok (merge_first_wins out snowflake, rng))
      (out, rng) = Ok (out', rng') /\
    (NoDup (HexGrid.keys out) -> NoDup (HexGrid.keys out')) /\
    (forall h, In h (HexGrid.keys out') <->
               In h (HexGrid.keys out) \/
               exists mh, In mh positions /\
                          Hex.distance (cluster_center snowflake_radius mh) h
                          <= snowflake_radius) /\
    (Z.of_nat (HexGrid.len out')
     <= Z.of_nat (HexGrid.len out)
        + Z.of_nat (length positions)
          * (1 + 3 * snowflake_radius * (snowflake_radius + 1))).
Proof.
  intros Hr. induction positions as [|mh positions IH]; intros out rng.
  - exists out, rng. cbn [for_each]. split; [reflexivity|]. split; [auto|].
    split; [|cbn [length]; lia].
    intros h. split; [now left|]. intros [Hin|(mh & [] & _)]. exact Hin.
  - cbn [for_each]. cbn zeta.
    destruct (generate_keys (cluster_center snowflake_radius mh) snowflake_radius rng Hr)
      as (g & rng1 & Hgen & Hkeys).
    unfold cluster_center in Hgen at 1. rewrite Hgen. cbn [bind].
    destruct (IH (merge_first_wins out g) rng1) as (out' & rng' & Hloop & Hnd & Hin & Hlen).
    exists out', rng'. split; [exact Hloop|].
    destruct (merge_first_wins_shape g out) as (Hn1 & Hl1 & _).
    split; [auto|]. split.
    + intros h. rewrite Hin, merge_first_wins_keys_In, Hkeys, spiral_list_In_iff.
      rewrite Z2Nat.id by assumption. split.
      * intros [[Ho|Hd]|(m & Hm & Hd)]; [now left| |].
        -- right. exists mh. split; [now left|exact Hd].
        -- right. exists m. split; [now right|exact Hd].
      * intros [Ho|(m & [<-|Hm] & Hd)]; [now left; left|now left; right|].
        right. exists m. now split.
    + pose proof (spiral_list_length (cluster_center snowflake_radius mh)
                    (Z.to_nat snowflake_radius)) as Hk.
      rewrite Z2Nat.id in Hk by assumption.
      rewrite <- Hkeys, <- grid_len_keys in Hk.
      cbn [length]. nia.
Qed.

(** For non-negative radii the concentric builder returns, under
    pairwise distinct keys, exactly the coordinates within
    [snowflake_radius] of some cluster centre, the centres being the
    meta-positions within [meta_radius] of the origin scaled by
    [2 * snowflake_radius]; it never has more cells than clusters times
    cluster size. *)
Theorem build_covers_cluster_disks (meta_radius snowflake_radius : Z) (rng : R) :
  0 <= meta_radius ->
  0 <= snowflake_radius ->
  exists out rng',
    build meta_radius snowflake_radius rng = Ok (out, rng') /\
    NoDup (HexGrid.keys out) /\
    (forall h,
       In h (HexGrid.keys out) <->
       exists mh,
         Hex.distance (Hex.mk 0 0) mh <= meta_radius /\
         Hex.distance (Hex.mk (Hex.q mh * (2 * snowflake_radius))
                              (Hex.r mh * (2 * snowflake_radius))) h
         <= snowflake_radius) /\
    Z.of_nat (HexGrid.len out)
    <= (1 + 3 * meta_radius * (meta_radius + 1))
       * (1 + 3 * snowflake_radius * (snowflake_radius + 1)).
Proof.
  intros Hm Hr.
  pose proof (spiral_eq_list (Hex.mk 0 0) (Z.to_nat meta_radius)) as Hspiral.
  rewrite Z2Nat.id in Hspiral by assumption.
  destruct (build_loop_shape snowflake_radius
              (spiral_list (Hex.mk 0 0) (Z.to_nat meta_radius)) Hr HexGrid.empty rng)
    as (out & rng' & Hloop & Hnd & Hin & Hlen).
  exists out, rng'. split.
  { unfold build.
    destruct (Z.ltb_spec meta_radius 0) as [?|_]; [lia|].
    destruct (Z.ltb_spec snowflake_radius 0) as [?|_]; [lia|].
    cbn zeta. rewrite Hspiral. cbn [bind]. exact Hloop. }
  split; [apply Hnd; constructor|]. split.
  - intros h. rewrite Hin. split.
    + intros [[]|(mh & Hmh & Hd)]. exists mh. split; [|exact Hd].
      apply spiral_list_In_iff in Hmh. lia.
    + intros (mh & Hmh & Hd). right. exists mh. split; [|exact Hd].
      apply spiral_list_In_iff. lia.
  - pose proof (spiral_list_length (Hex.mk 0 0) (Z.to_nat meta_radius)) as Hk.
    rewrite Z2Nat.id in Hk by assumption. rewrite Hk in Hlen.
    cbn [HexGrid.len HexGrid.empty length] in Hlen. lia.
Qed.

End BuilderExtras.

Lemma build_chain_connected_witness :
  ConnectedHexflowerBuilder.build_chain 2 1 5 0%nat = Ok (chain_of_two, 18%nat) /\
  In (Hex.mk 1 0) (HexGrid.keys chain_of_two) /\
  In (Hex.mk (-4) 1) (HexGrid.keys chain_of_two) /\
  linked (HexGrid.keys chain_of_two) (Hex.mk 1 0) (Hex.mk (-4) 1).
Proof.
  assert (Hrun : ConnectedHexflowerBuilder.build_chain 2 1 5 0%nat
                 = Ok (chain_of_two, 18%nat)) by (vm_compute; reflexivity).
  assert (Ha : In (Hex.mk 1 0) (HexGrid.keys chain_of_two)) by (simpl; auto 20).
  assert (Hb : In (Hex.mk (-4) 1) (HexGrid.keys chain_of_two)) by (simpl; auto 20).
  split; [exact Hrun|]. split; [exact Ha|]. split; [exact Hb|].
  exact (build_chain_connected 2 1 5 0%nat chain_of_two 18%nat _ _ Hrun Ha Hb).
Defined.

Lemma builders_values_are_biomes_witness :
  (ConnectedHexflowerBuilder.build_chain 2 1 5 0%nat = Ok (chain_of_two, 18%nat)
   \/ ConcentricHexflowerOfHexflowersBuilder.build 0 1 0%nat = Ok (chain_of_two, 18%nat)) /\
  HexGrid.get chain_of_two (Hex.mk (-4) 1) = Some "marsh"%string /\
  is_biome "marsh"%string.
Proof.
  assert (Hrun : ConnectedHexflowerBuilder.build_chain 2 1 5 0%nat
                 = Ok (chain_of_two, 18%nat)) by (vm_compute; reflexivity).
  split; [left; exact Hrun|]. split; [reflexivity|].
  exact (builders_values_are_biomes 2 1 5 0 0%nat chain_of_two 18%nat (Hex.mk (-4) 1)
           "marsh"%string (or_introl Hrun) eq_refl).
Defined.

Lemma build_covers_cluster_disks_witness :
  0 <= 1 /\ 0 <= 2 /\
  exists out rng',
    ConcentricHexflowerOfHexflowersBuilder.build 1 2 0%nat = Ok (out, rng') /\
    NoDup (HexGrid.keys out) /\
    (forall h,
       In h (HexGrid.keys out) <->
       exists mh,
         Hex.distance (Hex.mk 0 0) mh <= 1 /\
         Hex.distance (Hex.mk (Hex.q mh * (2 * 2)) (Hex.r mh * (2 * 2))) h <= 2) /\
    Z.of_nat (HexGrid.len out) <= (1 + 3 * 1 * (1 + 1)) * (1 + 3 * 2 * (2 + 1)).
Proof.
  split; [lia|]. split; [lia|].
  apply (build_covers_cluster_disks 1 2 0%nat); lia.
Defined.

(** ** render_svg.py: the escape of labels and titles *)

Lemma string_app_assoc (a b c : string) :
  ((a ++ b) ++ c)%string = (a ++ (b ++ c))%string.
Proof.
  induction a as [|d a IH]; cbn [String.append]; [reflexivity|now rewrite IH].
Qed.

Lemma replace_app (old : ascii) (new s1 s2 : string) :
  SVGRenderer.replace old new (s1 ++ s2)
  = (SVGRenderer.replace old new s1 ++ SVGRenderer.replace old new s2)%string.
Proof.
  induction s1 as [|c s1 IH]; cbn [SVGRenderer.replace String.append]; [reflexivity|].
  rewrite IH. destruct (Ascii.eqb c old); cbn [String.append]; [|reflexivity].
  now rewrite string_app_assoc.
Qed.

Lemma esc_app (s1 s2 : string) :
  SVGRenderer.esc (s1 ++ s2) = (SVGRenderer.esc s1 ++ SVGRenderer.esc s2)%string.
Proof. unfold SVGRenderer.esc. now rewrite !replace_app. Qed.

Lemma esc_single (c : ascii) :
  SVGRenderer.esc (String c EmptyString)
  = if Ascii.eqb c "&" then "&amp;"%string
    else if Ascii.eqb c "<" then "&lt;"%string
    else if Ascii.eqb c ">" then "&gt;"%string
    else if Ascii.eqb c SVGRenderer.quot then "&quot;"%string
    else if Ascii.eqb c "'" then "&apos;"%string
    else String c EmptyString.
Proof. destruct c as [[] [] [] [] [] [] [] []]; reflexivity. Qed.

Lemma esc_cons (c : ascii) (s : string) :
  SVGRenderer.esc (String c s)
  = (SVGRenderer.esc (String c EmptyString) ++ SVGRenderer.esc s)%string.
Proof. now rewrite <- esc_app. Qed.

Ltac esc_classes :=
  repeat match goal with
         | H : context [Ascii.eqb ?c ?k] |- _ =>
             destruct (Ascii.eqb_spec c k); [subst c|]
         | |- context [Ascii.eqb ?c ?k] =>
             destruct (Ascii.eqb_spec c k); [subst c|]
         end.

Ltac esc_vars H :=
  repeat match type of H with
         | context [Ascii.eqb ?c ?k] =>
             is_var c; destruct (Ascii.eqb_spec c k); [subst c|]
         end;
  cbv [Ascii.eqb Bool.eqb andb] in H.

Lemma string_tail_inj (c : ascii) (a b : string) : String c a = String c b -> a = b.
Proof. congruence. Qed.

Ltac peel_chars H :=
  cbn [String.append] in H;
  repeat match type of H with
         | String ?c _ = String ?c _ => apply string_tail_inj in H
         | String _ _ = String _ _ =>
             let Hc := fresh "Hc" in
             injection H as Hc H; try discriminate Hc; try congruence
         end.

Lemma esc_safe_chars (s : string) (x : ascii) :
  In x (list_ascii_of_string (SVGRenderer.esc s)) ->
  x <> "<"%char /\ x <> ">"%char /\ x <> SVGRenderer.quot /\ x <> "'"%char.
Proof.
  induction s as [|c s IH]; [intros []|].
  rewrite esc_cons, esc_single.
  assert (Happ : forall a b, list_ascii_of_string (a ++ b)
                             = list_ascii_of_string a ++ list_ascii_of_string b).
  { clear. induction a as [|d a IHa]; intros b; cbn; [reflexivity|now rewrite IHa]. }
  rewrite Happ, in_app_iff. intros [Hx|Hx]; [|now apply IH]. clear IH Happ.
  esc_classes; cbn in Hx;
    repeat (destruct Hx as [<-|Hx]; [repeat split; (discriminate || congruence)|]);
    destruct Hx.
Qed.

Lemma esc_injective (s s' : string) :
  SVGRenderer.esc s = SVGRenderer.esc s' -> s = s'.
Proof.
  revert s'. induction s as [|c s IH]; intros [|c' s'] E.
  - reflexivity.
  - exfalso. rewrite esc_cons, esc_single in E. change (SVGRenderer.esc "") with ""%string in E.
    esc_vars E; discriminate E.
  - exfalso. rewrite esc_cons, esc_single in E. change (SVGRenderer.esc "") with ""%string in E.
    esc_vars E; discriminate E.
  - rewrite (esc_cons c), (esc_cons c'), !esc_single in E.
    esc_vars E; peel_chars E; try (exfalso; congruence);
      (f_equal; first [now apply IH | congruence]).
Qed.

(** The escape used for every piece of text in the SVG: its result
    holds no [<], [>], double quote or apostrophe; it works piece by
    piece, so escaping a concatenation is concatenating the escapes; and
    it loses nothing, since different texts have different escapes. *)
Theorem esc_is_safe_and_faithful (s s' : string) :
  (forall x, In x (list_ascii_of_string (SVGRenderer.esc s)) ->
             x <> "<"%char /\ x <> ">"%char /\ x <> SVGRenderer.quot /\ x <> "'"%char) /\
  SVGRenderer.esc (s ++ s') = (SVGRenderer.esc s ++ SVGRenderer.esc s')%string /\
  (SVGRenderer.esc s = SVGRenderer.esc s' <-> s = s').
Proof.
  split; [intros x; apply esc_safe_chars|]. split; [apply esc_app|].
  split; [apply esc_injective|now intros ->].
Qed.

(** * The first-wins merge, cell by cell *)

Lemma first_value_first_cell (clusters : list HexGrid.t) (h : Hex.t) (v : Biome) :
  Forall (fun g => NoDup (HexGrid.keys g)) clusters ->
  (first_value clusters h = Some v <-> first_cell clusters h v).
Proof.
  unfold first_cell, HexGrid.items.
  induction 1 as [|g gs Hg Hgs IH]; cbn [first_value].
  - split; [discriminate|]. intros (before & g & after & E & _). now destruct before.
  - split.
    + destruct (HexGrid.get g h) as [w|] eqn:E.
      * intros [= ->]. exists [], g, gs. split; [reflexivity|]. split; [|constructor].
        now apply grid_get_In.
      * intros Hv. apply IH in Hv as (before & g' & after & -> & Hin & Hb).
        exists (g :: before), g', after. split; [reflexivity|]. split; [exact Hin|].
        constructor; [now apply grid_get_None|exact Hb].
    + intros (before & g' & after & E & Hin & Hb). destruct before as [|b before].
      * cbn [app] in E. injection E as <- <-.
        apply (grid_get_In g h v Hg) in Hin. now rewrite Hin.
      * cbn [app] in E. injection E as <- ->. inversion Hb as [|? ? Hh Hb']; subst.
        rewrite (proj2 (grid_get_None g h) Hh). apply IH.
        exists before, g', after. auto.
Qed.

Lemma first_cell_app (before rest : list HexGrid.t) (h : Hex.t) (v : Biome) :
  first_cell before h v -> first_cell (before ++ rest) h v.
Proof.
  intros (b & g & a & -> & Hin & Hb). exists b, g, (a ++ rest).
  split; [now rewrite <- app_assoc|]. split; assumption.
Qed.

(** A merge keeps every cell of the grid it merges into, whatever the
    merged cluster holds at that coordinate. *)
Lemma merge_first_wins_keeps_cell (out snowflake : HexGrid.t) (h : Hex.t) (v : Biome) :
  NoDup (HexGrid.keys out) ->
  In (h, v) (HexGrid.items out) ->
  In (h, v)
     (HexGrid.items (ConcentricHexflowerOfHexflowersBuilder.merge_first_wins out snowflake)).
Proof.
  intros Hnd Hin. apply grid_get_Some_In. apply merge_first_wins_keeps.
  now apply grid_get_In.
Qed.

Section BuildCells.
Context {R : Type} {RS : RandomSource R}.
Import SnowflakeHexflowerGenerator ConcentricHexflowerOfHexflowersBuilder.

(** C4. For non-negative radii, [build] generates one cluster for each
    meta-position of [spiral origin meta_radius], in that order and each
    continuing the random draws of the one before; the cluster for the
    meta-position [(mq, mr)] is generated at the centre
    [(mq * 2 * snowflake_radius, mr * 2 * snowflake_radius)] and its
    keys are the spiral around that centre. The clusters are merged
    first-wins: the output has pairwise distinct keys, and its cells are
    exactly the cells [(h, v)] of a cluster such that no earlier cluster
    has the key [h]. So a coordinate that some cluster already brought
    keeps that cluster's value in the output, whatever the later
    clusters hold there, and a lookup gives the value of the earliest
    cluster with the key. *)
Theorem build_first_wins (meta_radius snowflake_radius : Z) (rng : R) :
  0 <= meta_radius ->
  0 <= snowflake_radius ->
  exists positions clusters out rng',
    HexTraversal.spiral (Hex.mk 0 0) meta_radius = Ok positions /\
    generate_all (map (cluster_center snowflake_radius) positions) snowflake_radius rng
    = Ok (clusters, rng') /\
    build meta_radius snowflake_radius rng = Ok (out, rng') /\
    Forall2 (fun mh g =>
               HexGrid.keys g
               = spiral_list (Hex.mk (Hex.q mh * (2 * snowflake_radius))
                                     (Hex.r mh * (2 * snowflake_radius)))
                             (Z.to_nat snowflake_radius))
            positions clusters /\
    NoDup (HexGrid.keys out) /\
    (forall h v, In (h, v) (HexGrid.items out) <-> first_cell clusters h v) /\
    (forall before g after h v,
       clusters = before ++ g :: after ->
       first_cell before h v ->
       In (h, v) (HexGrid.items out) /\
       forall w, In (h, w) (HexGrid.items out) -> w = v) /\
    (forall h, HexGrid.get out h = first_value clusters h).
Proof.
  intros Hm Hs.
  pose proof (spiral_eq_list (Hex.mk 0 0) (Z.to_nat meta_radius)) as Hspiral.
  rewrite Z2Nat.id in Hspiral by assumption.
  destruct (build_loop_first_wins snowflake_radius
              (spiral_list (Hex.mk 0 0) (Z.to_nat meta_radius)) Hs HexGrid.empty rng)
    as (clusters & out & rng' & Hall & Hloop & Hcenters & Hget).
  destruct (build_loop_shape snowflake_radius
              (spiral_list (Hex.mk 0 0) (Z.to_nat meta_radius)) Hs HexGrid.empty rng)
    as (out2 & rng2 & Hloop2 & Hnd & _).
  rewrite Hloop in Hloop2. apply Ok_inj in Hloop2. injection Hloop2 as <- <-.
  specialize (Hnd (NoDup_nil _)).
  assert (Hfirst : forall h, HexGrid.get out h = first_value clusters h).
  { intros h. rewrite Hget. reflexivity. }
  assert (Hclusters : Forall (fun g => NoDup (HexGrid.keys g)) clusters).
  { clear - Hcenters. induction Hcenters as [|mh g ps gs Hk _ IH]; constructor; [|exact IH].
    rewrite Hk. apply spiral_list_NoDup. }
  assert (Hcells : forall h v, In (h, v) (HexGrid.items out) <-> first_cell clusters h v).
  { intros h v. rewrite <- first_value_first_cell by exact Hclusters.
    rewrite <- Hfirst. symmetry. apply grid_get_In. exact Hnd. }
  exists (spiral_list (Hex.mk 0 0) (Z.to_nat meta_radius)), clusters, out, rng'.
  split; [exact Hspiral|]. split; [exact Hall|]. split; [|split; [exact Hcenters|]].
  - unfold build.
    destruct (Z.ltb_spec meta_radius 0) as [?|_]; [lia|].
    destruct (Z.ltb_spec snowflake_radius 0) as [?|_]; [lia|].
    cbn zeta. rewrite Hspiral. cbn [bind]. exact Hloop.
  - split; [exact Hnd|]. split; [exact Hcells|]. split; [|exact Hfirst].
    intros before g after h v -> Hv.
    assert (Hin : In (h, v) (HexGrid.items out)).
    { apply Hcells. now apply first_cell_app. }
    split; [exact Hin|]. intros w Hw.
    apply (grid_get_In out h v Hnd) in Hin. apply (grid_get_In out h w Hnd) in Hw.
    congruence.
Qed.

End BuildCells.

Lemma build_first_wins_witness :
  0 <= 1 /\ 0 <= 1 /\
  exists positions clusters out rng',
    HexTraversal.spiral (Hex.mk 0 0) 1 = Ok positions /\
    generate_all (map (cluster_center 1) positions) 1 0%nat = Ok (clusters, rng') /\
    ConcentricHexflowerOfHexflowersBuilder.build 1 1 0%nat = Ok (out, rng') /\
    Forall2 (fun mh g =>
               HexGrid.keys g
               = spiral_list (Hex.mk (Hex.q mh * (2 * 1)) (Hex.r mh * (2 * 1)))
                             (Z.to_nat 1))
            positions clusters /\
    NoDup (HexGrid.keys out) /\
    (forall h v, In (h, v) (HexGrid.items out) <-> first_cell clusters h v) /\
    (forall before g after h v,
       clusters = before ++ g :: after ->
       first_cell before h v ->
       In (h, v) (HexGrid.items out) /\
       forall w, In (h, w) (HexGrid.items out) -> w = v) /\
    (forall h, HexGrid.get out h = first_value clusters h).
Proof.
  split; [lia|]. split; [lia|]. apply (build_first_wins 1 1 0%nat); lia.
Defined.

(** * The frontier list and the draw of a target *)

Lemma target_positions_length (l : list Hex.t) (x : Hex.t) :
  length (target_positions l x) = count_occ Hex.eq_dec l x.
Proof.
  unfold target_positions. induction l as [|y l IH]; [reflexivity|].
  cbn [length seq]. rewrite <- seq_shift. cbn [filter nth_error].
  rewrite filter_map_comm. cbn [nth_error]. cbn [count_occ].
  destruct (Hex.eq_dec y x) as [->|Hne].
  - rewrite (proj2 (hex_eqb_eq x x) eq_refl). cbn [length]. rewrite length_map. now rewrite IH.
  - rewrite (proj2 (hex_eqb_neq y x) Hne). rewrite length_map. exact IH.
Qed.

Lemma choice_target_positions {R : Type} {RS : RandomSource R}
    (l : list Hex.t) (rng : R) (target : Hex.t) (rng' : R) :
  choice l rng = Ok (target, rng') <->
  exists i, randbelow (length l) rng = (i, rng') /\ In i (target_positions l target).
Proof.
  unfold choice, target_positions. destruct (randbelow (length l) rng) as [i rng1]. split.
  - destruct (nth_error l i) as [y|] eqn:E; [|discriminate].
    intros [= -> ->]. exists i. split; [reflexivity|]. apply filter_In. split.
    + apply in_seq. assert (i < length l)%nat by (apply nth_error_Some; congruence). lia.
    + rewrite E. now apply hex_eqb_eq.
  - intros (j & [= <- <-] & Hj). apply filter_In in Hj as [_ Hj].
    destruct (nth_error l i) as [y|]; [|discriminate Hj].
    apply hex_eqb_eq in Hj. now subst y.
Qed.

(** C5 (as amended). The frontier built before each placement is a list
    with repeats, not a set. Its elements are exactly the coordinates
    that are not in the super-grid and are a neighbour of some
    coordinate in it; such a coordinate occurs in the list once for
    every super-grid cell it is adjacent to, so between one and six
    times. [rng.choice] gives the element at the index that the random
    source draws for the length of the list, and the number of indices
    that give a coordinate is the number of super-grid cells adjacent to
    it. *)
Theorem frontier_targets_multiplicity {R : Type} (RS : RandomSource R)
    (SO : SetOrder) (super_map : HexGrid.t) :
  NoDup (HexGrid.keys super_map) ->
  exists frontier,
    ConnectedHexflowerBuilder.frontier_targets (set_iter (HexGrid.keys super_map))
    = Ok frontier /\
    (forall x,
       In x frontier <->
       ~ In x (HexGrid.keys super_map) /\
       exists h, In h (HexGrid.keys super_map) /\ In x (neighbor_list h)) /\
    (forall x,
       count_occ Hex.eq_dec frontier x
       = if HexGrid.contains super_map x then 0%nat
         else length (adjacent_cells (HexGrid.keys super_map) x)) /\
    (forall x, (count_occ Hex.eq_dec frontier x <= 6)%nat) /\
    (forall x, In x frontier -> (1 <= count_occ Hex.eq_dec frontier x)%nat) /\
    (forall x,
       length (target_positions frontier x)
       = if HexGrid.contains super_map x then 0%nat
         else length (adjacent_cells (HexGrid.keys super_map) x)) /\
    (forall (rng : R) target rng',
       choice frontier rng = Ok (target, rng') <->
       exists i,
         randbelow (length frontier) rng = (i, rng') /\
         In i (target_positions frontier target)).
Proof.
  intros Hnd. set (keys := HexGrid.keys super_map) in *.
  assert (Hperm : Permutation (set_iter keys) keys).
  { rewrite <- (nodup_fixed_point Hex.eq_dec Hnd) at 2. apply set_iter_perm. }
  assert (Hmem : forall x, Hex.mem x (set_iter keys) = Hex.mem x keys).
  { intros x. destruct (Hex.mem x keys) eqn:E.
    - apply hex_mem_In. apply hex_mem_In in E.
      eapply Permutation_in; [apply Permutation_sym; exact Hperm|exact E].
    - apply hex_mem_not_In. apply hex_mem_not_In in E. intros Hin. apply E.
      eapply Permutation_in; eassumption. }
  assert (Hcount : forall x,
    count_occ Hex.eq_dec
      (flat_map (fun h => filter (fun nb => negb (Hex.mem nb (set_iter keys)))
                                 (neighbor_list h)) (set_iter keys)) x
    = if HexGrid.contains super_map x then 0%nat else length (adjacent_cells keys x)).
  { intros x. rewrite count_occ_frontier, Hmem.
    unfold HexGrid.contains. fold keys.
    destruct (Hex.mem x keys); [reflexivity|].
    apply adjacent_cells_length_perm. exact Hperm. }
  eexists. split; [apply frontier_targets_flat_map|].
  split; [|split; [exact Hcount|split; [|split; [|split]]]].
  - intros x. rewrite in_flat_map. split.
    + intros (h & Hh & Hx). apply filter_In in Hx as [Hx Hout].
      apply negb_true_iff in Hout. rewrite Hmem in Hout. apply hex_mem_not_In in Hout.
      split; [exact Hout|]. exists h. split; [|exact Hx].
      eapply Permutation_in; eassumption.
    + intros (Hout & h & Hh & Hx). exists h. split.
      * eapply Permutation_in; [apply Permutation_sym; exact Hperm|exact Hh].
      * apply filter_In. split; [exact Hx|]. apply negb_true_iff. rewrite Hmem.
        now apply hex_mem_not_In.
  - intros x. rewrite Hcount. destruct (HexGrid.contains super_map x); [lia|].
    (* every adjacent cell is one of the six neighbours of [x] *)
    assert (Hincl : incl (adjacent_cells keys x) (neighbor_list x)).
    { intros h Hh. apply filter_In in Hh as [_ Hh]. apply hex_mem_In in Hh.
      now apply neighbor_list_sym. }
    assert (Hnd' : NoDup (adjacent_cells keys x)) by (now apply NoDup_filter).
    apply (NoDup_incl_length Hnd') in Hincl. exact Hincl.
  - intros x Hx. apply (count_occ_In Hex.eq_dec) in Hx. lia.
  - intros x. rewrite target_positions_length. apply Hcount.
  - intros rng target rng'. apply choice_target_positions.
Qed.

Lemma frontier_targets_multiplicity_witness :
  NoDup (HexGrid.keys radius1_cluster) /\
  exists frontier,
    ConnectedHexflowerBuilder.frontier_targets (set_iter (HexGrid.keys radius1_cluster))
    = Ok frontier /\
    (forall x,
       In x frontier <->
       ~ In x (HexGrid.keys radius1_cluster) /\
       exists h, In h (HexGrid.keys radius1_cluster) /\ In x (neighbor_list h)) /\
    (forall x,
       count_occ Hex.eq_dec frontier x
       = if HexGrid.contains radius1_cluster x then 0%nat
         else length (adjacent_cells (HexGrid.keys radius1_cluster) x)) /\
    (forall x, (count_occ Hex.eq_dec frontier x <= 6)%nat) /\
    (forall x, In x frontier -> (1 <= count_occ Hex.eq_dec frontier x)%nat) /\
    (forall x,
       length (target_positions frontier x)
       = if HexGrid.contains radius1_cluster x then 0%nat
         else length (adjacent_cells (HexGrid.keys radius1_cluster) x)) /\
    (forall (rng : nat) target rng',
       choice frontier rng = Ok (target, rng') <->
       exists i,
         randbelow (length frontier) rng = (i, rng') /\
         In i (target_positions frontier target)).
Proof.
  split; [exact radius1_cluster_NoDup|].
  apply (frontier_targets_multiplicity counter_rng insertion_order radius1_cluster).
  exact radius1_cluster_NoDup.
Defined.
